(** * Sync store and event iterator of the indexer (SqliteSyncStore)

    A shallow embedding of the SQLite sync store: the tables are lists of
    rows, every query is the list comprehension the SQL text denotes, and
    every store method is a function from a store to a store (and a result).

    Columns of SQL type [BigIntText] hold a non-negative integer written as
    fixed-width zero-padded decimal text, so that comparing two column values
    as text is comparing the integers; they are carried here as [Z] and the
    comparisons are the integer ones. *)

From Stdlib Require Import ZArith List Bool String Ascii Lia Arith.
From Stdlib Require Import Sorting.Sorted Sorting.Permutation.
From Stdlib Require Import DecimalString DecimalNat.
Import ListNotations.

Open Scope Z_scope.

(* ================================================================== *)
(** * Interval algebra *)
(* ================================================================== *)

Module Interval.

(** A closed integer interval [[a, b]], as the two-element arrays of the
    source. *)
Definition t : Type := (Z * Z)%type.

Definition inside (n : Z) (i : t) : Prop := fst i <= n <= snd i.

Definition insideb (n : Z) (i : t) : bool := (fst i <=? n) && (n <=? snd i).

(** [n] lies in one of the intervals of the list. *)
Definition covered (n : Z) (l : list t) : Prop := exists i, In i l /\ inside n i.

Definition coveredb (n : Z) (l : list t) : bool := existsb (insideb n) l.

(** Ascending sort on the start of the interval; intervals with the same
    start stay in the order they came in (the sort is stable). *)
Fixpoint insert_by_start (i : t) (l : list t) : list t :=
  match l with
  | [] => [i]
  | j :: l' => if fst i <=? fst j then i :: j :: l' else j :: insert_by_start i l'
  end.

Fixpoint sort_by_start (l : list t) : list t :=
  match l with
  | [] => []
  | i :: l' => insert_by_start i (sort_by_start l')
  end.

(** One left-to-right pass over the sorted intervals: the current interval
    absorbs the next one when they overlap or touch ([b + 1 = a']). *)
Fixpoint merge_pass (cur : t) (rest : list t) : list t :=
  match rest with
  | [] => [cur]
  | nxt :: rest' =>
      if fst nxt - 1 <=? snd cur
      then merge_pass (fst cur, Z.max (snd cur) (snd nxt)) rest'
      else cur :: merge_pass nxt rest'
  end.

(** Modelled from the spec: [intervalUnion] of [@/utils/interval.js], which is
    not part of the sources at hand.  "Given a list of closed integer
    intervals, return the unique minimal list of disjoint, non-touching
    intervals whose union equals the input.  Touching intervals
    ([b+1 = a']) merge." *)
Definition intervalUnion (l : list t) : list t :=
  match sort_by_start l with
  | [] => []
  | cur :: rest => merge_pass cur rest
  end.

(** The sweep over two lists in ascending order: emit the overlap of the two
    heads when there is one, then advance the list whose head ends first. *)
Fixpoint sweep (l1 : list t) : list t -> list t :=
  fix sweep_r (l2 : list t) : list t :=
    match l1, l2 with
    | [], _ => []
    | _, [] => []
    | i1 :: t1, i2 :: t2 =>
        let s := Z.max (fst i1) (fst i2) in
        let e := Z.min (snd i1) (snd i2) in
        let rest := if snd i1 <? snd i2 then sweep t1 l2 else sweep_r t2 in
        if s <=? e then (s, e) :: rest else rest
    end.

(** Modelled from the spec: the intersection of two interval lists, of
    [@/utils/interval.js], which is not part of the sources at hand: one
    sweep over the two lists as they are given. *)
Definition intervalIntersection (l1 l2 : list t) : list t := sweep l1 l2.

(** Modelled from the spec: [intervalIntersectionMany] of
    [@/utils/interval.js], which is not part of the sources at hand.  "Given
    [k] lists each already unioned, return the intersection.  If any list is
    empty, the result is empty.  Implemented by sweeping all lists together in
    ascending order."  The lists are swept as they are given: nothing sorts
    or unions them first, so the result is the intersection only for lists
    that are already unioned, and a single list comes back as it is.  No list
    at all gives no interval. *)
Definition intervalIntersectionMany (lists : list (list t)) : list t :=
  match lists with
  | [] => []
  | l :: ls => fold_left intervalIntersection ls l
  end.

(** The merged form: ascending starts, and every interval ends at least two
    below the start of every later one (they neither overlap nor touch). *)
Definition apart (a b : t) : Prop := fst a <= fst b /\ snd a + 1 < fst b.

Definition merged (l : list t) : Prop := StronglySorted apart l.

Definition starts_le (a b : t) : Prop := fst a <= fst b.

(** An interval [[a, b]] with [a <= b], as the callers pass them. *)
Definition valid (i : t) : Prop := fst i <= snd i.

(** Ascending starts and no absorption between neighbours: the shape of
    what [intervalUnion] returns, whatever it was given. *)
Fixpoint settled_from (cur : t) (rest : list t) : Prop :=
  match rest with
  | [] => True
  | nxt :: rest' =>
      fst cur <= fst nxt /\ snd cur < fst nxt - 1 /\ settled_from nxt rest'
  end.

End Interval.

(* ================================================================== *)
(** * Lists with repeated elements *)
(* ================================================================== *)

Module Repeats.

(** [stutter l l']: [l'] is [l] with some of its elements repeated in
    place. *)
Inductive stutter {A : Type} : list A -> list A -> Prop :=
| stutter_nil : stutter [] []
| stutter_cons x l l' : stutter l l' -> stutter (x :: l) (x :: l')
| stutter_dup x l l' : stutter (x :: l) l' -> stutter (x :: l) (x :: l').

End Repeats.

(* ================================================================== *)
(** * Rows, criteria and fragments *)
(* ================================================================== *)

Module Rows.

(** Hex values are lowercased ["0x…"] strings. *)
Definition Hex : Type := string.

Definition opt_eqb (a b : option Hex) : bool :=
  match a, b with
  | None, None => true
  | Some x, Some y => String.eqb x y
  | _, _ => false
  end.

(** ** Raw tables *)

(** [blocks(hash PK, chainId, number, timestamp, …)]; the header columns no
    query of the store looks at are carried in [block_header]. *)
Record Block : Type := mkBlock {
  block_hash : Hex;
  block_chainId : Z;
  block_number : Z;
  block_timestamp : Z;
  block_header : list string
}.

(** [transactions(hash PK, chainId, blockHash, blockNumber, …)]. *)
Record Transaction : Type := mkTransaction {
  tx_hash : Hex;
  tx_chainId : Z;
  tx_blockHash : Hex;
  tx_blockNumber : Z;
  tx_transactionIndex : Z;
  tx_columns : list string
}.

(** [logs(id PK, chainId, address, blockHash, blockNumber, data, logIndex,
    topic0..topic3, transactionHash, transactionIndex)]. *)
Record Log : Type := mkLog {
  log_id : string;
  log_chainId : Z;
  log_address : Hex;
  log_blockHash : Hex;
  log_blockNumber : Z;
  log_data : Hex;
  log_logIndex : Z;
  log_topic0 : option Hex;
  log_topic1 : option Hex;
  log_topic2 : option Hex;
  log_topic3 : option Hex;
  log_transactionHash : Hex;
  log_transactionIndex : Z
}.

(** [rpcRequestResults(request, blockNumber, chainId, result)]. *)
Record RpcRequestResult : Type := mkRpcRequestResult {
  rpc_request : string;
  rpc_blockNumber : Z;
  rpc_chainId : Z;
  rpc_result : string
}.

(** The spread [{ ...rpcToSqliteBlock(rpcBlock), chainId }]: the converted row
    with its [chainId] column set.  The converters of [./format.js] are not
    among the sources; their result, a row, is what the methods take here. *)
Definition block_on (chainId : Z) (b : Block) : Block :=
  mkBlock (block_hash b) chainId (block_number b) (block_timestamp b)
          (block_header b).

Definition tx_on (chainId : Z) (t : Transaction) : Transaction :=
  mkTransaction (tx_hash t) chainId (tx_blockHash t) (tx_blockNumber t)
                (tx_transactionIndex t) (tx_columns t).

Definition log_on (chainId : Z) (l : Log) : Log :=
  mkLog (log_id l) chainId (log_address l) (log_blockHash l)
        (log_blockNumber l) (log_data l) (log_logIndex l)
        (log_topic0 l) (log_topic1 l) (log_topic2 l) (log_topic3 l)
        (log_transactionHash l) (log_transactionIndex l).

(** ** Criteria *)

(** A slot of a filter: one value or an array of values. *)
Inductive OneOrMany : Type :=
| One (h : Hex)
| Many (hs : list Hex).

Definition Topics : Type := list (option OneOrMany).

(** [LogFilterCriteria = { address?: A | A[], topics?: (T | T[] | null)[] }]. *)
Record LogFilterCriteria : Type := mkLogFilterCriteria {
  lfc_address : option OneOrMany;
  lfc_topics : option Topics
}.

(** [FactoryCriteria]: the emitter's [address], the [eventSelector] of the
    announcing event, where the child address sits, and topics. *)
Record FactoryCriteria : Type := mkFactoryCriteria {
  fc_address : Hex;
  fc_eventSelector : Hex;
  fc_childAddressLocation : string;
  fc_topics : option Topics
}.

(** [topics[idx] ?? null] *)
Definition topic_slot (topics : option Topics) (idx : nat) : option OneOrMany :=
  match topics with
  | None => None
  | Some ts => nth idx ts None
  end.

(** ** Fragments *)

(** Modelled from the spec: the fragment [id] of [@/utils/fragments.js], "a
    canonical string hash of [(chainId, address, topic0..topic3)]".  The
    tuple stands for its own canonical name. *)
Definition LogFilterId : Type :=
  (Z * option Hex * option Hex * option Hex * option Hex * option Hex)%type.

Definition logFilterId_eqb (a b : LogFilterId) : bool :=
  let '(c, a0, t0, t1, t2, t3) := a in
  let '(c', a0', t0', t1', t2', t3') := b in
  (c =? c') && opt_eqb a0 a0' && opt_eqb t0 t0' && opt_eqb t1 t1'
  && opt_eqb t2 t2' && opt_eqb t3 t3'.

(** [logFilters(id PK, chainId, address?, topic0?, topic1?, topic2?, topic3?)] *)
Record LogFilterFragment : Type := mkLogFilterFragment {
  lff_id : LogFilterId;
  lff_chainId : Z;
  lff_address : option Hex;
  lff_topic0 : option Hex;
  lff_topic1 : option Hex;
  lff_topic2 : option Hex;
  lff_topic3 : option Hex
}.

(** Modelled from the spec: the factory fragment [id], canonical in
    [(chainId, address, eventSelector, childAddressLocation,
    topic0..topic3)]. *)
Definition FactoryId : Type :=
  (Z * Hex * Hex * string * (option Hex * option Hex * option Hex * option Hex))%type.

Definition factoryId_eqb (a b : FactoryId) : bool :=
  let '(c, ad, ev, loc, (t0, t1, t2, t3)) := a in
  let '(c', ad', ev', loc', (t0', t1', t2', t3')) := b in
  (c =? c') && String.eqb ad ad' && String.eqb ev ev' && String.eqb loc loc'
  && opt_eqb t0 t0' && opt_eqb t1 t1' && opt_eqb t2 t2' && opt_eqb t3 t3'.

(** [factories(id PK, chainId, address, eventSelector, childAddressLocation,
    topic0..3?)] *)
Record FactoryFragment : Type := mkFactoryFragment {
  ff_id : FactoryId;
  ff_chainId : Z;
  ff_address : Hex;
  ff_eventSelector : Hex;
  ff_childAddressLocation : string;
  ff_topic0 : option Hex;
  ff_topic1 : option Hex;
  ff_topic2 : option Hex;
  ff_topic3 : option Hex
}.

(** The values a slot ranges over in the cartesian product: [null] is kept
    for an absent slot. *)
Definition slot_values (s : option OneOrMany) : list (option Hex) :=
  match s with
  | None => [None]
  | Some (One h) => [Some h]
  | Some (Many hs) => map Some hs
  end.

Definition fragment_of (chainId : Z) (a t0 t1 t2 t3 : option Hex)
  : LogFilterFragment :=
  mkLogFilterFragment (chainId, a, t0, t1, t2, t3) chainId a t0 t1 t2 t3.

(** Modelled from the spec: [buildLogFilterFragments] of
    [@/utils/fragments.js], which is not part of the sources at hand.  It
    "returns the cartesian product over the non-null slots, producing one
    fragment per combination with [null] preserved for absent slots". *)
Definition buildLogFilterFragments (c : LogFilterCriteria) (chainId : Z)
  : list LogFilterFragment :=
  flat_map (fun a =>
  flat_map (fun t0 =>
  flat_map (fun t1 =>
  flat_map (fun t2 =>
  map (fun t3 => fragment_of chainId a t0 t1 t2 t3)
      (slot_values (topic_slot (lfc_topics c) 3)))
      (slot_values (topic_slot (lfc_topics c) 2)))
      (slot_values (topic_slot (lfc_topics c) 1)))
      (slot_values (topic_slot (lfc_topics c) 0)))
      (slot_values (lfc_address c)).

Definition factory_fragment_of (chainId : Z) (c : FactoryCriteria)
  (t0 t1 t2 t3 : option Hex) : FactoryFragment :=
  mkFactoryFragment
    (chainId, fc_address c, fc_eventSelector c, fc_childAddressLocation c,
     (t0, t1, t2, t3))
    chainId (fc_address c) (fc_eventSelector c) (fc_childAddressLocation c)
    t0 t1 t2 t3.

(** Modelled from the spec: [buildFactoryFragments] of
    [@/utils/fragments.js], which is not part of the sources at hand.  "A
    factory criterion expands similarly but every fragment additionally
    carries [address, eventSelector, childAddressLocation] (always bound)." *)
Definition buildFactoryFragments (c : FactoryCriteria) (chainId : Z)
  : list FactoryFragment :=
  flat_map (fun t0 =>
  flat_map (fun t1 =>
  flat_map (fun t2 =>
  map (fun t3 => factory_fragment_of chainId c t0 t1 t2 t3)
      (slot_values (topic_slot (fc_topics c) 3)))
      (slot_values (topic_slot (fc_topics c) 2)))
      (slot_values (topic_slot (fc_topics c) 1)))
      (slot_values (topic_slot (fc_topics c) 0)).

(** ** Interval tables *)

(** [logFilterIntervals(id autoinc, logFilterId, startBlock, endBlock)]; the
    auto-increment [id] is never read and is not kept. *)
Record LogFilterInterval : Type := mkLogFilterInterval {
  lfi_logFilterId : LogFilterId;
  lfi_startBlock : Z;
  lfi_endBlock : Z
}.

(** [factoryLogFilterIntervals(id autoinc, factoryId, startBlock, endBlock)] *)
Record FactoryLogFilterInterval : Type := mkFactoryLogFilterInterval {
  fli_factoryId : FactoryId;
  fli_startBlock : Z;
  fli_endBlock : Z
}.

(** ** The database *)

Record Store : Type := mkStore {
  blocks : list Block;
  transactions : list Transaction;
  logs : list Log;
  logFilters : list LogFilterFragment;
  logFilterIntervals : list LogFilterInterval;
  factories : list FactoryFragment;
  factoryLogFilterIntervals : list FactoryLogFilterInterval;
  rpcRequestResults : list RpcRequestResult
}.

Definition empty : Store := mkStore [] [] [] [] [] [] [] [].

Definition with_blocks (s : Store) (v : list Block) : Store :=
  mkStore v (transactions s) (logs s) (logFilters s) (logFilterIntervals s)
          (factories s) (factoryLogFilterIntervals s) (rpcRequestResults s).

Definition with_transactions (s : Store) (v : list Transaction) : Store :=
  mkStore (blocks s) v (logs s) (logFilters s) (logFilterIntervals s)
          (factories s) (factoryLogFilterIntervals s) (rpcRequestResults s).

Definition with_logs (s : Store) (v : list Log) : Store :=
  mkStore (blocks s) (transactions s) v (logFilters s) (logFilterIntervals s)
          (factories s) (factoryLogFilterIntervals s) (rpcRequestResults s).

Definition with_logFilters (s : Store) (v : list LogFilterFragment) : Store :=
  mkStore (blocks s) (transactions s) (logs s) v (logFilterIntervals s)
          (factories s) (factoryLogFilterIntervals s) (rpcRequestResults s).

Definition with_logFilterIntervals (s : Store) (v : list LogFilterInterval)
  : Store :=
  mkStore (blocks s) (transactions s) (logs s) (logFilters s) v
          (factories s) (factoryLogFilterIntervals s) (rpcRequestResults s).

Definition with_factories (s : Store) (v : list FactoryFragment) : Store :=
  mkStore (blocks s) (transactions s) (logs s) (logFilters s)
          (logFilterIntervals s) v (factoryLogFilterIntervals s)
          (rpcRequestResults s).

Definition with_factoryLogFilterIntervals (s : Store)
  (v : list FactoryLogFilterInterval) : Store :=
  mkStore (blocks s) (transactions s) (logs s) (logFilters s)
          (logFilterIntervals s) (factories s) v (rpcRequestResults s).

Definition with_rpcRequestResults (s : Store) (v : list RpcRequestResult)
  : Store :=
  mkStore (blocks s) (transactions s) (logs s) (logFilters s)
          (logFilterIntervals s) (factories s) (factoryLogFilterIntervals s) v.

End Rows.

(* ================================================================== *)
(** * The sync store: writers, coverage queries, truncation *)
(* ================================================================== *)

Module SyncStore.
Import Rows.

(** ** Raw inserts, "ignore on key conflict" *)

(** [insertInto("blocks").values(b).onConflict(oc => oc.column("hash").doNothing())] *)
Definition insertBlock (b : Block) (tbl : list Block) : list Block :=
  if existsb (fun b' => String.eqb (block_hash b') (block_hash b)) tbl
  then tbl else tbl ++ [b].

Definition insertTransaction (t : Transaction) (tbl : list Transaction)
  : list Transaction :=
  if existsb (fun t' => String.eqb (tx_hash t') (tx_hash t)) tbl
  then tbl else tbl ++ [t].

Definition insertLog (l : Log) (tbl : list Log) : list Log :=
  if existsb (fun l' => String.eqb (log_id l') (log_id l)) tbl
  then tbl else tbl ++ [l].

(** The three raw inserts every block-carrying writer starts with: the block,
    then each transaction, then each log, all with [chainId] set. *)
Definition insertRawRows (s : Store) (chainId : Z) (rpcBlock : Block)
  (rpcTransactions : list Transaction) (rpcLogs : list Log) : Store :=
  let s1 := with_blocks s (insertBlock (block_on chainId rpcBlock) (blocks s)) in
  let s2 := with_transactions s1
              (fold_left (fun tbl t => insertTransaction (tx_on chainId t) tbl)
                         rpcTransactions (transactions s1)) in
  with_logs s2
    (fold_left (fun tbl l => insertLog (log_on chainId l) tbl)
               rpcLogs (logs s2)).

(** ** Fragment rows *)

(** [insertInto("logFilters").values(f).onConflict(oc => oc.doUpdateSet(f))]:
    a row with the same [id] takes the columns of [f], otherwise [f] is
    added.  The returned row has [id = lff_id f]. *)
Definition upsertLogFilter (f : LogFilterFragment)
  (tbl : list LogFilterFragment) : list LogFilterFragment :=
  if existsb (fun r => logFilterId_eqb (lff_id r) (lff_id f)) tbl
  then map (fun r => if logFilterId_eqb (lff_id r) (lff_id f) then f else r) tbl
  else tbl ++ [f].

Definition upsertFactory (f : FactoryFragment) (tbl : list FactoryFragment)
  : list FactoryFragment :=
  if existsb (fun r => factoryId_eqb (ff_id r) (ff_id f)) tbl
  then map (fun r => if factoryId_eqb (ff_id r) (ff_id f) then f else r) tbl
  else tbl ++ [f].

(** ** Recording an interval *)

(** One fragment of [_insertLogFilterInterval]: upsert the fragment row, then
    insert one interval row under its [id]. *)
Definition recordLogFilterFragment (interval : Interval.t) (s : Store)
  (logFilterFragment : LogFilterFragment) : Store :=
  let s1 := with_logFilters s (upsertLogFilter logFilterFragment (logFilters s)) in
  with_logFilterIntervals s1
    (logFilterIntervals s1 ++
     [mkLogFilterInterval (lff_id logFilterFragment) (fst interval) (snd interval)]).

(** [_insertLogFilterInterval]: the fragments of all the filters, each
    recorded in turn.  The source starts them together under [Promise.all] on
    the one transaction; the upserts touch [logFilters] and the inserts
    [logFilterIntervals], each table in fragment order, so the tables end as
    they do here. *)
Definition _insertLogFilterInterval (s : Store) (chainId : Z)
  (logFilters : list LogFilterCriteria) (interval : Interval.t) : Store :=
  let logFilterFragments :=
    flat_map (fun logFilter => buildLogFilterFragments logFilter chainId)
             logFilters in
  fold_left (recordLogFilterFragment interval) logFilterFragments s.

Definition recordFactoryFragment (interval : Interval.t) (s : Store)
  (fragment : FactoryFragment) : Store :=
  let s1 := with_factories s (upsertFactory fragment (factories s)) in
  with_factoryLogFilterIntervals s1
    (factoryLogFilterIntervals s1 ++
     [mkFactoryLogFilterInterval (ff_id fragment) (fst interval) (snd interval)]).

Definition _insertFactoryLogFilterInterval (s : Store) (chainId : Z)
  (factories : list FactoryCriteria) (interval : Interval.t) : Store :=
  let factoryFragments :=
    flat_map (fun factory => buildFactoryFragments factory chainId) factories in
  fold_left (recordFactoryFragment interval) factoryFragments s.

(** ** Ingestion entry points *)

Definition insertLogFilterInterval (s : Store) (chainId : Z)
  (logFilter : LogFilterCriteria) (rpcBlock : Block)
  (rpcTransactions : list Transaction) (rpcLogs : list Log)
  (interval : Interval.t) : Store :=
  _insertLogFilterInterval
    (insertRawRows s chainId rpcBlock rpcTransactions rpcLogs)
    chainId [logFilter] interval.

Definition insertFactoryChildAddressLogs (s : Store) (chainId : Z)
  (rpcLogs : list Log) : Store :=
  with_logs s
    (fold_left (fun tbl l => insertLog (log_on chainId l) tbl) rpcLogs (logs s)).

Definition insertFactoryLogFilterInterval (s : Store) (chainId : Z)
  (factory : FactoryCriteria) (rpcBlock : Block)
  (rpcTransactions : list Transaction) (rpcLogs : list Log)
  (interval : Interval.t) : Store :=
  _insertFactoryLogFilterInterval
    (insertRawRows s chainId rpcBlock rpcTransactions rpcLogs)
    chainId [factory] interval.

Definition insertRealtimeBlock (s : Store) (chainId : Z) (rpcBlock : Block)
  (rpcTransactions : list Transaction) (rpcLogs : list Log) : Store :=
  insertRawRows s chainId rpcBlock rpcTransactions rpcLogs.

(** Factories are also recorded as the log filter
    [{ address: f.address, topics: [f.eventSelector] }]. *)
Definition insertRealtimeInterval (s : Store) (chainId : Z)
  (logFilters : list LogFilterCriteria) (factories : list FactoryCriteria)
  (interval : Interval.t) : Store :=
  let s1 :=
    _insertLogFilterInterval s chainId
      (logFilters ++
       map (fun f => mkLogFilterCriteria (Some (One (fc_address f)))
                       (Some [Some (One (fc_eventSelector f))]))
           factories)
      interval in
  _insertFactoryLogFilterInterval s1 chainId factories interval.

(** ** Coverage queries *)

Definition interval_of_row (i : LogFilterInterval) : Interval.t :=
  (lfi_startBlock i, lfi_endBlock i).

(** The per-fragment transaction that opens [getLogFilterIntervals]: upsert
    the fragment, delete its interval rows (returning them), merge them with
    [intervalUnion] and insert the merged rows. *)
Definition mergeLogFilterFragment (s : Store) (fragment : LogFilterFragment)
  : Store :=
  let s1 := with_logFilters s (upsertLogFilter fragment (logFilters s)) in
  let logFilterId := lff_id fragment in
  let existingIntervalRows :=
    filter (fun i => logFilterId_eqb (lfi_logFilterId i) logFilterId)
           (logFilterIntervals s1) in
  let kept :=
    filter (fun i => negb (logFilterId_eqb (lfi_logFilterId i) logFilterId))
           (logFilterIntervals s1) in
  let mergedIntervals :=
    Interval.intervalUnion (map interval_of_row existingIntervalRows) in
  let mergedIntervalRows :=
    map (fun i => mkLogFilterInterval logFilterId (fst i) (snd i))
        mergedIntervals in
  with_logFilterIntervals s1 (kept ++ mergedIntervalRows).

(** The join condition between a stored filter row and a fragment of the
    query: every bound column of the stored row equals the fragment's. *)
Definition column_matches (stored fragmentCol : option Hex) : bool :=
  match stored with
  | None => true
  | Some v => match fragmentCol with
              | Some w => String.eqb w v
              | None => false
              end
  end.

Definition logFilterJoin (r : LogFilterFragment) (f : LogFilterFragment) : bool :=
  column_matches (lff_address r) (lff_address f)
  && column_matches (lff_topic0 r) (lff_topic0 f)
  && column_matches (lff_topic1 r) (lff_topic1 f)
  && column_matches (lff_topic2 r) (lff_topic2 f)
  && column_matches (lff_topic3 r) (lff_topic3 f).

(** [select fragmentId, startBlock, endBlock from logFilterIntervals
     left join logFilters on logFilterId = logFilters.id
     inner join logFilterFragments on … where chainId = ?].
    An interval row without a filter row is extended with nulls by the left
    join and then fails [chainId = ?]; it selects nothing. *)
Definition selectLogFilterIntervals (s : Store) (chainId : Z)
  (fragments : list LogFilterFragment) : list (LogFilterId * Interval.t) :=
  flat_map (fun i =>
    flat_map (fun r =>
      flat_map (fun f =>
        if logFilterJoin r f && (lff_chainId r =? chainId)
        then [(lff_id f, interval_of_row i)] else [])
        fragments)
      (filter (fun r => logFilterId_eqb (lff_id r) (lfi_logFilterId i))
              (logFilters s)))
    (logFilterIntervals s).

(** [intervalsByFragment[f.id] ?? []] for each fragment. *)
Definition logFilterFragmentIntervals (s : Store) (chainId : Z)
  (fragments : list LogFilterFragment) : list (list Interval.t) :=
  let intervals := selectLogFilterIntervals s chainId fragments in
  map (fun f =>
         map snd (filter (fun p => logFilterId_eqb (fst p) (lff_id f)) intervals))
      fragments.

(** [getLogFilterIntervals]: the merge transactions, one per fragment, then
    the select.  The select lists the fragments in a [values] clause; with no
    fragment the clause is empty, the statement is rejected and the call
    throws ([None]), the merge phase having had nothing to do. *)
Definition getLogFilterIntervals (s : Store) (chainId : Z)
  (logFilter : LogFilterCriteria) : Store * option (list Interval.t) :=
  let fragments := buildLogFilterFragments logFilter chainId in
  let s1 := fold_left mergeLogFilterFragment fragments s in
  (s1, match fragments with
       | [] => None
       | _ => Some (Interval.intervalIntersectionMany
                      (logFilterFragmentIntervals s1 chainId fragments))
       end).

(** The same for factories. *)

Definition interval_of_factory_row (i : FactoryLogFilterInterval) : Interval.t :=
  (fli_startBlock i, fli_endBlock i).

Definition mergeFactoryFragment (s : Store) (fragment : FactoryFragment)
  : Store :=
  let s1 := with_factories s (upsertFactory fragment (factories s)) in
  let factoryId := ff_id fragment in
  let existingIntervals :=
    filter (fun i => factoryId_eqb (fli_factoryId i) factoryId)
           (factoryLogFilterIntervals s1) in
  let kept :=
    filter (fun i => negb (factoryId_eqb (fli_factoryId i) factoryId))
           (factoryLogFilterIntervals s1) in
  let mergedIntervals :=
    Interval.intervalUnion (map interval_of_factory_row existingIntervals) in
  let mergedIntervalRows :=
    map (fun i => mkFactoryLogFilterInterval factoryId (fst i) (snd i))
        mergedIntervals in
  with_factoryLogFilterIntervals s1 (kept ++ mergedIntervalRows).

Definition factoryJoin (r : FactoryFragment) (f : FactoryFragment) : bool :=
  String.eqb (ff_address f) (ff_address r)
  && String.eqb (ff_eventSelector f) (ff_eventSelector r)
  && String.eqb (ff_childAddressLocation f) (ff_childAddressLocation r)
  && column_matches (ff_topic0 r) (ff_topic0 f)
  && column_matches (ff_topic1 r) (ff_topic1 f)
  && column_matches (ff_topic2 r) (ff_topic2 f)
  && column_matches (ff_topic3 r) (ff_topic3 f).

Definition selectFactoryIntervals (s : Store) (chainId : Z)
  (fragments : list FactoryFragment) : list (FactoryId * Interval.t) :=
  flat_map (fun i =>
    flat_map (fun r =>
      flat_map (fun f =>
        if factoryJoin r f && (ff_chainId r =? chainId)
        then [(ff_id f, interval_of_factory_row i)] else [])
        fragments)
      (filter (fun r => factoryId_eqb (ff_id r) (fli_factoryId i))
              (factories s)))
    (factoryLogFilterIntervals s).

Definition factoryFragmentIntervals (s : Store) (chainId : Z)
  (fragments : list FactoryFragment) : list (list Interval.t) :=
  let intervals := selectFactoryIntervals s chainId fragments in
  map (fun f =>
         map snd (filter (fun p => factoryId_eqb (fst p) (ff_id f)) intervals))
      fragments.

Definition getFactoryLogFilterIntervals (s : Store) (chainId : Z)
  (factory : FactoryCriteria) : Store * option (list Interval.t) :=
  let fragments := buildFactoryFragments factory chainId in
  let s1 := fold_left mergeFactoryFragment fragments s in
  (s1, match fragments with
       | [] => None
       | _ => Some (Interval.intervalIntersectionMany
                      (factoryFragmentIntervals s1 chainId fragments))
       end).

(** ** Reorg truncation *)

(** [(select logFilters.chainId from logFilters
      where logFilters.id = logFilterIntervals.logFilterId limit 1) = chainId] *)
Definition logFilterInterval_on (s : Store) (chainId : Z)
  (i : LogFilterInterval) : bool :=
  match find (fun r => logFilterId_eqb (lff_id r) (lfi_logFilterId i))
             (logFilters s) with
  | Some r => lff_chainId r =? chainId
  | None => false
  end.

Definition factoryInterval_on (s : Store) (chainId : Z)
  (i : FactoryLogFilterInterval) : bool :=
  match find (fun r => factoryId_eqb (ff_id r) (fli_factoryId i))
             (factories s) with
  | Some r => ff_chainId r =? chainId
  | None => false
  end.

Definition deleteRealtimeData (s : Store) (chainId : Z) (fromBlock : Z)
  : Store :=
  let blocks' :=
    filter (fun b => negb ((block_chainId b =? chainId)
                           && (fromBlock <? block_number b))) (blocks s) in
  let transactions' :=
    filter (fun t => negb ((tx_chainId t =? chainId)
                           && (fromBlock <? tx_blockNumber t)))
           (transactions s) in
  let logs' :=
    filter (fun l => negb ((log_chainId l =? chainId)
                           && (fromBlock <? log_blockNumber l))) (logs s) in
  let rpc' :=
    filter (fun r => negb ((rpc_chainId r =? chainId)
                           && (fromBlock <? rpc_blockNumber r)))
           (rpcRequestResults s) in
  (* Delete all intervals with a startBlock greater than fromBlock. *)
  let lfi1 :=
    filter (fun i => negb (logFilterInterval_on s chainId i
                           && (fromBlock <? lfi_startBlock i)))
           (logFilterIntervals s) in
  (* Then, if any intervals have an endBlock greater than fromBlock,
     update their endBlock to equal fromBlock. *)
  let lfi2 :=
    map (fun i => if logFilterInterval_on s chainId i
                     && (fromBlock <? lfi_endBlock i)
                  then mkLogFilterInterval (lfi_logFilterId i)
                                           (lfi_startBlock i) fromBlock
                  else i) lfi1 in
  let fli1 :=
    filter (fun i => negb (factoryInterval_on s chainId i
                           && (fromBlock <? fli_startBlock i)))
           (factoryLogFilterIntervals s) in
  let fli2 :=
    map (fun i => if factoryInterval_on s chainId i
                     && (fromBlock <? fli_endBlock i)
                  then mkFactoryLogFilterInterval (fli_factoryId i)
                                                  (fli_startBlock i) fromBlock
                  else i) fli1 in
  mkStore blocks' transactions' logs' (logFilters s) lfi2
          (factories s) fli2 rpc'.

(** ** Contract reads *)

Definition rpc_same_key (a b : RpcRequestResult) : bool :=
  String.eqb (rpc_request a) (rpc_request b)
  && (rpc_blockNumber a =? rpc_blockNumber b)
  && (rpc_chainId a =? rpc_chainId b).

Definition insertRpcRequestResult (s : Store) (blockNumber chainId : Z)
  (request result : string) : Store :=
  let row := mkRpcRequestResult request blockNumber chainId result in
  with_rpcRequestResults s
    (if existsb (rpc_same_key row) (rpcRequestResults s)
     then map (fun r => if rpc_same_key row r
                        then mkRpcRequestResult (rpc_request r)
                               (rpc_blockNumber r) (rpc_chainId r) result
                        else r) (rpcRequestResults s)
     else rpcRequestResults s ++ [row]).

Definition getRpcRequestResult (s : Store) (blockNumber chainId : Z)
  (request : string) : option RpcRequestResult :=
  find (fun r => (rpc_blockNumber r =? blockNumber)
                 && (rpc_chainId r =? chainId)
                 && String.eqb (rpc_request r) request)
       (rpcRequestResults s).

End SyncStore.

(* ================================================================== *)
(** * Factory child addresses *)
(* ================================================================== *)

Module ChildAddress.
Import Rows.

Open Scope nat_scope.

(** SQL [substring(X, start, length)] for [start >= 1]: [length] characters
    from the [start]-th one (counting from 1), fewer if [X] ends before. *)
Definition sql_substring (x : string) (start length : nat) : string :=
  String.substring (start - 1) length x.

(** [Number(text)] on the texts of the type [`offset${number}`]: a run of
    decimal digits (the empty text is [0]); anything else is [NaN], here
    [None]. *)
Definition Number (text : string) : option nat :=
  option_map Nat.of_uint (NilEmpty.uint_of_string text).

(** [childAddressLocation.startsWith("offset")] *)
Definition startsWith_offset (childAddressLocation : string) : bool :=
  String.prefix "offset" childAddressLocation.

(** [childAddressLocation.substring(6)] *)
Definition substring_from (n : nat) (s : string) : string :=
  String.substring n (String.length s - n) s.

(** [sql.ref(childAddressLocation)] on the [logs] table, for the column names
    the type of [childAddressLocation] allows. *)
Definition column_ref (name : string) (l : Log) : option Hex :=
  if String.eqb name "topic1" then log_topic1 l
  else if String.eqb name "topic2" then log_topic2 l
  else if String.eqb name "topic3" then log_topic3 l
  else None.

(** [buildFactoryChildAddressSelectExpression]: the SQL expression, as the
    function of a [logs] row it denotes ([None] is SQL [NULL]). *)
Definition buildFactoryChildAddressSelectExpression
  (childAddressLocation : string) (l : Log) : option Hex :=
  if startsWith_offset childAddressLocation then
    match Number (substring_from 6 childAddressLocation) with
    | Some childAddressOffset =>
        let start := 2 + 12 * 2 + childAddressOffset * 2 + 1 in
        let length := 20 * 2 in
        Some ("0x" ++ sql_substring (log_data l) start length)%string
    | None => None
    end
  else
    let start := 2 + 12 * 2 + 1 in
    let length := 20 * 2 in
    match column_ref childAddressLocation l with
    | Some topic => Some ("0x" ++ sql_substring topic start length)%string
    | None => None
    end.

Close Scope nat_scope.

(** The rows [baseQuery] ranges over, in the order of the table scan (the
    query has no [ORDER BY]). *)
Definition childAddressRows (s : Store) (chainId upToBlockNumber : Z)
  (factory : FactoryCriteria) : list Log :=
  filter (fun l =>
            (log_chainId l =? chainId)
            && String.eqb (log_address l) (fc_address factory)
            && opt_eqb (log_topic0 l) (Some (fc_eventSelector factory))
            && (log_blockNumber l <=? upToBlockNumber))
         (logs s).

(** One execution of [query]: the cursor clause when there is a cursor, then
    [limit pageSize]. *)
Definition childAddressBatch (s : Store) (chainId upToBlockNumber : Z)
  (factory : FactoryCriteria) (pageSize : nat) (cursor : option Z) : list Log :=
  firstn pageSize
    (filter (fun l => match cursor with
                      | Some c => c <? log_blockNumber l
                      | None => true
                      end)
            (childAddressRows s chainId upToBlockNumber factory)).

(** The [while (true)] loop of the generator; [fuel] bounds the number of
    queries, [None] is "still running". The yielded pages are collected in
    order. *)
Fixpoint childAddressLoop (fuel : nat) (s : Store) (chainId upToBlockNumber : Z)
  (factory : FactoryCriteria) (pageSize : nat) (cursor : option Z)
  : option (list (list (option Hex))) :=
  match fuel with
  | O => None
  | S fuel' =>
      let batch :=
        childAddressBatch s chainId upToBlockNumber factory pageSize cursor in
      let cursor' := match last (map Some batch) None with
                     | Some lastRow => Some (log_blockNumber lastRow)
                     | None => cursor
                     end in
      let yielded :=
        if (0 <? List.length batch)%nat
        then [map (buildFactoryChildAddressSelectExpression
                     (fc_childAddressLocation factory)) batch]
        else [] in
      if (List.length batch <? pageSize)%nat then Some yielded
      else option_map (app yielded)
             (childAddressLoop fuel' s chainId upToBlockNumber factory
                               pageSize cursor')
  end.

Definition getFactoryChildAddresses (fuel : nat) (s : Store)
  (chainId upToBlockNumber : Z) (factory : FactoryCriteria) (pageSize : nat)
  : option (list (list (option Hex))) :=
  childAddressLoop fuel s chainId upToBlockNumber factory pageSize None.

End ChildAddress.

(* ================================================================== *)
(** * The event iterator *)
(* ================================================================== *)

Module Events.
Import Rows.

(** A row of [logs left join blocks left join transactions inner join
    eventSources]. *)
Record Row : Type := mkRow {
  eventSource_name : string;
  row_log : Log;
  row_block : option Block;
  row_tx : option Transaction
}.

(** A log filter or factory of the request. *)
Record LogFilterSource : Type := mkLogFilterSource {
  lf_name : string;
  lf_chainId : Z;
  lf_criteria : LogFilterCriteria;
  lf_fromBlock : option Z;
  lf_toBlock : option Z;
  lf_includeEventSelectors : option (list Hex)
}.

Record FactorySource : Type := mkFactorySource {
  fs_name : string;
  fs_chainId : Z;
  fs_criteria : FactoryCriteria;
  fs_fromBlock : option Z;
  fs_toBlock : option Z;
  fs_includeEventSelectors : option (list Hex)
}.

Record Request : Type := mkRequest {
  fromTimestamp : Z;
  toTimestamp : Z;
  req_logFilters : list LogFilterSource;
  req_factories : list FactorySource;
  pageSize : nat
}.

(** A comparison of the [where] builder, as the test it makes on a row; a
    comparison with [NULL] is not true. *)
Definition Cmpr : Type := Row -> bool.

Definition and_ (cmprs : list Cmpr) : Cmpr := fun r => forallb (fun c => c r) cmprs.
Definition or_ (cmprs : list Cmpr) : Cmpr := fun r => existsb (fun c => c r) cmprs.

Definition block_cmp (f : Block -> bool) : Cmpr :=
  fun r => match row_block r with Some b => f b | None => false end.

Definition topic_of (idx : nat) (l : Log) : option Hex :=
  match idx with
  | O => log_topic0 l
  | 1%nat => log_topic1 l
  | 2%nat => log_topic2 l
  | _ => log_topic3 l
  end.

Definition topic_eq (idx : nat) (a : Hex) : Cmpr :=
  fun r => opt_eqb (topic_of idx (row_log r)) (Some a).

Definition address_eq (a : Hex) : Cmpr :=
  fun r => String.eqb (log_address (row_log r)) a.

(** JavaScript truthiness of an optional number and of a text. *)
Definition truthy (v : option Z) : bool :=
  match v with Some n => negb (n =? 0) | None => false end.

Definition truthy_text (s : string) : bool :=
  negb (String.eqb s "").

(** The clause for one slot: an array of length 1 is collapsed to its value,
    any other array is the [or] of the equalities. *)
Definition slot_cmprs (eq : Hex -> Cmpr) (slot : OneOrMany) : list Cmpr :=
  match slot with
  | One a => [eq a]
  | Many [a] => [eq a]
  | Many hs => [or_ (map eq hs)]
  end.

Definition address_cmprs (address : option OneOrMany) : list Cmpr :=
  match address with
  | None => []
  | Some (One a) => if truthy_text a then slot_cmprs address_eq (One a) else []
  | Some slot => slot_cmprs address_eq slot
  end.

Definition topics_cmprs (topics : option Topics) : list Cmpr :=
  match topics with
  | None => []
  | Some _ =>
      flat_map (fun idx => match topic_slot topics idx with
                           | None => []
                           | Some raw => slot_cmprs (topic_eq idx) raw
                           end)
               [0; 1; 2; 3]%nat
  end.

Definition block_bounds (fromBlock toBlock : option Z) : list Cmpr :=
  (if truthy fromBlock
   then [block_cmp (fun b => match fromBlock with
                             | Some v => v <=? block_number b
                             | None => false end)]
   else [])
  ++
  (if truthy toBlock
   then [block_cmp (fun b => match toBlock with
                             | Some v => block_number b <=? v
                             | None => false end)]
   else []).

Definition buildLogFilterCmprs (logFilter : LogFilterSource) : list Cmpr :=
  [ (fun r => String.eqb (eventSource_name r) (lf_name logFilter));
    (fun r => log_chainId (row_log r) =? lf_chainId logFilter) ]
  ++ address_cmprs (lfc_address (lf_criteria logFilter))
  ++ topics_cmprs (lfc_topics (lf_criteria logFilter))
  ++ block_bounds (lf_fromBlock logFilter) (lf_toBlock logFilter).

(** [logs.address in (select childAddress from logs where chainId = ? and
    address = ? and topic0 = ?)] *)
Definition childAddress_in (s : Store) (factory : FactorySource) : Cmpr :=
  fun r =>
    existsb (fun l =>
               (log_chainId l =? fs_chainId factory)
               && String.eqb (log_address l) (fc_address (fs_criteria factory))
               && opt_eqb (log_topic0 l)
                          (Some (fc_eventSelector (fs_criteria factory)))
               && opt_eqb (ChildAddress.buildFactoryChildAddressSelectExpression
                             (fc_childAddressLocation (fs_criteria factory)) l)
                          (Some (log_address (row_log r))))
            (logs s).

Definition buildFactoryCmprs (s : Store) (factory : FactorySource) : list Cmpr :=
  [ (fun r => String.eqb (eventSource_name r) (fs_name factory));
    (fun r => log_chainId (row_log r) =? fs_chainId factory);
    childAddress_in s factory ]
  ++ block_bounds (fs_fromBlock factory) (fs_toBlock factory).

Definition includeEventSelectors_cmprs (sel : option (list Hex)) : list Cmpr :=
  match sel with
  | Some ts => [or_ (map (topic_eq 0) ts)]
  | None => []
  end.

(** The [where] of [includedLogsBaseQuery]. *)
Definition includedWhere (s : Store) (q : Request) : Cmpr :=
  or_ (map (fun logFilter =>
              and_ (buildLogFilterCmprs logFilter
                    ++ includeEventSelectors_cmprs
                         (lf_includeEventSelectors logFilter)))
           (req_logFilters q)
       ++
       map (fun factory =>
              and_ (buildFactoryCmprs s factory
                    ++ includeEventSelectors_cmprs
                         (fs_includeEventSelectors factory)))
           (req_factories q)).

(** The [where] of [eventCountsQuery]: the same without the
    [includeEventSelectors] clause. *)
Definition countsWhere (s : Store) (q : Request) : Cmpr :=
  or_ (map (fun logFilter => and_ (buildLogFilterCmprs logFilter))
           (req_logFilters q)
       ++
       map (fun factory => and_ (buildFactoryCmprs s factory))
           (req_factories q)).

(** ** [baseQuery] *)

Definition eventSourceNames (q : Request) : list string :=
  map lf_name (req_logFilters q) ++ map fs_name (req_factories q).

(** The right side of a left join on a key: the matching rows, or one null
    row when there is none. *)
Definition left_join {A : Type} (matching : list A) : list (option A) :=
  match matching with
  | [] => [None]
  | _ => map Some matching
  end.

Definition joinedRows (s : Store) (q : Request) : list Row :=
  flat_map (fun l =>
    flat_map (fun b =>
      flat_map (fun t =>
        map (fun name => mkRow name l b t) (eventSourceNames q))
        (left_join (filter (fun t => String.eqb (tx_hash t) (log_transactionHash l))
                           (transactions s))))
      (left_join (filter (fun b => String.eqb (block_hash b) (log_blockHash l))
                         (blocks s))))
    (logs s).

(** [where blocks.timestamp >= fromTimestamp and blocks.timestamp <= toTimestamp] *)
Definition timestampWhere (q : Request) : Cmpr :=
  and_ [ block_cmp (fun b => fromTimestamp q <=? block_timestamp b);
         block_cmp (fun b => block_timestamp b <=? toTimestamp q) ].

(** ** Ordering and the cursor *)

(** [(blocks.timestamp, logs.chainId, blocks.number, logs.logIndex)] *)
Record Cursor : Type := mkCursor {
  cur_timestamp : Z;
  cur_chainId : Z;
  cur_blockNumber : Z;
  cur_logIndex : Z
}.

(** The ordering columns of a row.  A row without a block has [NULL] in two
    of them, which SQLite orders before every value; such a row never passes
    [timestampWhere]. *)
Definition row_key (r : Row) : Cursor :=
  mkCursor (match row_block r with Some b => block_timestamp b | None => -1 end)
           (log_chainId (row_log r))
           (match row_block r with Some b => block_number b | None => -1 end)
           (log_logIndex (row_log r)).

(** Ascending lexicographic comparison of the four ordering columns. *)
Definition key_ltb (a b : Cursor) : bool :=
  (cur_timestamp a <? cur_timestamp b)
  || ((cur_timestamp a =? cur_timestamp b)
      && ((cur_chainId a <? cur_chainId b)
          || ((cur_chainId a =? cur_chainId b)
              && ((cur_blockNumber a <? cur_blockNumber b)
                  || ((cur_blockNumber a =? cur_blockNumber b)
                      && (cur_logIndex a <? cur_logIndex b)))))).

Definition key_lt (a b : Cursor) : Prop := key_ltb a b = true.

(** [orderBy(timestamp).orderBy(chainId).orderBy(number).orderBy(logIndex)],
    as an insertion sort: a row goes after the rows that order strictly
    before it. *)
Fixpoint insertRow (r : Row) (l : list Row) : list Row :=
  match l with
  | [] => [r]
  | r' :: l' => if key_ltb (row_key r') (row_key r) then r' :: insertRow r l'
                else r :: r' :: l'
  end.

Fixpoint orderBy (l : list Row) : list Row :=
  match l with
  | [] => []
  | r :: l' => insertRow r (orderBy l')
  end.

(** The cursor clause, the nested [and]/[or] chain of the source. *)
Definition cursorWhere (cursor : Cursor) : Cmpr :=
  let timestamp := cur_timestamp cursor in
  let chainId := cur_chainId cursor in
  let blockNumber := cur_blockNumber cursor in
  let logIndex := cur_logIndex cursor in
  and_ [
    block_cmp (fun b => timestamp <=? block_timestamp b);
    or_ [
      block_cmp (fun b => timestamp <? block_timestamp b);
      and_ [
        (fun r => chainId <=? log_chainId (row_log r));
        or_ [
          (fun r => chainId <? log_chainId (row_log r));
          and_ [
            block_cmp (fun b => blockNumber <=? block_number b);
            or_ [
              block_cmp (fun b => blockNumber <? block_number b);
              (fun r => logIndex <? log_logIndex (row_log r))
            ]
          ]
        ]
      ]
    ]
  ].

(** ** Counts *)

Definition CountKey : Type := (string * option Hex)%type.

Definition countKey_eqb (a b : CountKey) : bool :=
  String.eqb (fst a) (fst b) && opt_eqb (snd a) (snd b).

Record EventCount : Type := mkEventCount {
  ec_eventSourceName : string;
  ec_selector : option Hex;
  ec_count : nat
}.

Fixpoint distinct (l : list CountKey) : list CountKey :=
  match l with
  | [] => []
  | k :: l' => k :: filter (fun k' => negb (countKey_eqb k' k)) (distinct l')
  end.

(** [select eventSource_name, logs.topic0, count(logs.id) … group by
    eventSource_name, logs.topic0]: one row for each group. *)
Definition groupCount (keys : list CountKey) : list EventCount :=
  map (fun k => mkEventCount (fst k) (snd k)
                  (List.length (filter (countKey_eqb k) keys)))
      (distinct keys).

Definition countKey_of (r : Row) : CountKey :=
  (eventSource_name r, log_topic0 (row_log r)).

Definition eventCounts (s : Store) (q : Request) : list EventCount :=
  groupCount
    (map countKey_of
         (orderBy (filter (fun r => timestampWhere q r && countsWhere s q r)
                          (joinedRows s q)))).

(** ** Pages *)

Record Metadata : Type := mkMetadata {
  pageEndsAtTimestamp : Z;
  counts : list EventCount
}.

(** A yielded page.  The event built from a row renames its columns into
    [{ eventSourceName, log, block, transaction, chainId }]; the row stands
    for it. *)
Record Page : Type := mkPage {
  events : list Row;
  metadata : Metadata
}.

(** One execution of [query]: [includedLogsBaseQuery.limit(pageSize)] with
    the cursor clause when there is a cursor. *)
Definition requestedLogs (s : Store) (q : Request) (cursor : option Cursor)
  : list Row :=
  firstn (pageSize q)
    (orderBy
       (filter (fun r => timestampWhere q r && includedWhere s q r
                         && match cursor with
                            | Some c => cursorWhere c r
                            | None => true
                            end)
               (joinedRows s q))).

Definition lastRow (rows : list Row) : option Row := last (map Some rows) None.

(** Building the event of a row reads the block and transaction columns
    with [decodeToBigInt]; the row is cast to [NonNull] without a check, so
    on a row whose left-joined block or transaction is missing the decode
    gets [null] and throws.  The fee columns of a stored transaction are
    taken to be there for its type. *)
Definition decodes (r : Row) : bool :=
  match row_block r, row_tx r with
  | Some _, Some _ => true
  | _, _ => false
  end.

(** What a run of the generator comes to: the pages it yielded before it
    returned, the pages it yielded before an exception, or still running when
    the fuel is spent. *)
Inductive Outcome : Type :=
| Pages (pages : list Page)
| Throws (yielded : list Page)
| Running.

(** A page yielded before the rest of the run. *)
Definition yield (page : Page) (rest : Outcome) : Outcome :=
  match rest with
  | Pages pages => Pages (page :: pages)
  | Throws yielded => Throws (page :: yielded)
  | Running => Running
  end.

(** The [while (true)] loop of the generator; [fuel] bounds the number of
    queries.  The events of a page are built before the page is yielded. *)
Fixpoint pagesLoop (fuel : nat) (s : Store) (q : Request)
  (eventCounts : list EventCount) (cursor : option Cursor) : Outcome :=
  match fuel with
  | O => Running
  | S fuel' =>
      let rows := requestedLogs s q cursor in
      if forallb decodes rows then
        let cursor' := match lastRow rows with
                       | Some r => Some (row_key r)
                       | None => cursor
                       end in
        let pageEndsAtTimestamp :=
          match lastRow rows with
          | Some r => match row_block r with
                      | Some b => block_timestamp b
                      | None => toTimestamp q
                      end
          | None => toTimestamp q
          end in
        let page := mkPage rows (mkMetadata pageEndsAtTimestamp eventCounts) in
        if (List.length rows <? pageSize q)%nat then Pages [page]
        else yield page (pagesLoop fuel' s q eventCounts cursor')
      else Throws []
  end.

(** [getLogEvents]: the counts are fetched once, then the pages.  Every
    query starts from [baseQuery], whose [eventSources] is a [values] clause
    of the names; with no log filter and no factory the clause is empty, the
    statement is rejected and the counts query throws. *)
Definition getLogEvents (fuel : nat) (s : Store) (q : Request) : Outcome :=
  match eventSourceNames q with
  | [] => Throws []
  | _ => pagesLoop fuel s q (eventCounts s q) None
  end.

End Events.

(* ================================================================== *)
(** * The properties stated of the store *)
(* ================================================================== *)

Module Properties.
Import Rows.

(** ** Child addresses *)

(** The [count] bytes of a ["0x…"] hex text that start at byte [from], as
    hex digits (two per byte, after the two characters of the prefix). *)
Definition data_bytes (data : Hex) (from count : nat) : string :=
  String.substring (2 + 2 * from) (2 * count) data.

(** The location ["offset<K>"]. *)
Definition offsetLocation (K : nat) : string :=
  ("offset" ++ NilEmpty.string_of_uint (Nat.to_uint K))%string.

(** ** Interval rows *)

(** The intervals stored under one fragment id. *)
Definition rows_of (id : LogFilterId) (s : Store) : list Interval.t :=
  map SyncStore.interval_of_row
      (filter (fun i => logFilterId_eqb (lfi_logFilterId i) id)
              (logFilterIntervals s)).

Definition factory_rows_of (id : FactoryId) (s : Store) : list Interval.t :=
  map SyncStore.interval_of_factory_row
      (filter (fun i => factoryId_eqb (fli_factoryId i) id)
              (factoryLogFilterIntervals s)).

(** Two intervals neither overlap nor touch. *)
Definition separate (a b : Interval.t) : Prop :=
  snd a + 1 < fst b \/ snd b + 1 < fst a.

(** No two intervals of the list overlap or touch. *)
Definition disjoint_merged (l : list Interval.t) : Prop :=
  ForallOrdPairs separate l.

(** ** Coverage of a fragment *)

(** The store once the fragments of a query have their rows in
    [logFilters]. *)
Definition withFragments (s : Store) (fragments : list LogFilterFragment)
  : Store :=
  with_logFilters s
    (fold_left (fun tbl f => SyncStore.upsertLogFilter f tbl) fragments
               (logFilters s)).

(** Block [n] is inside an interval row of a stored filter row of the chain
    whose bound columns all agree with the fragment (the fragment itself or
    a broader one). *)
Definition fragmentCoverage (s : Store) (chainId : Z)
  (f : LogFilterFragment) (n : Z) : Prop :=
  exists i r,
    In i (logFilterIntervals s) /\ In r (logFilters s)
    /\ lff_id r = lfi_logFilterId i
    /\ SyncStore.logFilterJoin r f = true
    /\ lff_chainId r = chainId
    /\ Interval.inside n (SyncStore.interval_of_row i).

(** The interval lists the coverage query selects for the fragments of a
    filter are each already unioned: ascending, and no two intervals of a
    list overlap or touch. *)
Definition selectedUnioned (s : Store) (chainId : Z)
  (logFilter : LogFilterCriteria) : Prop :=
  Forall Interval.merged
    (SyncStore.logFilterFragmentIntervals
       (fst (SyncStore.getLogFilterIntervals s chainId logFilter)) chainId
       (buildLogFilterFragments logFilter chainId)).

(** The same for the lists the coverage query of a factory selects. *)
Definition selectedFactoryUnioned (s : Store) (chainId : Z)
  (factory : FactoryCriteria) : Prop :=
  Forall Interval.merged
    (SyncStore.factoryFragmentIntervals
       (fst (SyncStore.getFactoryLogFilterIntervals s chainId factory)) chainId
       (buildFactoryFragments factory chainId)).

(** The row of a fragment is in the table and is the only row of its id. *)
Definition settled (f : LogFilterFragment) (tbl : list LogFilterFragment)
  : Prop :=
  In f tbl /\ forall r, In r tbl -> lff_id r = lff_id f -> r = f.

(** ** Events *)

Import Events.

(** The rows a request selects: inside the timestamp range and matched by a
    log filter or factory of the request. *)
Definition matchingRows (s : Store) (q : Request) : list Row :=
  filter (fun r => timestampWhere q r && includedWhere s q r) (joinedRows s q).

Definition allEvents (pages : list Page) : list Row := flat_map events pages.

(** Strictly ascending in [(timestamp, chainId, blockNumber, logIndex)]. *)
Definition strictly_ascending (rows : list Row) : Prop :=
  StronglySorted (fun a b => key_lt (row_key a) (row_key b)) rows.

(** The rows strictly after a cursor in the ordering; every row when there
    is no cursor yet. *)
Definition afterCursor (cursor : option Cursor) (r : Row) : bool :=
  match cursor with
  | Some c => key_ltb c (row_key r)
  | None => true
  end.

(** The number of joined rows of an event source and selector inside the
    timestamp range that pass the filters without their
    [includeEventSelectors]. *)
Definition countedRows (s : Store) (q : Request) (name : string)
  (selector : option Hex) : nat :=
  List.length
    (filter (fun r => String.eqb (eventSource_name r) name
                      && opt_eqb (log_topic0 (row_log r)) selector)
            (filter (fun r => timestampWhere q r && countsWhere s q r)
                    (joinedRows s q))).

(** The pages a run yielded, whether it returned or threw. *)
Definition yieldedPages (o : Outcome) : list Page :=
  match o with
  | Pages pages => pages
  | Throws pages => pages
  | Running => []
  end.

(** Every row the request selects has its transaction in the store. *)
Definition transactionsStored (s : Store) (q : Request) : Prop :=
  forall r, In r (matchingRows s q) -> row_tx r <> None.

(** The request with every [includeEventSelectors] removed. *)
Definition withoutSelectors (q : Request) : Request :=
  mkRequest (fromTimestamp q) (toTimestamp q)
    (map (fun f => mkLogFilterSource (lf_name f) (lf_chainId f) (lf_criteria f)
                     (lf_fromBlock f) (lf_toBlock f) None)
         (req_logFilters q))
    (map (fun f => mkFactorySource (fs_name f) (fs_chainId f) (fs_criteria f)
                     (fs_fromBlock f) (fs_toBlock f) None)
         (req_factories q))
    (pageSize q).

End Properties.

(* ================================================================== *)
(** * Merging the interval rows of one id *)
(* ================================================================== *)

Module MergeRows.

(** The delete-union-reinsert step on an interval table, for any row type:
    [idOf] and [iv] read the id and the interval of a row, [mk] builds the
    row of an id and an interval. *)
Section Table.
Context {R I : Type}.
Variable eqb : I -> I -> bool.
Variable idOf : R -> I.
Variable iv : R -> Interval.t.
Variable mk : I -> Interval.t -> R.

Definition rowsOf (id : I) (tbl : list R) : list Interval.t :=
  map iv (filter (fun r => eqb (idOf r) id) tbl).

Definition mergeId (id : I) (tbl : list R) : list R :=
  filter (fun r => negb (eqb (idOf r) id)) tbl
  ++ map (mk id) (Interval.intervalUnion (rowsOf id tbl)).

End Table.

End MergeRows.

(* ================================================================== *)
(** * Sample data *)
(* ================================================================== *)

Module Sample.
Import Rows.

Local Open Scope string_scope.

Definition zeros12 : string := "000000000000000000000000".
Definition aa20 : string := "aaaaaaaaaaaaaaaaaaaaaaaaaaaaaaaaaaaaaaaa".
Definition bb20 : string := "bbbbbbbbbbbbbbbbbbbbbbbbbbbbbbbbbbbbbbbb".

Definition block_at (hash : Hex) (chainId number timestamp : Z) : Block :=
  mkBlock hash chainId number timestamp [].

Definition tx_at (hash blockHash : Hex) (chainId blockNumber : Z) : Transaction :=
  mkTransaction hash chainId blockHash blockNumber 0 [].

Definition log_at (id : string) (chainId : Z) (address blockHash : Hex)
  (blockNumber : Z) (data : Hex) (logIndex : Z) (topic0 topic1 : option Hex)
  (transactionHash : Hex) : Log :=
  mkLog id chainId address blockHash blockNumber data logIndex
        topic0 topic1 None None transactionHash 0.

(** A factory at ["0xfac"] announcing children with event ["0xnew"], the
    child address in the first word of [data]. *)
Definition factory0 : FactoryCriteria :=
  mkFactoryCriteria "0xfac" "0xnew" "offset0" None.

(** The log of scenario S5: twelve zero bytes, then twenty [aa] bytes. *)
Definition log_S5 : Log :=
  log_at "0xb5-0" 1 "0xfac" "0xb5" 5 ("0x" ++ zeros12 ++ aa20) 0
         (Some "0xnew") None "0xt1".

Definition log_S5' : Log :=
  log_at "0xb5-1" 1 "0xfac" "0xb5" 5 ("0x" ++ zeros12 ++ bb20) 1
         (Some "0xnew") None "0xt1".

(** Two announcements of the factory in the same block. *)
Definition store_two_children : Store :=
  with_logs (with_blocks empty [block_at "0xb5" 1 5 100]) [log_S5; log_S5'].

(** Announcements of the factory in blocks 5, 6 and 8, a log of another
    address in block 7 and an announcement in block 12. *)
Definition cc20 : string := "cccccccccccccccccccccccccccccccccccccccc".

Definition log_child (id : string) (address blockHash : Hex) (blockNumber : Z)
  (child : string) : Log :=
  log_at id 1 address blockHash blockNumber ("0x" ++ zeros12 ++ child) 0
         (Some "0xnew") None "0xt1".

Definition log_b6 : Log := log_child "0xb6-0" "0xfac" "0xb6" 6 bb20.
Definition log_b8 : Log := log_child "0xb8-0" "0xfac" "0xb8" 8 cc20.

Definition store_three_children : Store :=
  with_logs empty
    [log_S5; log_b6; log_child "0xb7-0" "0xother" "0xb7" 7 aa20; log_b8;
     log_child "0xb12-0" "0xfac" "0xb12" 12 aa20].

(** The filter without any bound slot, and the two-topic filter of
    scenario S2 with its two one-topic halves. *)
Definition anyLog : LogFilterCriteria := mkLogFilterCriteria None None.

Definition topicA : Hex := "0xa".
Definition topicB : Hex := "0xb".

Definition filterA : LogFilterCriteria :=
  mkLogFilterCriteria None (Some [Some (One topicA)]).
Definition filterB : LogFilterCriteria :=
  mkLogFilterCriteria None (Some [Some (One topicB)]).
Definition filterAB : LogFilterCriteria :=
  mkLogFilterCriteria None (Some [Some (Many [topicA; topicB])]).

(** A filter with an empty array of addresses: it has no fragment. *)
Definition filterNoAddress : LogFilterCriteria :=
  mkLogFilterCriteria (Some (Many [])) None.

Definition block1 : Block := block_at "0xb1" 1 1 10.

(** Scenario S1: [[0,5]] then [[6,10]] for one filter. *)
Definition store_S1 : Store :=
  SyncStore.insertLogFilterInterval
    (SyncStore.insertLogFilterInterval empty 1 filterA block1 [] [] (0, 5))
    1 filterA block1 [] [] (6, 10).

(** Scenario S2: [[0,10]] for the fragment of topic A only and [[5,15]] for
    the fragment of topic B only; and [[0,10]] for both. *)
Definition store_S2 : Store :=
  SyncStore.insertLogFilterInterval
    (SyncStore.insertLogFilterInterval empty 1 filterA block1 [] [] (0, 10))
    1 filterB block1 [] [] (5, 15).

Definition store_S2_both : Store :=
  SyncStore.insertLogFilterInterval empty 1 filterAB block1 [] [] (0, 10).

(** Two overlapping intervals recorded for one filter. *)
Definition store_overlap : Store :=
  SyncStore.insertLogFilterInterval
    (SyncStore.insertLogFilterInterval empty 1 anyLog block1 [] [] (0, 5))
    1 anyLog block1 [] [] (3, 10).

Definition anyLog_id : LogFilterId := (1, None, None, None, None, None).

(** [[20,30]] recorded for the filter without any bound slot, then [[0,10]]
    for the two-topic filter. *)
Definition store_broad : Store :=
  SyncStore.insertLogFilterInterval empty 1 anyLog block1 [] [] (20, 30).

Definition store_broad_AB : Store :=
  SyncStore.insertLogFilterInterval store_broad 1 filterAB block1 [] [] (0, 10).

(** Scenario S4: blocks 1..10 of chain 1 and the interval [[1,10]]. *)
Definition block_n (n : Z) : Block :=
  block_at (String (ascii_of_nat (Z.to_nat (64 + n))) "") 1 n (10 * n).

Definition blocks_1_10 : list Block :=
  map block_n [1; 2; 3; 4; 5; 6; 7; 8; 9; 10].

Definition store_S4 : Store :=
  SyncStore.insertLogFilterInterval (with_blocks empty blocks_1_10)
    1 anyLog (block_n 1) [] [] (1, 10).

(** Scenario S3: two logs of one block, at log indexes 0 and 1. *)
Definition block7 : Block := block_at "0xb7" 1 7 100.

Definition selX : Hex := "0xX".
Definition selY : Hex := "0xY".

Definition log7 (logIndex : Z) (id : string) (topic0 : Hex) : Log :=
  log_at id 1 "0xc0" "0xb7" 7 "0x" logIndex (Some topic0) None "0xt7".

(** The transaction of the logs of block 7. *)
Definition tx7 : Transaction := tx_at "0xt7" "0xb7" 1 7.

Definition store_S3 : Store :=
  with_logs (with_transactions (with_blocks empty [block7]) [tx7])
            [log7 0 "0xb7-0" selX; log7 1 "0xb7-1" selX].

(** The same without the transaction of the logs. *)
Definition store_S3_no_transaction : Store :=
  with_logs (with_blocks empty [block7])
            [log7 0 "0xb7-0" selX; log7 1 "0xb7-1" selX].

Definition source (name : string) : Events.LogFilterSource :=
  Events.mkLogFilterSource name 1 anyLog None None None.

Definition request_S3 : Events.Request :=
  Events.mkRequest 0 1000 [source "src"] [] 1.

(** One log selected for two event sources. *)
Definition store_one_log : Store :=
  with_logs (with_transactions (with_blocks empty [block7]) [tx7])
            [log7 0 "0xb7-0" selX].

Definition request_two_sources (pageSize : nat) : Events.Request :=
  Events.mkRequest 0 1000 [source "a"; source "b"] [] pageSize.

(** Scenario S6: three logs with selector X and two with selector Y. *)
Definition store_S6 : Store :=
  with_logs (with_transactions (with_blocks empty [block7]) [tx7])
            [log7 0 "0xb7-0" selX; log7 1 "0xb7-1" selY; log7 2 "0xb7-2" selX;
             log7 3 "0xb7-3" selY; log7 4 "0xb7-4" selX].

Definition request_S6 (pageSize : nat) : Events.Request :=
  Events.mkRequest 0 1000 [source "src"] [] pageSize.

(** The same with only selector X included in the pages. *)
Definition request_S6_onlyX (pageSize : nat) : Events.Request :=
  Events.mkRequest 0 1000
    [Events.mkLogFilterSource "src" 1 anyLog None None (Some [selX])] []
    pageSize.

(** A filter bounded above by block 0. *)
Definition request_toBlock0 : Events.Request :=
  Events.mkRequest 0 1000
    [Events.mkLogFilterSource "src" 1 anyLog None (Some 0) None] [] 10.

End Sample.

(* ================================================================== *)
(** * Keys and well-formed stores *)
(* ================================================================== *)

Module StoreProperties.
Import Rows.

(** The primary key of [rpcRequestResults]. *)
Definition rpc_key (r : RpcRequestResult) : string * Z * Z :=
  (rpc_request r, rpc_blockNumber r, rpc_chainId r).

(** A row of a chain above a block number: what [deleteRealtimeData]
    removes from the raw tables. *)
Definition above (chainId pivot rowChain rowBlock : Z) : Prop :=
  rowChain = chainId /\ pivot < rowBlock.

(** The [id] of a filter row names its columns. *)
Definition canonical (r : LogFilterFragment) : Prop :=
  lff_id r = (lff_chainId r, lff_address r, lff_topic0 r, lff_topic1 r,
              lff_topic2 r, lff_topic3 r).

(** The filter rows are named by their columns, and every interval row
    belongs to a filter row (the foreign key of [logFilterIntervals]). *)
Definition wellFormed (s : Store) : Prop :=
  (forall r, In r (logFilters s) -> canonical r)
  /\ (forall i, In i (logFilterIntervals s) ->
                exists r, In r (logFilters s) /\ lff_id r = lfi_logFilterId i).

(** The filter under which [insertRealtimeInterval] records a factory. *)
Definition factoryAsLogFilter (f : FactoryCriteria) : LogFilterCriteria :=
  mkLogFilterCriteria (Some (One (fc_address f)))
                      (Some [Some (One (fc_eventSelector f))]).

(** A log that announces a child of the factory on the chain, up to a
    block number: the [where] of [getFactoryChildAddresses]. *)
Definition announces (chainId upToBlockNumber : Z) (factory : FactoryCriteria)
  (l : Log) : Prop :=
  log_chainId l = chainId
  /\ log_address l = fc_address factory
  /\ log_topic0 l = Some (fc_eventSelector factory)
  /\ log_blockNumber l <= upToBlockNumber.

(** Ascending in [(timestamp, chainId, blockNumber, logIndex)], ties
    allowed. *)
Definition nondecreasing (rows : list Events.Row) : Prop :=
  StronglySorted
    (fun a b => Events.key_ltb (Events.row_key b) (Events.row_key a) = false)
    rows.

(** The [blocks.timestamp] column of a row. *)
Definition row_timestamp (r : Events.Row) : Z :=
  Events.cur_timestamp (Events.row_key r).

(** The rows of an event source and selector. *)
Definition eventsOf (name : string) (selector : option Hex)
  (rows : list Events.Row) : list Events.Row :=
  filter (fun r => String.eqb (Events.eventSource_name r) name
                   && opt_eqb (log_topic0 (Events.row_log r)) selector)
         rows.

(** What a slot of a filter asks of a column: nothing when the slot is
    absent, the value of the slot, or one of its values. *)
Definition slot_ok (slot : option OneOrMany) (v : option Hex) : Prop :=
  match slot with
  | None => True
  | Some (One a) => v = Some a
  | Some (Many hs) => exists a, In a hs /\ v = Some a
  end.

(** What the block bounds of an event source ask of a row. *)
Definition bounds_ok (fromBlock toBlock : option Z) (r : Events.Row) : Prop :=
  (forall v, fromBlock = Some v -> v <> 0 ->
     exists b, Events.row_block r = Some b /\ v <= block_number b)
  /\ (forall v, toBlock = Some v -> v <> 0 ->
        exists b, Events.row_block r = Some b /\ block_number b <= v).

(** A row is one of a log filter of the request. *)
Definition logFilter_matches (lf : Events.LogFilterSource) (r : Events.Row)
  : Prop :=
  Events.eventSource_name r = Events.lf_name lf
  /\ log_chainId (Events.row_log r) = Events.lf_chainId lf
  /\ match lfc_address (Events.lf_criteria lf) with
     | None => True
     | Some (One a) => a = EmptyString \/ log_address (Events.row_log r) = a
     | Some (Many hs) => In (log_address (Events.row_log r)) hs
     end
  /\ slot_ok (topic_slot (lfc_topics (Events.lf_criteria lf)) 0)
             (log_topic0 (Events.row_log r))
  /\ slot_ok (topic_slot (lfc_topics (Events.lf_criteria lf)) 1)
             (log_topic1 (Events.row_log r))
  /\ slot_ok (topic_slot (lfc_topics (Events.lf_criteria lf)) 2)
             (log_topic2 (Events.row_log r))
  /\ slot_ok (topic_slot (lfc_topics (Events.lf_criteria lf)) 3)
             (log_topic3 (Events.row_log r))
  /\ bounds_ok (Events.lf_fromBlock lf) (Events.lf_toBlock lf) r.

(** A row is one of a factory of the request: its log comes from an address
    that a stored log of the factory announces, at any block. *)
Definition factory_matches (s : Store) (f : Events.FactorySource)
  (r : Events.Row) : Prop :=
  Events.eventSource_name r = Events.fs_name f
  /\ log_chainId (Events.row_log r) = Events.fs_chainId f
  /\ (exists upToBlockNumber l,
        In l (ChildAddress.childAddressRows s (Events.fs_chainId f)
                upToBlockNumber (Events.fs_criteria f))
        /\ ChildAddress.buildFactoryChildAddressSelectExpression
             (fc_childAddressLocation (Events.fs_criteria f)) l
           = Some (log_address (Events.row_log r)))
  /\ bounds_ok (Events.fs_fromBlock f) (Events.fs_toBlock f) r.

End StoreProperties.

(* ================================================================== *)
(** * Truncating an interval table *)
(* ================================================================== *)

Module TruncateRows.

(** The two statements [deleteRealtimeData] runs on an interval table, for
    any row type: [on] tells the rows of the chain, [startOf] and [endOf]
    read a row, [setEnd] is the row with another [endBlock]. *)
Section Table.
Context {R : Type}.
Variable on : R -> bool.
Variable startOf : R -> Z.
Variable endOf : R -> Z.
Variable setEnd : R -> Z -> R.

Definition truncateRows (pivot : Z) (tbl : list R) : list R :=
  map (fun i => if on i && (pivot <? endOf i) then setEnd i pivot else i)
      (filter (fun i => negb (on i && (pivot <? startOf i))) tbl).

End Table.

End TruncateRows.

(* ================================================================== *)
(** * The [Ponder] instance: handler bookkeeping and plugins *)
(* ================================================================== *)

Module Ponder.

(** The two values of [HandlersStatus] the class assigns. *)
Inductive HandlersStatus : Type :=
| UP_TO_DATE
| IN_PROGRESS.

(** The fields of [UiState] the handler bookkeeping reads and writes; the
    counters are JavaScript numbers holding counts. *)
Record UiState : Type := mkUiState {
  handlersTotal : Z;
  handlersCurrent : Z;
  handlersStatus : HandlersStatus
}.

(** What [getLogs] resolves to. *)
Record GetLogsResult (L : Type) : Type := mkGetLogsResult {
  hasNewLogs : bool;
  toTimestamp : Z;
  logs : list L
}.

Arguments mkGetLogsResult {L}.
Arguments hasNewLogs {L}.
Arguments toTimestamp {L}.
Arguments logs {L}.

(** The fields of the instance [handleNewLogs] works on; [handlerQueue] is
    the tasks pushed so far, [None] before [reloadHandlers] made a queue. *)
Record State (L : Type) : Type := mkState {
  handlerQueue : option (list L);
  logsProcessedToTimestamp : Z;
  isHandlingLogs : bool;
  ui : UiState
}.

Arguments mkState {L}.
Arguments handlerQueue {L}.
Arguments logsProcessedToTimestamp {L}.
Arguments isHandlingLogs {L}.
Arguments ui {L}.

(** [handleNewLogs], with [getLogs] given as what it resolves to from a
    timestamp, [None] when it rejects: nothing after the [await] runs then. *)
Definition handleNewLogs {L : Type} (getLogs : Z -> option (GetLogsResult L))
  (st : State L) : State L :=
  match handlerQueue st with
  | None => st
  | Some queue =>
      if isHandlingLogs st then st
      else
        let handling :=
          mkState (Some queue) (logsProcessedToTimestamp st) true (ui st) in
        match getLogs (logsProcessedToTimestamp st) with
        | None => handling
        | Some r =>
            if negb (hasNewLogs r)
            then mkState (Some queue) (logsProcessedToTimestamp st) false
                         (ui st)
            else
              mkState (Some (queue ++ logs r)) (toTimestamp r) false
                (mkUiState
                   (handlersTotal (ui st) + Z.of_nat (List.length (logs r)))
                   (handlersCurrent (ui st))
                   (handlersStatus (ui st)))
        end
  end.

(** [handleHandlerTaskStarted] *)
Definition handleHandlerTaskStarted {L : Type} (st : State L) : State L :=
  let handlersCurrent' := handlersCurrent (ui st) + 1 in
  mkState (handlerQueue st) (logsProcessedToTimestamp st) (isHandlingLogs st)
    (mkUiState (handlersTotal (ui st)) handlersCurrent'
       (if handlersCurrent' =? handlersTotal (ui st)
        then UP_TO_DATE else IN_PROGRESS)).

(** [reloadHandlers]: a queue that is there is killed and [isHandlingLogs]
    cleared; then, when [readHandlers] resolves ([handlersRead]), a new queue
    takes its place. *)
Definition reloadHandlers {L : Type} (handlersRead : bool) (st : State L)
  : State L :=
  let isHandlingLogs' :=
    match handlerQueue st with
    | Some _ => false
    | None => isHandlingLogs st
    end in
  mkState (if handlersRead then Some [] else handlerQueue st)
          (logsProcessedToTimestamp st) isHandlingLogs' (ui st).

(** The calls that reach the handler bookkeeping of an instance, and what
    each does to it. *)
Inductive Call (L : Type) : Type :=
| HandleNewLogs (getLogs : Z -> option (GetLogsResult L))
| HandleHandlerTaskStarted
| ReloadHandlers (handlersRead : bool).

Arguments HandleNewLogs {L}.
Arguments HandleHandlerTaskStarted {L}.
Arguments ReloadHandlers {L}.

Definition run {L : Type} (st : State L) (c : Call L) : State L :=
  match c with
  | HandleNewLogs getLogs => handleNewLogs getLogs st
  | HandleHandlerTaskStarted => handleHandlerTaskStarted st
  | ReloadHandlers handlersRead => reloadHandlers handlersRead st
  end.

Definition reloads {L : Type} (c : Call L) : bool :=
  match c with
  | ReloadHandlers _ => true
  | _ => false
  end.

(** A plugin: each hook is optional and acts on the instance, here any
    type [W]. *)
Record ResolvedPonderPlugin (W : Type) : Type := mkPlugin {
  setup : option (W -> W);
  reload : option (W -> W);
  teardown : option (W -> W)
}.

Arguments mkPlugin {W}.
Arguments setup {W}.
Arguments reload {W}.
Arguments teardown {W}.

(** [for (const plugin of this.plugins) { if (!plugin.setup) return;
    await plugin.setup(this); }] *)
Fixpoint setupPlugins {W : Type} (plugins : list (ResolvedPonderPlugin W))
  (w : W) : W :=
  match plugins with
  | [] => w
  | plugin :: rest =>
      match setup plugin with
      | None => w
      | Some hook => setupPlugins rest (hook w)
      end
  end.

Fixpoint reloadPlugins {W : Type} (plugins : list (ResolvedPonderPlugin W))
  (w : W) : W :=
  match plugins with
  | [] => w
  | plugin :: rest =>
      match reload plugin with
      | None => w
      | Some hook => reloadPlugins rest (hook w)
      end
  end.

Fixpoint teardownPlugins {W : Type} (plugins : list (ResolvedPonderPlugin W))
  (w : W) : W :=
  match plugins with
  | [] => w
  | plugin :: rest =>
      match teardown plugin with
      | None => w
      | Some hook => teardownPlugins rest (hook w)
      end
  end.

(** The plugins whose hook is called: those before the first one that has
    none. *)
Fixpoint called {W : Type} (hook : ResolvedPonderPlugin W -> option (W -> W))
  (plugins : list (ResolvedPonderPlugin W)) : list (W -> W) :=
  match plugins with
  | [] => []
  | plugin :: rest =>
      match hook plugin with
      | None => []
      | Some h => h :: called hook rest
      end
  end.

End Ponder.

Module PonderSample.
Import Ponder.

(** Two tasks queued and started, logs processed up to timestamp 10. *)
Definition caughtUp : State Z :=
  mkState (Some [1; 2]) 10 false (mkUiState 2 2 UP_TO_DATE).

Definition rejects : Z -> option (GetLogsResult Z) := fun _ => None.

Definition resolves (logs : list Z) : Z -> option (GetLogsResult Z) :=
  fun _ => Some (mkGetLogsResult true 20 logs).

(** A plugin without hooks, and one whose [setup] counts. *)
Definition hookless : ResolvedPonderPlugin Z := mkPlugin None None None.
Definition counting : ResolvedPonderPlugin Z :=
  mkPlugin (Some (Z.add 1)) None None.

End PonderSample.

Module IntervalFacts.
Import Interval.

Lemma insideb_spec n i : insideb n i = true <-> inside n i.
Proof.
  unfold insideb, inside. rewrite andb_true_iff, !Z.leb_le. tauto.
Qed.

Lemma coveredb_spec n l : coveredb n l = true <-> covered n l.
Proof.
  unfold coveredb, covered. rewrite existsb_exists.
  split; intros [i [Hi Hn]]; exists i; split; auto; now apply insideb_spec.
Qed.

Lemma covered_nil n : ~ covered n [].
Proof. intros [i [[] _]]. Qed.

Lemma covered_cons n i l : covered n (i :: l) <-> inside n i \/ covered n l.
Proof.
  unfold covered; split.
  - intros [j [[<- | Hj] Hn]]; [now left | right; now exists j].
  - intros [Hn | [j [Hj Hn]]]; [exists i | exists j]; simpl; auto.
Qed.

Lemma covered_app n l1 l2 : covered n (l1 ++ l2) <-> covered n l1 \/ covered n l2.
Proof.
  induction l1 as [|i l1 IH]; simpl.
  - split; [now right | intros [H | H]; [now apply covered_nil in H | exact H]].
  - rewrite !covered_cons, IH. tauto.
Qed.

(** ** Sorting on the start *)

Lemma insert_by_start_perm i l : Permutation (insert_by_start i l) (i :: l).
Proof.
  induction l as [|j l IH]; simpl; [reflexivity|].
  destruct (fst i <=? fst j); [reflexivity|].
  rewrite IH. apply perm_swap.
Qed.

Lemma sort_by_start_perm l : Permutation (sort_by_start l) l.
Proof.
  induction l as [|i l IH]; simpl; [reflexivity|].
  rewrite insert_by_start_perm. now constructor.
Qed.

Lemma insert_by_start_sorted i l :
  StronglySorted starts_le l -> StronglySorted starts_le (insert_by_start i l).
Proof.
  induction 1 as [|j l Hl IH Hj]; simpl.
  - repeat constructor.
  - destruct (fst i <=? fst j) eqn:E.
    + apply Z.leb_le in E. constructor; [now constructor|].
      constructor; [unfold starts_le; lia|].
      rewrite Forall_forall in *. intros k Hk. specialize (Hj k Hk).
      unfold starts_le in *. lia.
    + apply Z.leb_gt in E. constructor; [exact IH|].
      rewrite Forall_forall in *. intros k Hk.
      apply (Permutation_in _ (insert_by_start_perm i l)) in Hk.
      destruct Hk as [<- | Hk]; [unfold starts_le; lia | now apply Hj].
Qed.

Lemma sort_by_start_sorted l : StronglySorted starts_le (sort_by_start l).
Proof.
  induction l; simpl; [constructor | now apply insert_by_start_sorted].
Qed.

Lemma covered_perm n l l' : Permutation l l' -> covered n l -> covered n l'.
Proof.
  intros HP [i [Hi Hn]]. exists i. split; [|exact Hn].
  now apply (Permutation_in _ HP).
Qed.

(** ** The merging pass *)

Lemma merge_pass_covered n : forall rest cur,
  Forall (starts_le cur) rest ->
  StronglySorted starts_le rest ->
  (covered n (merge_pass cur rest) <-> covered n (cur :: rest)).
Proof.
  induction rest as [|nxt rest IH]; intros cur Hcur Hs; simpl; [tauto|].
  inversion Hcur as [|? ? Hcn Hcr]; subst.
  inversion Hs as [|? ? Hs' Hnr]; subst.
  destruct (fst nxt - 1 <=? snd cur) eqn:E.
  - apply Z.leb_le in E. rewrite IH; auto.
    + rewrite !covered_cons.
      assert (inside n (fst cur, Z.max (snd cur) (snd nxt)) <->
              inside n cur \/ inside n nxt) as ->
        by (unfold inside, starts_le in *; simpl; lia).
      tauto.
  - rewrite covered_cons, IH; auto. rewrite !covered_cons. tauto.
Qed.

Lemma merge_pass_head : forall rest cur i,
  In i (merge_pass cur rest) ->
  Forall (starts_le cur) rest ->
  StronglySorted starts_le rest ->
  fst cur <= fst i.
Proof.
  induction rest as [|nxt rest IH]; intros cur i Hi Hcur Hs; simpl in Hi.
  - destruct Hi as [<- | []]. lia.
  - inversion Hcur as [|? ? Hcn Hcr]; subst.
    inversion Hs as [|? ? Hs' Hnr]; subst.
    destruct (fst nxt - 1 <=? snd cur).
    + apply IH in Hi; auto.
    + destruct Hi as [<- | Hi]; [lia|].
      apply IH in Hi; auto. unfold starts_le in Hcn. lia.
Qed.

Lemma merge_pass_merged : forall rest cur,
  Forall (starts_le cur) rest ->
  StronglySorted starts_le rest ->
  merged (merge_pass cur rest).
Proof.
  induction rest as [|nxt rest IH]; intros cur Hcur Hs; simpl.
  - repeat constructor.
  - inversion Hcur as [|? ? Hcn Hcr]; subst.
    inversion Hs as [|? ? Hs' Hnr]; subst.
    destruct (fst nxt - 1 <=? snd cur) eqn:E.
    + apply IH; auto.
    + apply Z.leb_gt in E. constructor; [now apply IH|].
      rewrite Forall_forall. intros k Hk.
      apply merge_pass_head in Hk; auto.
      unfold apart, starts_le in *. lia.
Qed.

(** ** [intervalUnion] keeps the covered block numbers and returns the
    merged form *)

Lemma intervalUnion_covered n l : covered n (intervalUnion l) <-> covered n l.
Proof.
  unfold intervalUnion.
  pose proof (sort_by_start_sorted l) as Hs.
  pose proof (sort_by_start_perm l) as Hp.
  destruct (sort_by_start l) as [|cur rest] eqn:E.
  - apply Permutation_nil in Hp. subst. tauto.
  - inversion Hs; subst.
    rewrite merge_pass_covered; auto.
    split; apply covered_perm; [exact Hp | now apply Permutation_sym].
Qed.

Lemma intervalUnion_merged l : merged (intervalUnion l).
Proof.
  unfold intervalUnion.
  pose proof (sort_by_start_sorted l) as Hs.
  destruct (sort_by_start l) as [|cur rest]; [constructor|].
  inversion Hs; subst. now apply merge_pass_merged.
Qed.

(** ** The sweep computes the intersection of two merged lists *)

Lemma sweep_sound n : forall l1 l2,
  covered n (sweep l1 l2) -> covered n l1 /\ covered n l2.
Proof.
  induction l1 as [|i1 t1 IH1]; intros l2; [destruct l2; simpl; intros H; now apply covered_nil in H|].
  induction l2 as [|i2 t2 IH2]; [simpl; intros H; now apply covered_nil in H|].
  simpl. intros H.
  assert (Hrest : covered n (if snd i1 <? snd i2 then sweep t1 (i2 :: t2)
                             else sweep (i1 :: t1) t2) ->
                  covered n (i1 :: t1) /\ covered n (i2 :: t2)).
  { destruct (snd i1 <? snd i2).
    - intros Hc. apply IH1 in Hc. rewrite (covered_cons n i1). tauto.
    - intros Hc. apply IH2 in Hc. rewrite (covered_cons n i2). tauto. }
  destruct (Z.max (fst i1) (fst i2) <=? Z.min (snd i1) (snd i2)).
  - apply covered_cons in H. destruct H as [Hn | H]; [|now apply Hrest].
    rewrite !covered_cons. unfold inside in *. simpl in Hn. lia.
  - now apply Hrest.
Qed.

Lemma merged_tail_after n i l :
  merged (i :: l) -> n <= snd i -> ~ covered n l.
Proof.
  intros Hm Hn [j [Hj Hin]].
  inversion Hm as [|? ? _ Hall]; subst.
  rewrite Forall_forall in Hall. specialize (Hall j Hj).
  unfold apart, inside in *. lia.
Qed.

Lemma merged_tail i l : merged (i :: l) -> merged l.
Proof. now inversion 1. Qed.

Lemma sweep_complete n : forall l1 l2,
  merged l1 -> merged l2 ->
  covered n l1 -> covered n l2 -> covered n (sweep l1 l2).
Proof.
  induction l1 as [|i1 t1 IH1]; intros l2 Hm1; [intros _ H; now apply covered_nil in H|].
  induction l2 as [|i2 t2 IH2]; intros Hm2 Hc1 Hc2; [now apply covered_nil in Hc2|].
  simpl.
  assert (Hrest : ~ (inside n i1 /\ inside n i2) ->
                  covered n (if snd i1 <? snd i2 then sweep t1 (i2 :: t2)
                             else sweep (i1 :: t1) t2)).
  { intros Hno. destruct (snd i1 <? snd i2) eqn:E.
    - apply Z.ltb_lt in E. apply IH1; auto; [now apply merged_tail in Hm1|].
      apply covered_cons in Hc1. destruct Hc1 as [Hn1 | Hc1]; [|exact Hc1].
      exfalso. apply covered_cons in Hc2. destruct Hc2 as [Hn2 | Hc2]; [tauto|].
      apply (merged_tail_after n i2 t2); auto. unfold inside in Hn1. lia.
    - apply Z.ltb_ge in E. apply IH2; auto; [now apply merged_tail in Hm2|].
      apply covered_cons in Hc2. destruct Hc2 as [Hn2 | Hc2]; [|exact Hc2].
      exfalso. apply covered_cons in Hc1. destruct Hc1 as [Hn1 | Hc1]; [tauto|].
      apply (merged_tail_after n i1 t1); auto. unfold inside in Hn2. lia. }
  destruct (Z.max (fst i1) (fst i2) <=? Z.min (snd i1) (snd i2)) eqn:E.
  - apply covered_cons.
    destruct (Z_le_dec (Z.max (fst i1) (fst i2)) n) as [Hlo|Hlo];
      [destruct (Z_le_dec n (Z.min (snd i1) (snd i2))) as [Hhi|Hhi]|].
    + left. unfold inside. simpl. lia.
    + right. apply Hrest. unfold inside. lia.
    + right. apply Hrest. unfold inside. lia.
  - apply Z.leb_gt in E. apply Hrest. unfold inside. lia.
Qed.

(** Every interval the sweep emits is the overlap of an interval of each
    list, and holds a block number. *)
Lemma sweep_in : forall l1 l2 x,
  In x (sweep l1 l2) ->
  exists i1 i2, In i1 l1 /\ In i2 l2
                /\ x = (Z.max (fst i1) (fst i2), Z.min (snd i1) (snd i2))
                /\ fst x <= snd x.
Proof.
  induction l1 as [|i1 t1 IH1]; intros l2; [destruct l2; intros x []|].
  induction l2 as [|i2 t2 IH2]; intros x Hx; [destruct Hx|].
  simpl in Hx.
  assert (Hrest : In x (if snd i1 <? snd i2 then sweep t1 (i2 :: t2)
                        else sweep (i1 :: t1) t2) ->
                  exists j1 j2, In j1 (i1 :: t1) /\ In j2 (i2 :: t2)
                    /\ x = (Z.max (fst j1) (fst j2), Z.min (snd j1) (snd j2))
                    /\ fst x <= snd x).
  { destruct (snd i1 <? snd i2); intros H.
    - destruct (IH1 _ _ H) as (j1 & j2 & H1 & H2 & Hx').
      exists j1, j2. split; [now right | split; assumption].
    - destruct (IH2 _ H) as (j1 & j2 & H1 & H2 & Hx').
      exists j1, j2. split; [assumption | split; [now right | assumption]]. }
  destruct (Z.max (fst i1) (fst i2) <=? Z.min (snd i1) (snd i2)) eqn:E;
    [|now apply Hrest].
  destruct Hx as [<- | Hx]; [|now apply Hrest].
  apply Z.leb_le in E. exists i1, i2. simpl. auto.
Qed.

(** The sweep of two merged lists is merged. *)
Lemma sweep_merged : forall l1 l2,
  merged l1 -> merged l2 -> merged (sweep l1 l2).
Proof.
  induction l1 as [|i1 t1 IH1]; intros l2 Hm1; [destruct l2; constructor|].
  induction l2 as [|i2 t2 IH2]; intros Hm2; [constructor|].
  simpl.
  pose proof (merged_tail _ _ Hm1) as Ht1.
  pose proof (merged_tail _ _ Hm2) as Ht2.
  assert (Hrest : merged (if snd i1 <? snd i2 then sweep t1 (i2 :: t2)
                          else sweep (i1 :: t1) t2)).
  { destruct (snd i1 <? snd i2); [now apply IH1 | now apply IH2]. }
  destruct (Z.max (fst i1) (fst i2) <=? Z.min (snd i1) (snd i2)) eqn:E;
    [|exact Hrest].
  apply Z.leb_le in E. constructor; [exact Hrest|].
  rewrite Forall_forall. intros x Hx.
  inversion Hm1 as [|? ? _ Ha1]; subst. inversion Hm2 as [|? ? _ Ha2]; subst.
  rewrite Forall_forall in Ha1, Ha2.
  change (In x (if snd i1 <? snd i2 then sweep t1 (i2 :: t2)
                else sweep (i1 :: t1) t2)) in Hx.
  destruct (snd i1 <? snd i2) eqn:E2.
  - apply Z.ltb_lt in E2. apply sweep_in in Hx.
    destruct Hx as (j1 & j2 & H1 & _ & -> & Hv).
    specialize (Ha1 j1 H1). unfold apart in *. simpl in *. lia.
  - apply Z.ltb_ge in E2. apply sweep_in in Hx.
    destruct Hx as (j1 & j2 & _ & H2 & -> & Hv).
    specialize (Ha2 j2 H2). unfold apart in *. simpl in *. lia.
Qed.

(** What [intervalIntersection] returns is covered by both lists; it is
    their intersection when both are merged. *)
Lemma intervalIntersection_sound n l1 l2 :
  covered n (intervalIntersection l1 l2) -> covered n l1 /\ covered n l2.
Proof. apply sweep_sound. Qed.

Lemma intervalIntersection_complete n l1 l2 :
  merged l1 -> merged l2 ->
  covered n l1 -> covered n l2 -> covered n (intervalIntersection l1 l2).
Proof. apply sweep_complete. Qed.

Lemma fold_intersection_sound n : forall ls acc,
  covered n (fold_left intervalIntersection ls acc) ->
  covered n acc /\ Forall (covered n) ls.
Proof.
  induction ls as [|l ls IH]; intros acc H; simpl in H.
  - split; [exact H | constructor].
  - apply IH in H. destruct H as [H Hls].
    apply intervalIntersection_sound in H. destruct H as [Ha Hl].
    split; [exact Ha | now constructor].
Qed.

Lemma fold_intersection_merged : forall ls acc,
  merged acc -> Forall merged ls ->
  merged (fold_left intervalIntersection ls acc).
Proof.
  induction ls as [|l ls IH]; intros acc Hacc Hls; simpl; [exact Hacc|].
  inversion Hls; subst. apply IH; [|assumption]. now apply sweep_merged.
Qed.

Lemma fold_intersection_complete n : forall ls acc,
  merged acc -> Forall merged ls ->
  covered n acc -> Forall (covered n) ls ->
  covered n (fold_left intervalIntersection ls acc).
Proof.
  induction ls as [|l ls IH]; intros acc Hacc Hls Ha Hc; simpl; [exact Ha|].
  inversion Hls; subst. inversion Hc; subst.
  apply IH; auto; [now apply sweep_merged|].
  now apply intervalIntersection_complete.
Qed.

(** A block number covered by [intervalIntersectionMany] is covered by
    every list. *)
Lemma intervalIntersectionMany_sound n lists :
  covered n (intervalIntersectionMany lists) ->
  lists <> [] /\ Forall (covered n) lists.
Proof.
  destruct lists as [|l ls]; simpl; intros H.
  - now apply covered_nil in H.
  - apply fold_intersection_sound in H. destruct H as [Hl Hls].
    split; [discriminate | now constructor].
Qed.

(** For lists already unioned, a block number covered by every list is
    covered by [intervalIntersectionMany]. *)
Lemma intervalIntersectionMany_complete n lists :
  Forall merged lists -> lists <> [] -> Forall (covered n) lists ->
  covered n (intervalIntersectionMany lists).
Proof.
  destruct lists as [|l ls]; intros Hm Hne Hc; [contradiction|].
  inversion Hm; subst. inversion Hc; subst.
  simpl. now apply fold_intersection_complete.
Qed.

Lemma intervalIntersectionMany_merged lists :
  Forall merged lists -> merged (intervalIntersectionMany lists).
Proof.
  destruct lists as [|l ls]; intros Hm; simpl; [constructor|].
  inversion Hm; subst. now apply fold_intersection_merged.
Qed.

(** ** The merged form is unique *)

Lemma merge_pass_valid : forall rest cur,
  valid cur -> Forall valid rest -> Forall valid (merge_pass cur rest).
Proof.
  induction rest as [|nxt rest IH]; intros cur Hc Hr; simpl.
  - now constructor.
  - inversion Hr; subst. destruct (fst nxt - 1 <=? snd cur).
    + apply IH; [|assumption]. unfold valid in *. simpl. lia.
    + constructor; [exact Hc | now apply IH].
Qed.

Lemma intervalUnion_valid l : Forall valid l -> Forall valid (intervalUnion l).
Proof.
  intros H. unfold intervalUnion.
  assert (Hs : Forall valid (sort_by_start l)).
  { rewrite Forall_forall in *. intros i Hi. apply H.
    now apply (Permutation_in _ (sort_by_start_perm l)). }
  destruct (sort_by_start l) as [|cur rest]; [constructor|].
  inversion Hs; subst. now apply merge_pass_valid.
Qed.

Lemma sweep_valid : forall l1 l2, Forall valid (sweep l1 l2).
Proof.
  induction l1 as [|i1 t1 IH1]; intros l2; [destruct l2; constructor|].
  induction l2 as [|i2 t2 IH2]; [constructor|].
  simpl.
  assert (Hrest : Forall valid (if snd i1 <? snd i2 then sweep t1 (i2 :: t2)
                                else sweep (i1 :: t1) t2)).
  { destruct (snd i1 <? snd i2); [apply IH1 | exact IH2]. }
  destruct (Z.max (fst i1) (fst i2) <=? Z.min (snd i1) (snd i2)) eqn:E;
    [|exact Hrest].
  apply Z.leb_le in E. constructor; [exact E | exact Hrest].
Qed.

Lemma merged_head_least n i l :
  merged (i :: l) -> covered n (i :: l) -> fst i <= n.
Proof.
  intros Hm [j [[<- | Hj] Hn]]; [unfold inside in Hn; lia|].
  inversion Hm as [|? ? _ Hall]; subst.
  rewrite Forall_forall in Hall. specialize (Hall j Hj).
  unfold apart, inside in *. lia.
Qed.

Lemma merged_after_head n i l :
  merged (i :: l) -> covered n l -> snd i + 1 < n.
Proof.
  intros Hm [j [Hj Hn]].
  inversion Hm as [|? ? _ Hall]; subst.
  rewrite Forall_forall in Hall. specialize (Hall j Hj).
  unfold apart, inside in *. lia.
Qed.

Lemma covered_head i l : valid i -> covered (fst i) (i :: l).
Proof. intros H. exists i. split; [now left | unfold inside, valid in *; lia]. Qed.

(** Two merged lists of valid intervals that cover the same block numbers
    are the same list. *)
Lemma merged_unique : forall l1 l2,
  merged l1 -> merged l2 -> Forall valid l1 -> Forall valid l2 ->
  (forall n, covered n l1 <-> covered n l2) -> l1 = l2.
Proof.
  induction l1 as [|[a1 b1] t1 IH]; intros l2 Hm1 Hm2 Hv1 Hv2 Hc.
  - destruct l2 as [|i2 t2]; [reflexivity|].
    inversion Hv2; subst. exfalso.
    apply (covered_nil (fst i2)), Hc. now apply covered_head.
  - destruct l2 as [|[a2 b2] t2].
    + inversion Hv1; subst. exfalso.
      apply (covered_nil a1), Hc. now apply (covered_head (a1, b1)).
    + inversion Hv1 as [|? ? Hi1 Ht1]; subst.
      inversion Hv2 as [|? ? Hi2 Ht2]; subst.
      unfold valid in Hi1, Hi2. simpl in Hi1, Hi2.
      assert (Ha : a1 = a2).
      { pose proof (merged_head_least a1 (a2, b2) t2 Hm2
                      (proj1 (Hc a1) (covered_head (a1, b1) t1 Hi1))).
        pose proof (merged_head_least a2 (a1, b1) t1 Hm1
                      (proj2 (Hc a2) (covered_head (a2, b2) t2 Hi2))).
        simpl in *. lia. }
      subst a2.
      assert (Hends : forall b b' t t',
                 merged ((a1, b) :: t) -> a1 <= b -> a1 <= b' ->
                 (forall n, covered n ((a1, b') :: t') -> covered n ((a1, b) :: t)) ->
                 b' <= b).
      { intros b b' t t' Hm Hb Hb' Hsub.
        destruct (Z_le_dec b' b) as [|Hgt]; [assumption|]. exfalso.
        assert (Hcov : covered (b + 1) ((a1, b) :: t)).
        { apply Hsub. exists (a1, b'). split; [now left|].
          unfold inside. simpl. lia. }
        apply covered_cons in Hcov. destruct Hcov as [Hin | Hin].
        - unfold inside in Hin. simpl in Hin. lia.
        - apply (merged_after_head _ _ _ Hm) in Hin. simpl in Hin. lia. }
      assert (Hb : b1 = b2).
      { pose proof (Hends b1 b2 t1 t2 Hm1 Hi1 Hi2 (fun n => proj2 (Hc n))).
        pose proof (Hends b2 b1 t2 t1 Hm2 Hi2 Hi1 (fun n => proj1 (Hc n))).
        lia. }
      subst b2. f_equal.
      apply IH; try assumption; try (eapply merged_tail; eassumption).
      intros n. split; intros Hn.
      * pose proof (merged_after_head _ _ _ Hm1 Hn) as Hlo.
        assert (Hl : covered n ((a1, b1) :: t2))
          by (apply Hc, covered_cons; now right).
        apply covered_cons in Hl. destruct Hl as [Hin | Hl]; [|exact Hl].
        unfold inside in Hin. simpl in *. lia.
      * pose proof (merged_after_head _ _ _ Hm2 Hn) as Hlo.
        assert (Hl : covered n ((a1, b1) :: t1))
          by (apply Hc, covered_cons; now right).
        apply covered_cons in Hl. destruct Hl as [Hin | Hl]; [|exact Hl].
        unfold inside in Hin. simpl in *. lia.
Qed.

(** ** The merged form is a fixed point of [intervalUnion] *)

Lemma insert_by_start_front i j l :
  fst i <= fst j -> insert_by_start i (j :: l) = i :: j :: l.
Proof.
  intros H. simpl. destruct (fst i <=? fst j) eqn:E; [reflexivity|].
  apply Z.leb_gt in E. lia.
Qed.

Lemma sort_settled : forall rest cur,
  settled_from cur rest -> sort_by_start (cur :: rest) = cur :: rest.
Proof.
  induction rest as [|nxt rest IH]; intros cur H; [reflexivity|].
  destruct H as (Hle & _ & Hrest).
  change (sort_by_start (cur :: nxt :: rest))
    with (insert_by_start cur (sort_by_start (nxt :: rest))).
  rewrite (IH nxt Hrest). now apply insert_by_start_front.
Qed.

Lemma merge_pass_settled : forall rest cur,
  settled_from cur rest -> merge_pass cur rest = cur :: rest.
Proof.
  induction rest as [|nxt rest IH]; intros cur H; [reflexivity|].
  destruct H as (_ & Hsep & Hrest). simpl.
  destruct (fst nxt - 1 <=? snd cur) eqn:E; [apply Z.leb_le in E; lia|].
  now rewrite (IH nxt Hrest).
Qed.

Lemma merge_pass_first : forall rest cur,
  exists c rest', merge_pass cur rest = c :: rest' /\ fst c = fst cur.
Proof.
  induction rest as [|nxt rest IH]; intros cur; simpl; [eauto|].
  destruct (fst nxt - 1 <=? snd cur); [|eauto].
  destruct (IH (fst cur, Z.max (snd cur) (snd nxt))) as (c & r & -> & Hc).
  eauto.
Qed.

Lemma merge_pass_is_settled : forall rest cur,
  Forall (starts_le cur) rest ->
  StronglySorted starts_le rest ->
  exists c rest', merge_pass cur rest = c :: rest' /\ fst c = fst cur
                  /\ settled_from c rest'.
Proof.
  induction rest as [|nxt rest IH]; intros cur Hcur Hs; simpl.
  - exists cur, []. simpl. auto.
  - inversion Hcur as [|? ? Hcn Hcr]; subst.
    inversion Hs as [|? ? Hs' Hnr]; subst.
    destruct (fst nxt - 1 <=? snd cur) eqn:E.
    + destruct (IH (fst cur, Z.max (snd cur) (snd nxt))) as (c & r & -> & Hc & Hr);
        auto.
      exists c, r. auto.
    + apply Z.leb_gt in E.
      destruct (IH nxt Hnr Hs') as (c & r & Hm & Hc & Hr).
      exists cur, (c :: r). rewrite Hm. split; [reflexivity|].
      split; [reflexivity|]. simpl. unfold starts_le in Hcn.
      repeat split; try lia. exact Hr.
Qed.

(** "[intervalUnion(L) == intervalUnion(intervalUnion(L))]", of every
    list. *)
Lemma intervalUnion_idempotent l :
  intervalUnion (intervalUnion l) = intervalUnion l.
Proof.
  unfold intervalUnion at 2 3.
  pose proof (sort_by_start_sorted l) as Hs.
  destruct (sort_by_start l) as [|cur rest]; [reflexivity|].
  inversion Hs; subst.
  destruct (merge_pass_is_settled rest cur) as (c & r & -> & _ & Hr); auto.
  unfold intervalUnion. rewrite (sort_settled r c Hr).
  now apply merge_pass_settled.
Qed.

Lemma merged_settled : forall rest cur,
  merged (cur :: rest) -> Forall valid (cur :: rest) -> settled_from cur rest.
Proof.
  induction rest as [|nxt rest IH]; intros cur Hm Hv; simpl; [exact I|].
  inversion Hm as [|? ? Hm' Ha]; subst. inversion Ha as [|? ? Han _]; subst.
  inversion Hv as [|? ? Hc Hv']; subst.
  unfold apart, valid in *. repeat split; try lia. now apply IH.
Qed.

(** A list already unioned is its own union. *)
Lemma intervalUnion_merged_id l :
  merged l -> Forall valid l -> intervalUnion l = l.
Proof.
  intros Hm Hv. destruct l as [|cur rest]; [reflexivity|].
  pose proof (merged_settled rest cur Hm Hv) as Hs.
  unfold intervalUnion. rewrite (sort_settled rest cur Hs).
  now apply merge_pass_settled.
Qed.

Lemma intervalIntersection_valid l1 l2 : Forall valid (intervalIntersection l1 l2).
Proof. apply sweep_valid. Qed.

(** The two properties the spec tests [intervalIntersectionMany] with, of a
    list already unioned. *)
Lemma intervalIntersectionMany_one l :
  merged l -> Forall valid l ->
  intervalIntersectionMany [l] = intervalUnion l.
Proof. intros Hm Hv. simpl. symmetry. now apply intervalUnion_merged_id. Qed.

Lemma sweep_cons i1 t1 i2 t2 :
  sweep (i1 :: t1) (i2 :: t2)
  = if Z.max (fst i1) (fst i2) <=? Z.min (snd i1) (snd i2)
    then (Z.max (fst i1) (fst i2), Z.min (snd i1) (snd i2))
         :: (if snd i1 <? snd i2 then sweep t1 (i2 :: t2)
             else sweep (i1 :: t1) t2)
    else if snd i1 <? snd i2 then sweep t1 (i2 :: t2)
         else sweep (i1 :: t1) t2.
Proof. reflexivity. Qed.

Lemma sweep_self : forall l, merged l -> Forall valid l -> sweep l l = l.
Proof.
  induction l as [|i t IH]; intros Hm Hv; [reflexivity|].
  inversion Hv as [|? ? Hi Hvt]; subst.
  pose proof (merged_tail _ _ Hm) as Hmt.
  rewrite sweep_cons, Z.ltb_irrefl, Z.max_id, Z.min_id.
  assert (E : (fst i <=? snd i) = true) by (apply Z.leb_le; exact Hi).
  rewrite E, <- surjective_pairing. f_equal.
  destruct t as [|j t']; [reflexivity|].
  inversion Hm as [|? ? _ Ha]; subst. inversion Ha as [|? ? Hij _]; subst.
  inversion Hvt as [|? ? Hj _]; subst.
  unfold apart, valid in *.
  rewrite (sweep_cons i (j :: t') j t').
  assert (E1 : (snd i <? snd j) = true) by (apply Z.ltb_lt; lia).
  assert (E2 : (Z.max (fst i) (fst j) <=? Z.min (snd i) (snd j)) = false)
    by (apply Z.leb_gt; lia).
  rewrite E1, E2. now rewrite (IH Hmt Hvt).
Qed.

Lemma intervalIntersectionMany_self l :
  merged l -> Forall valid l ->
  intervalIntersectionMany [l; l] = intervalUnion l.
Proof.
  intros Hm Hv. simpl. unfold intervalIntersection.
  rewrite (sweep_self l Hm Hv). symmetry. now apply intervalUnion_merged_id.
Qed.

Lemma sweep_nil_r l : sweep l [] = [].
Proof. destruct l; reflexivity. Qed.

Lemma sweep_nil_l l : sweep [] l = [].
Proof. destruct l; reflexivity. Qed.

Lemma fold_intersection_nil ls :
  fold_left intervalIntersection ls [] = [].
Proof.
  induction ls as [|l ls IH]; [reflexivity|].
  cbn [fold_left]. unfold intervalIntersection at 2.
  now rewrite sweep_nil_l.
Qed.

(** "If any list is empty, the result is empty." *)
Lemma intervalIntersectionMany_empty lists :
  In [] lists -> intervalIntersectionMany lists = [].
Proof.
  destruct lists as [|l ls]; [intros []|]. cbn [intervalIntersectionMany].
  intros [-> | Hin]; [apply fold_intersection_nil|].
  revert l. induction ls as [|l' ls IH]; intros l; [destruct Hin|].
  cbn [fold_left]. destruct Hin as [-> | Hin].
  - unfold intervalIntersection at 2. rewrite sweep_nil_r.
    apply fold_intersection_nil.
  - now apply IH.
Qed.

End IntervalFacts.
(* ================================================================== *)
(** * Repeated elements do not change unions and sweeps *)
(* ================================================================== *)

Module StutterFacts.
Import Interval Repeats IntervalFacts.

Lemma stutter_refl {A} (l : list A) : stutter l l.
Proof. induction l; constructor; assumption. Qed.

Lemma stutter_nil_inv {A} (l : list A) : stutter [] l -> l = [].
Proof. now inversion 1. Qed.

Lemma stutter_head {A} (x : A) l l' :
  stutter (x :: l) l' -> exists r, l' = x :: r.
Proof. inversion 1; subst; eauto. Qed.

Lemma stutter_trans {A} (a b c : list A) :
  stutter a b -> stutter b c -> stutter a c.
Proof.
  intros H1 H2. revert a H1.
  induction H2 as [|y b0 c0 H IH|y b0 c0 H IH]; intros a H1.
  - exact H1.
  - inversion H1; subst.
    + constructor. now apply IH.
    + apply stutter_dup. now apply IH.
  - destruct a as [|y' a0]; [apply stutter_nil_inv in H1; discriminate|].
    destruct (stutter_head _ _ _ H1) as [r Hr]. inversion Hr; subst.
    apply stutter_dup. now apply IH.
Qed.

Lemma stutter_in {A} (l l' : list A) x :
  stutter l l' -> (In x l <-> In x l').
Proof.
  induction 1 as [|y l l' H IH|y l l' H IH]; simpl in *; tauto.
Qed.

Lemma stutter_covered n l l' :
  stutter l l' -> (covered n l <-> covered n l').
Proof.
  intros H. unfold covered.
  split; intros [i [Hi Hn]]; exists i; split; auto;
    now apply (stutter_in _ _ i H).
Qed.

Lemma stutter_app_l {A} (p l l' : list A) :
  stutter l l' -> stutter (p ++ l) (p ++ l').
Proof. intros H. induction p; simpl; [exact H | now constructor]. Qed.

Lemma stutter_app {A} (a a' b b' : list A) :
  stutter a a' -> stutter b b' -> stutter (a ++ b) (a' ++ b').
Proof.
  intros Ha Hb. induction Ha as [|x l l' H IH|x l l' H IH]; simpl.
  - exact Hb.
  - now constructor.
  - now apply stutter_dup.
Qed.

Lemma stutter_map {A B} (f : A -> B) l l' :
  stutter l l' -> stutter (map f l) (map f l').
Proof.
  induction 1 as [|x l l' H IH|x l l' H IH]; simpl.
  - constructor.
  - now constructor.
  - now apply stutter_dup.
Qed.

Lemma stutter_copies {A} (y : A) L R c :
  stutter (y :: L) R -> stutter (y :: L) (repeat y c ++ R).
Proof.
  intros H. induction c as [|c IH]; simpl; [exact H|].
  now apply stutter_dup.
Qed.

(** A row that is repeated repeats the block of copies it gives rise to. *)
Lemma stutter_flat_map {A B} (h : A -> list B) (v : A -> B) l l' :
  (forall a, h a = repeat (v a) (List.length (h a))) ->
  stutter l l' -> stutter (flat_map h l) (flat_map h l').
Proof.
  intros Hh. induction 1 as [|x l l' H IH|x l l' H IH]; simpl.
  - constructor.
  - now apply stutter_app_l.
  - simpl in IH. rewrite (Hh x) in IH |- *.
    destruct (List.length (h x)) as [|c]; [exact IH|].
    simpl in IH |- *. apply stutter_dup.
    now apply (stutter_copies (v x) _ _ c) in IH.
Qed.

Lemma stutter_repeat {A} (x : A) k :
  stutter (repeat x k) (repeat x (k + k)).
Proof.
  destruct k as [|k]; [constructor|].
  rewrite repeat_app.
  apply (stutter_copies x (repeat x k) (repeat x (S k)) (S k)).
  apply stutter_refl.
Qed.

Lemma all_repeat {A} (x : A) l :
  (forall y, In y l -> y = x) -> l = repeat x (List.length l).
Proof.
  induction l as [|a l IH]; intros H; simpl; [reflexivity|].
  rewrite (H a) by now left. f_equal. apply IH. intros y Hy. apply H.
  now right.
Qed.

(** ** Sorting *)

Lemma insert_stutter z s s' :
  stutter s s' -> stutter (insert_by_start z s) (insert_by_start z s').
Proof.
  induction 1 as [|x l l' H IH|x l l' H IH]; simpl.
  - apply stutter_refl.
  - destruct (fst z <=? fst x); now repeat constructor.
  - simpl in IH. destruct (fst z <=? fst x).
    + constructor. now apply stutter_dup.
    + now apply stutter_dup.
Qed.

Lemma insert_insert x s :
  stutter (insert_by_start x s) (insert_by_start x (insert_by_start x s)).
Proof.
  induction s as [|j l IH]; simpl.
  - rewrite Z.leb_refl. apply stutter_dup, stutter_refl.
  - destruct (fst x <=? fst j) eqn:E; simpl.
    + rewrite Z.leb_refl. apply stutter_dup, stutter_refl.
    + rewrite E. now constructor.
Qed.

Lemma sort_stutter l l' :
  stutter l l' -> stutter (sort_by_start l) (sort_by_start l').
Proof.
  induction 1 as [|x l l' H IH|x l l' H IH]; simpl.
  - constructor.
  - now apply insert_stutter.
  - simpl in IH.
    eapply stutter_trans; [apply insert_insert|].
    now apply insert_stutter.
Qed.

(** ** The merging pass *)

Lemma merge_pass_starts : forall rest y,
  Forall (fun z => fst y - 1 > snd y /\ fst y <= fst z) rest ->
  exists r, merge_pass y rest = y :: r.
Proof.
  intros [|z rest] y H; simpl; [eauto|].
  inversion H as [|? ? [Hy Hz] _]; subst.
  destruct (fst z - 1 <=? snd y) eqn:E; [apply Z.leb_le in E; lia | eauto].
Qed.

Lemma stutter_same_head {A} (x y : A) l l' :
  stutter (x :: l) (y :: l') -> y = x.
Proof. now inversion 1. Qed.

Lemma merge_pass_stutter : forall rest' rest cur y,
  stutter (y :: rest) (y :: rest') ->
  StronglySorted starts_le (y :: rest) ->
  cur = y \/ (fst y - 1 <= snd cur /\ snd y <= snd cur) ->
  stutter (merge_pass cur rest) (merge_pass cur rest').
Proof.
  induction rest' as [|z' rest' IH]; intros rest cur y Hst Hs Hc.
  - inversion Hst as [| ? ? ? Hrest | ? ? ? Hdup]; subst.
    + inversion Hrest; subst. apply stutter_refl.
    + inversion Hdup.
  - inversion Hs as [|? ? Hs' Hy]; subst.
    inversion Hst as [| ? ? ? Hrest | ? ? ? Hdup]; subst.
    + destruct rest as [|z rest0]; [inversion Hrest|].
      pose proof (stutter_same_head _ _ _ _ Hrest) as Hz. subst z'.
      simpl. destruct (fst z - 1 <=? snd cur) eqn:E.
      * apply Z.leb_le in E. apply (IH rest0 _ z); auto.
        right. simpl. lia.
      * constructor. apply (IH rest0 _ z); auto.
    + pose proof (stutter_same_head _ _ _ _ Hdup) as Hz. subst z'.
      simpl. destruct Hc as [-> | [Hc1 Hc2]].
      * destruct (fst y - 1 <=? snd y) eqn:E.
        -- replace (fst y, Z.max (snd y) (snd y)) with y
             by (rewrite Z.max_id; apply surjective_pairing).
           apply (IH rest _ y); auto.
        -- apply Z.leb_gt in E.
           destruct (merge_pass_starts rest y) as [r0 Hr0].
           { rewrite Forall_forall in Hy |- *. intros z Hz.
             specialize (Hy z Hz). unfold starts_le in Hy. lia. }
           pose proof (IH rest y y Hdup Hs (or_introl eq_refl)) as H0.
           rewrite Hr0 in H0 |- *. now apply stutter_dup.
      * assert (E : (fst y - 1 <=? snd cur) = true) by (apply Z.leb_le; lia).
        rewrite E.
        replace (fst cur, Z.max (snd cur) (snd y)) with cur
          by (rewrite Z.max_l by lia; apply surjective_pairing).
        apply (IH rest _ y); auto.
Qed.

(** [intervalUnion] of a list with repeated elements is the union of the
    list with some elements repeated. *)
Lemma intervalUnion_stutter l l' :
  stutter l l' -> stutter (intervalUnion l) (intervalUnion l').
Proof.
  intros H. apply sort_stutter in H. unfold intervalUnion.
  pose proof (sort_by_start_sorted l) as Hs.
  destruct (sort_by_start l) as [|cur rest].
  - apply stutter_nil_inv in H. rewrite H. constructor.
  - destruct (stutter_head _ _ _ H) as [r Hr]. rewrite Hr in H |- *.
    apply (merge_pass_stutter r rest cur cur); auto.
Qed.

(** ** The sweep *)

Lemma sweep_emit i1 t1 i2 t2 :
  sweep (i1 :: t1) (i2 :: t2)
  = (if Z.max (fst i1) (fst i2) <=? Z.min (snd i1) (snd i2)
     then [(Z.max (fst i1) (fst i2), Z.min (snd i1) (snd i2))] else [])
    ++ (if snd i1 <? snd i2 then sweep t1 (i2 :: t2)
        else sweep (i1 :: t1) t2).
Proof.
  rewrite sweep_cons.
  destruct (Z.max (fst i1) (fst i2) <=? Z.min (snd i1) (snd i2)); reflexivity.
Qed.

Lemma emit_dup {A} (e L R : list A) :
  (List.length e <= 1)%nat -> stutter (e ++ L) R -> stutter (e ++ L) (e ++ R).
Proof.
  destruct e as [|a [|b e]]; simpl; intros He H.
  - exact H.
  - now apply stutter_dup.
  - lia.
Qed.

Lemma sweep_stutter : forall n l1 l1' l2 l2',
  (List.length l1' + List.length l2' <= n)%nat ->
  stutter l1 l1' -> stutter l2 l2' ->
  stutter (sweep l1 l2) (sweep l1' l2').
Proof.
  induction n as [|n IH]; intros l1 l1' l2 l2' Hn H1 H2.
  - destruct l1' as [|? ?]; [|simpl in Hn; lia].
    inversion H1; subst. rewrite !sweep_nil_l. constructor.
  - destruct l1 as [|x t1].
    { apply stutter_nil_inv in H1. subst. rewrite !sweep_nil_l. constructor. }
    destruct l2 as [|y t2].
    { apply stutter_nil_inv in H2. subst. rewrite !sweep_nil_r. constructor. }
    destruct (stutter_head _ _ _ H1) as [t1' ->].
    destruct (stutter_head _ _ _ H2) as [t2' ->].
    simpl in Hn. rewrite !sweep_emit.
    set (e := if Z.max (fst x) (fst y) <=? Z.min (snd x) (snd y)
              then [(Z.max (fst x) (fst y), Z.min (snd x) (snd y))] else []).
    assert (He : (List.length e <= 1)%nat)
      by (unfold e; destruct (_ <=? _); simpl; lia).
    destruct (snd x <? snd y) eqn:C.
    + inversion H1 as [| ? ? ? Ht | ? ? ? Hd]; subst.
      * apply stutter_app_l. apply IH; auto. simpl. lia.
      * apply emit_dup; [exact He|].
        assert (H0 : stutter (sweep (x :: t1) (y :: t2))
                             (sweep t1' (y :: t2')))
          by (apply IH; auto; simpl; lia).
        rewrite sweep_emit, C in H0. exact H0.
    + inversion H2 as [| ? ? ? Ht | ? ? ? Hd]; subst.
      * apply stutter_app_l. apply IH; auto. simpl. lia.
      * apply emit_dup; [exact He|].
        assert (H0 : stutter (sweep (x :: t1) (y :: t2))
                             (sweep (x :: t1') t2'))
          by (apply IH; auto; simpl; lia).
        rewrite sweep_emit, C in H0. exact H0.
Qed.

Lemma fold_intersection_stutter : forall ls ls' acc acc',
  Forall2 stutter ls ls' -> stutter acc acc' ->
  stutter (fold_left intervalIntersection ls acc)
          (fold_left intervalIntersection ls' acc').
Proof.
  induction ls as [|l ls IH]; intros ls' acc acc' Hls Hacc;
    inversion Hls; subst; simpl; [exact Hacc|].
  apply IH; [assumption|]. unfold intervalIntersection.
  eapply sweep_stutter; eauto.
Qed.

(** Repeating elements of the lists repeats elements of the result. *)
Lemma intervalIntersectionMany_stutter lists lists' :
  Forall2 stutter lists lists' ->
  stutter (intervalIntersectionMany lists) (intervalIntersectionMany lists').
Proof.
  intros H. inversion H; subst; simpl; [constructor|].
  now apply fold_intersection_stutter.
Qed.

End StutterFacts.
(* ================================================================== *)
(** * Equality tests *)
(* ================================================================== *)

Module EqFacts.
Import Rows.

Lemma opt_eqb_eq a b : opt_eqb a b = true <-> a = b.
Proof.
  destruct a as [x|], b as [y|]; simpl; try (split; congruence).
  rewrite String.eqb_eq. split; congruence.
Qed.

Lemma opt_eqb_refl a : opt_eqb a a = true.
Proof. now apply opt_eqb_eq. Qed.

Lemma logFilterId_eqb_eq a b : logFilterId_eqb a b = true <-> a = b.
Proof.
  destruct a as [[[[[c a0] t0] t1] t2] t3], b as [[[[[c' a0'] t0'] t1'] t2'] t3'].
  unfold logFilterId_eqb.
  rewrite !andb_true_iff, Z.eqb_eq, !opt_eqb_eq.
  split; [intros [[[[[-> ->] ->] ->] ->] ->]; reflexivity | intros H; inversion H; tauto].
Qed.

Lemma logFilterId_eqb_refl a : logFilterId_eqb a a = true.
Proof. now apply logFilterId_eqb_eq. Qed.

Lemma logFilterId_eqb_neq a b : logFilterId_eqb a b = false <-> a <> b.
Proof.
  rewrite <- logFilterId_eqb_eq. destruct (logFilterId_eqb a b); split; congruence.
Qed.

Lemma factoryId_eqb_eq a b : factoryId_eqb a b = true <-> a = b.
Proof.
  destruct a as [[[[c ad] ev] loc] [[[t0 t1] t2] t3]],
           b as [[[[c' ad'] ev'] loc'] [[[t0' t1'] t2'] t3']].
  unfold factoryId_eqb.
  rewrite !andb_true_iff, Z.eqb_eq, !String.eqb_eq, !opt_eqb_eq.
  split; [intros [[[[[[[-> ->] ->] ->] ->] ->] ->] ->]; reflexivity
         | intros H; inversion H; tauto].
Qed.

Lemma factoryId_eqb_refl a : factoryId_eqb a a = true.
Proof. now apply factoryId_eqb_eq. Qed.

Lemma factoryId_eqb_neq a b : factoryId_eqb a b = false <-> a <> b.
Proof.
  rewrite <- factoryId_eqb_eq. destruct (factoryId_eqb a b); split; congruence.
Qed.

End EqFacts.

(* ================================================================== *)
(** * Reorg truncation *)
(* ================================================================== *)

Module TruncateFacts.
Import Rows SyncStore.

Lemma kept_below (chainId fromBlock c n : Z) :
  negb ((c =? chainId) && (fromBlock <? n)) = true ->
  c = chainId -> n <= fromBlock.
Proof.
  intros H ->. rewrite Z.eqb_refl in H. simpl in H.
  apply negb_true_iff, Z.ltb_ge in H. exact H.
Qed.

Lemma logFilterInterval_on_truncated s chainId fromBlock c i :
  logFilterInterval_on (deleteRealtimeData s chainId fromBlock) c i
  = logFilterInterval_on s c i.
Proof. reflexivity. Qed.

Lemma factoryInterval_on_truncated s chainId fromBlock c i :
  factoryInterval_on (deleteRealtimeData s chainId fromBlock) c i
  = factoryInterval_on s c i.
Proof. reflexivity. Qed.

(** C3.  After [deleteRealtimeData s chainId pivot], no block, transaction,
    log or rpc-cache row of the chain has a block number above the pivot, and
    every interval row of a fragment of the chain (log filter or factory) has
    both [startBlock <= pivot] and [endBlock <= pivot]. *)
Theorem deleteRealtimeData_truncates (s : Store) (chainId pivot : Z) :
  let s' := deleteRealtimeData s chainId pivot in
  (forall b, In b (blocks s') -> block_chainId b = chainId ->
             block_number b <= pivot)
  /\ (forall t, In t (transactions s') -> tx_chainId t = chainId ->
                tx_blockNumber t <= pivot)
  /\ (forall l, In l (logs s') -> log_chainId l = chainId ->
                log_blockNumber l <= pivot)
  /\ (forall r, In r (rpcRequestResults s') -> rpc_chainId r = chainId ->
                rpc_blockNumber r <= pivot)
  /\ (forall i, In i (logFilterIntervals s') ->
                logFilterInterval_on s' chainId i = true ->
                lfi_startBlock i <= pivot /\ lfi_endBlock i <= pivot)
  /\ (forall i, In i (factoryLogFilterIntervals s') ->
                factoryInterval_on s' chainId i = true ->
                fli_startBlock i <= pivot /\ fli_endBlock i <= pivot).
Proof.
  cbv zeta. repeat split.
  - intros b Hb. simpl in Hb. apply filter_In in Hb. destruct Hb as [_ Hb].
    now apply kept_below.
  - intros t Ht. simpl in Ht. apply filter_In in Ht. destruct Ht as [_ Ht].
    now apply kept_below.
  - intros l Hl. simpl in Hl. apply filter_In in Hl. destruct Hl as [_ Hl].
    now apply kept_below.
  - intros r Hr. simpl in Hr. apply filter_In in Hr. destruct Hr as [_ Hr].
    now apply kept_below.
  - simpl in H. apply in_map_iff in H. destruct H as [j [Hj Hin]].
    apply filter_In in Hin. destruct Hin as [_ Hk].
    rewrite logFilterInterval_on_truncated in H0.
    destruct (logFilterInterval_on s chainId j && (pivot <? lfi_endBlock j)) eqn:E;
      subst i.
    + apply andb_true_iff in E. destruct E as [E _]. rewrite E in Hk. simpl in *.
      apply negb_true_iff, Z.ltb_ge in Hk. exact Hk.
    + rewrite H0 in Hk. simpl in Hk. apply negb_true_iff, Z.ltb_ge in Hk. exact Hk.
  - simpl in H. apply in_map_iff in H. destruct H as [j [Hj Hin]].
    apply filter_In in Hin. destruct Hin as [_ Hk].
    rewrite logFilterInterval_on_truncated in H0.
    destruct (logFilterInterval_on s chainId j && (pivot <? lfi_endBlock j)) eqn:E;
      subst i.
    + simpl. lia.
    + rewrite H0 in E. simpl in E. apply Z.ltb_ge in E. exact E.
  - simpl in H. apply in_map_iff in H. destruct H as [j [Hj Hin]].
    apply filter_In in Hin. destruct Hin as [_ Hk].
    rewrite factoryInterval_on_truncated in H0.
    destruct (factoryInterval_on s chainId j && (pivot <? fli_endBlock j)) eqn:E;
      subst i.
    + apply andb_true_iff in E. destruct E as [E _]. rewrite E in Hk. simpl in *.
      apply negb_true_iff, Z.ltb_ge in Hk. exact Hk.
    + rewrite H0 in Hk. simpl in Hk. apply negb_true_iff, Z.ltb_ge in Hk. exact Hk.
  - simpl in H. apply in_map_iff in H. destruct H as [j [Hj Hin]].
    apply filter_In in Hin. destruct Hin as [_ Hk].
    rewrite factoryInterval_on_truncated in H0.
    destruct (factoryInterval_on s chainId j && (pivot <? fli_endBlock j)) eqn:E;
      subst i.
    + simpl. lia.
    + rewrite H0 in E. simpl in E. apply Z.ltb_ge in E. exact E.
Qed.

(** Scenario S4: blocks 1..10 and the interval [[1,10]], truncated at 6. *)
Example deleteRealtimeData_S4 :
  let s' := deleteRealtimeData Sample.store_S4 1 6 in
  map block_number (blocks s') = [1; 2; 3; 4; 5; 6]
  /\ logFilterIntervals s' = [mkLogFilterInterval Sample.anyLog_id 1 6].
Proof. split; reflexivity. Qed.

(** The truncation theorem on scenario S4: the clamped interval row. *)
Lemma deleteRealtimeData_truncates_witness :
  lfi_startBlock (mkLogFilterInterval Sample.anyLog_id 1 6) <= 6
  /\ lfi_endBlock (mkLogFilterInterval Sample.anyLog_id 1 6) <= 6.
Proof.
  apply (proj1 (proj2 (proj2 (proj2 (proj2
           (deleteRealtimeData_truncates Sample.store_S4 1 6)))))).
  - left. reflexivity.
  - reflexivity.
Defined.

End TruncateFacts.

(* ================================================================== *)
(** * Factory child addresses *)
(* ================================================================== *)

Module ChildAddressFacts.
Import Rows ChildAddress Properties.

Local Open Scope string_scope.

Lemma substring_whole (s : string) : String.substring 0 (String.length s) s = s.
Proof. induction s as [|c s IH]; simpl; [reflexivity | now rewrite IH]. Qed.

Lemma substring_length (s : string) : forall n m,
  (n + m <= String.length s)%nat -> String.length (String.substring n m s) = m.
Proof.
  induction s as [|c s IH]; intros n m H; simpl in H.
  - assert (n = 0%nat) by lia. assert (m = 0%nat) by lia. now subst.
  - destruct n as [|n]; simpl.
    + destruct m as [|m]; simpl; [reflexivity|]. rewrite IH; [reflexivity | lia].
    + apply IH. lia.
Qed.

Lemma startsWith_offsetLocation K : startsWith_offset (offsetLocation K) = true.
Proof.
  unfold startsWith_offset, offsetLocation.
  destruct (NilEmpty.string_of_uint (Nat.to_uint K)); reflexivity.
Qed.

Lemma Number_offsetLocation K :
  Number (substring_from 6 (offsetLocation K)) = Some K.
Proof.
  unfold substring_from, offsetLocation. simpl.
  rewrite Nat.sub_0_r, substring_whole.
  unfold Number. rewrite NilEmpty.usu. simpl.
  now rewrite DecimalNat.Unsigned.of_to.
Qed.

(** C6, as the code has it.  For the location ["offset<K>"] the child address
    of a log is ["0x"] followed by the 20 bytes of [data] that start at byte
    [K + 12]: the low 20 bytes of the 32-byte word at byte offset [K]. *)
Theorem childAddress_offset (K : nat) (l : Log) :
  buildFactoryChildAddressSelectExpression (offsetLocation K) l
  = Some ("0x" ++ data_bytes (log_data l) (K + 12) 20)%string.
Proof.
  unfold buildFactoryChildAddressSelectExpression.
  rewrite startsWith_offsetLocation, Number_offsetLocation.
  unfold sql_substring, data_bytes. do 3 f_equal; lia.
Qed.

(** The derived address has its 40 hex digits whenever [data] holds the whole
    32-byte word. *)
Lemma childAddress_offset_length (K : nat) (l : Log) :
  (2 + 2 * (K + 32) <= String.length (log_data l))%nat ->
  String.length ("0x" ++ data_bytes (log_data l) (K + 12) 20) = 42%nat.
Proof.
  intros H. simpl. unfold data_bytes. rewrite substring_length; lia.
Qed.

(** C6, as stated, fails on the log of scenario S5: with ["offset0"] the
    address is not made of the data bytes 0 to 19. *)
Lemma childAddress_offset0_not_first_bytes :
  buildFactoryChildAddressSelectExpression "offset0" Sample.log_S5
  <> Some ("0x" ++ data_bytes (log_data Sample.log_S5) 0 20)%string.
Proof. vm_compute. discriminate. Qed.

(** Scenario S5: offset and topic locations. *)
Example childAddress_S5_offset :
  buildFactoryChildAddressSelectExpression "offset0" Sample.log_S5
  = Some ("0x" ++ Sample.aa20)%string.
Proof. reflexivity. Qed.

Example childAddress_S5_topic :
  buildFactoryChildAddressSelectExpression "topic1"
    (Sample.log_at "0xb5-2" 1 "0xfac" "0xb5" 5 "0x" 2 (Some "0xnew")
       (Some ("0x" ++ Sample.zeros12 ++ Sample.bb20)%string) "0xt1")
  = Some ("0x" ++ Sample.bb20)%string.
Proof. reflexivity. Qed.

(** C5 at two announcements in one block and [pageSize = 1]: both logs match,
    the generator yields the first child address only and stops. *)
Theorem getFactoryChildAddresses_drops_same_block :
  map (buildFactoryChildAddressSelectExpression "offset0")
      (childAddressRows Sample.store_two_children 1 10 Sample.factory0)
  = [Some ("0x" ++ Sample.aa20)%string; Some ("0x" ++ Sample.bb20)%string]
  /\ getFactoryChildAddresses 3 Sample.store_two_children 1 10 Sample.factory0 1
     = Some [[Some ("0x" ++ Sample.aa20)%string]].
Proof. split; reflexivity. Qed.

End ChildAddressFacts.

(* ================================================================== *)
(** * Block bounds of an event source *)
(* ================================================================== *)

Module BoundFacts.
Import Rows Events.

Lemma block_bounds_zero_from toBlock :
  block_bounds (Some 0) toBlock = block_bounds None toBlock.
Proof. reflexivity. Qed.

Lemma block_bounds_zero_to fromBlock :
  block_bounds fromBlock (Some 0) = block_bounds fromBlock None.
Proof.
  unfold block_bounds. destruct (truthy fromBlock); reflexivity.
Qed.

(** C10.  A log filter or factory whose [fromBlock] or [toBlock] is [0]
    builds the same comparisons as one without that bound. *)
Theorem zero_block_bound_ignored :
  (forall name chainId criteria toBlock sel,
      buildLogFilterCmprs (mkLogFilterSource name chainId criteria (Some 0) toBlock sel)
      = buildLogFilterCmprs (mkLogFilterSource name chainId criteria None toBlock sel))
  /\ (forall name chainId criteria fromBlock sel,
      buildLogFilterCmprs (mkLogFilterSource name chainId criteria fromBlock (Some 0) sel)
      = buildLogFilterCmprs (mkLogFilterSource name chainId criteria fromBlock None sel))
  /\ (forall s name chainId criteria toBlock sel,
      buildFactoryCmprs s (mkFactorySource name chainId criteria (Some 0) toBlock sel)
      = buildFactoryCmprs s (mkFactorySource name chainId criteria None toBlock sel))
  /\ (forall s name chainId criteria fromBlock sel,
      buildFactoryCmprs s (mkFactorySource name chainId criteria fromBlock (Some 0) sel)
      = buildFactoryCmprs s (mkFactorySource name chainId criteria fromBlock None sel)).
Proof.
  repeat split; intros; unfold buildLogFilterCmprs, buildFactoryCmprs; simpl;
    now rewrite ?block_bounds_zero_from, ?block_bounds_zero_to.
Qed.

End BoundFacts.

(* ================================================================== *)
(** * Merging the interval rows of one id *)
(* ================================================================== *)

Module MergeRowsFacts.
Import MergeRows.

Section Table.
Context {R I : Type}.
Variable eqb : I -> I -> bool.
Hypothesis eqb_eq : forall a b, eqb a b = true <-> a = b.
Variable idOf : R -> I.
Variable iv : R -> Interval.t.
Variable mk : I -> Interval.t -> R.
Hypothesis idOf_mk : forall id x, idOf (mk id x) = id.
Hypothesis iv_mk : forall id x, iv (mk id x) = x.

Local Abbreviation rows := (rowsOf eqb idOf iv).
Local Abbreviation merge := (mergeId eqb idOf iv mk).

Lemma eqb_refl a : eqb a a = true.
Proof. now apply eqb_eq. Qed.

Lemma eqb_neq a b : a <> b -> eqb a b = false.
Proof.
  intros H. destruct (eqb a b) eqn:E; [|reflexivity].
  apply eqb_eq in E. contradiction.
Qed.

Lemma rowsOf_app id t1 t2 : rows id (t1 ++ t2) = rows id t1 ++ rows id t2.
Proof. unfold rowsOf. now rewrite filter_app, map_app. Qed.

Lemma rowsOf_mk_same id l : rows id (map (mk id) l) = l.
Proof.
  unfold rowsOf. induction l as [|x l IH]; simpl; [reflexivity|].
  rewrite idOf_mk, eqb_refl. simpl. now rewrite iv_mk, IH.
Qed.

Lemma rowsOf_mk_other id id' l : id <> id' -> rows id (map (mk id') l) = [].
Proof.
  intros H. unfold rowsOf. induction l as [|x l IH]; simpl; [reflexivity|].
  rewrite idOf_mk, eqb_neq; auto.
Qed.

Lemma rowsOf_kept_same id tbl :
  rows id (filter (fun r => negb (eqb (idOf r) id)) tbl) = [].
Proof.
  unfold rowsOf. induction tbl as [|r tbl IH]; simpl; [reflexivity|].
  destruct (eqb (idOf r) id) eqn:E; simpl; [exact IH|].
  now rewrite E.
Qed.

Lemma rowsOf_kept_other id id' tbl :
  id <> id' ->
  rows id (filter (fun r => negb (eqb (idOf r) id')) tbl) = rows id tbl.
Proof.
  intros H. unfold rowsOf. induction tbl as [|r tbl IH]; simpl; [reflexivity|].
  destruct (eqb (idOf r) id') eqn:E; simpl.
  - apply eqb_eq in E. rewrite eqb_neq; [exact IH | congruence].
  - destruct (eqb (idOf r) id); simpl; now rewrite IH.
Qed.

(** The rows of the merged id are the union of what it had. *)
Lemma rowsOf_mergeId_same id tbl :
  rows id (merge id tbl) = Interval.intervalUnion (rows id tbl).
Proof.
  unfold mergeId. now rewrite rowsOf_app, rowsOf_kept_same, rowsOf_mk_same.
Qed.

(** The rows of every other id are as they were. *)
Lemma rowsOf_mergeId_other id id' tbl :
  id <> id' -> rows id (merge id' tbl) = rows id tbl.
Proof.
  intros H. unfold mergeId.
  rewrite rowsOf_app, rowsOf_kept_other, rowsOf_mk_other; auto.
  apply app_nil_r.
Qed.

Lemma eq_dec_id (a b : I) : a = b \/ a <> b.
Proof.
  destruct (eqb a b) eqn:E; [left; now apply eqb_eq|].
  right. intros H. apply eqb_eq in H. congruence.
Qed.

Lemma rowsOf_mergeId_covered n id id' tbl :
  Interval.covered n (rows id (merge id' tbl))
  <-> Interval.covered n (rows id tbl).
Proof.
  destruct (eq_dec_id id id') as [-> | H].
  - rewrite rowsOf_mergeId_same. apply IntervalFacts.intervalUnion_covered.
  - now rewrite rowsOf_mergeId_other.
Qed.

Lemma rowsOf_mergeId_merged id id' tbl :
  Interval.merged (rows id tbl) ->
  Interval.merged (rows id (merge id' tbl)).
Proof.
  intros Hm. destruct (eq_dec_id id id') as [-> | H].
  - rewrite rowsOf_mergeId_same. apply IntervalFacts.intervalUnion_merged.
  - now rewrite rowsOf_mergeId_other.
Qed.

Lemma covered_rowsOf n id tbl :
  Interval.covered n (rows id tbl)
  <-> exists r, In r tbl /\ idOf r = id /\ Interval.inside n (iv r).
Proof.
  unfold rowsOf, Interval.covered. split.
  - intros [x [Hx Hn]]. apply in_map_iff in Hx. destruct Hx as [r [<- Hr]].
    apply filter_In in Hr. destruct Hr as [Hr E]. apply eqb_eq in E.
    now exists r.
  - intros [r [Hr [Hid Hn]]]. exists (iv r). split; [|exact Hn].
    apply in_map, filter_In. split; [exact Hr | now apply eqb_eq].
Qed.

(** ** A run of merges *)

Local Abbreviation untouched ids :=
  (fun r => negb (existsb (eqb (idOf r)) ids)).

Lemma filter_filter {A} (p q : A -> bool) l :
  filter p (filter q l) = filter (fun x => q x && p x) l.
Proof.
  induction l as [|a l IH]; simpl; [reflexivity|].
  destruct (q a); simpl; [destruct (p a); now rewrite IH | exact IH].
Qed.

Lemma filter_all {A} (p : A -> bool) l :
  (forall x, In x l -> p x = true) -> filter p l = l.
Proof. intros H. now apply forallb_filter_id, forallb_forall. Qed.

Lemma filter_nothing {A} (p : A -> bool) l :
  (forall x, In x l -> p x = false) -> filter p l = [].
Proof.
  induction l as [|a l IH]; intros H; simpl; [reflexivity|].
  rewrite (H a) by now left. apply IH. intros x Hx. apply H. now right.
Qed.

Lemma existsb_eqb id ids : existsb (eqb id) ids = true <-> In id ids.
Proof.
  rewrite existsb_exists. split.
  - intros [x [Hx E]]. apply eqb_eq in E. now subst.
  - intros H. exists id. split; [exact H | apply eqb_refl].
Qed.

Lemma untouched_merge id ids tbl :
  filter (untouched ids) (merge id tbl)
  = filter (untouched (id :: ids)) tbl
    ++ (if existsb (eqb id) ids then []
        else map (mk id) (Interval.intervalUnion (rows id tbl))).
Proof.
  unfold mergeId. rewrite filter_app. f_equal.
  - rewrite filter_filter. apply filter_ext. intros r. simpl.
    now rewrite negb_orb.
  - destruct (existsb (eqb id) ids) eqn:E.
    + apply filter_nothing. intros x Hx. apply in_map_iff in Hx.
      destruct Hx as [y [<- _]]. now rewrite idOf_mk, E.
    + apply filter_all. intros x Hx. apply in_map_iff in Hx.
      destruct Hx as [y [<- _]]. now rewrite idOf_mk, E.
Qed.

(** Two tables that differ by repeated rows still do after the same run of
    merges. *)
Lemma fold_merge_stutter {X} (idf : X -> I) : forall (F : list X) tbl tbl',
  Repeats.stutter (filter (untouched (map idf F)) tbl)
                  (filter (untouched (map idf F)) tbl') ->
  (forall id, In id (map idf F) ->
     Repeats.stutter (Interval.intervalUnion (rows id tbl))
                     (Interval.intervalUnion (rows id tbl'))) ->
  Repeats.stutter (fold_left (fun T f => merge (idf f) T) F tbl)
                  (fold_left (fun T f => merge (idf f) T) F tbl').
Proof.
  induction F as [|f F IH]; intros tbl tbl' H1 H2.
  - simpl in *. rewrite !filter_all in H1 by reflexivity. exact H1.
  - cbn [fold_left]. apply IH.
    + rewrite !untouched_merge. apply StutterFacts.stutter_app; [exact H1|].
      destruct (existsb (eqb (idf f)) (map idf F));
        [constructor | apply StutterFacts.stutter_map, H2; now left].
    + intros id Hid. destruct (eq_dec_id id (idf f)) as [-> | Hne].
      * rewrite !rowsOf_mergeId_same.
        apply StutterFacts.intervalUnion_stutter, H2. now left.
      * rewrite !rowsOf_mergeId_other by exact Hne. apply H2. now right.
Qed.

(** A run of merges leaves the rows of the other ids where they were. *)
Lemma fold_merge_untouched {X} (idf : X -> I) ids : forall (F : list X) tbl,
  (forall f, In f F -> In (idf f) ids) ->
  filter (untouched ids) (fold_left (fun T f => merge (idf f) T) F tbl)
  = filter (untouched ids) tbl.
Proof.
  induction F as [|f F IH]; intros tbl HF; [reflexivity|].
  cbn [fold_left]. rewrite IH by (intros; apply HF; now right).
  assert (Hf : existsb (eqb (idf f)) ids = true)
    by (apply existsb_eqb, HF; now left).
  unfold mergeId. rewrite filter_app.
  rewrite (filter_nothing _ (map _ _)).
  - rewrite app_nil_r, filter_filter. apply filter_ext_in. intros r _.
    destruct (existsb (eqb (idOf r)) ids) eqn:E;
      [apply andb_false_r | rewrite andb_true_r].
    destruct (eqb (idOf r) (idf f)) eqn:E'; [|reflexivity].
    apply eqb_eq in E'. rewrite E' in E. congruence.
  - intros x Hx. apply in_map_iff in Hx. destruct Hx as [y [<- _]].
    now rewrite idOf_mk, Hf.
Qed.

(** After a run of merges the rows of a merged id are the union of what it
    had. *)
Lemma fold_merge_rows {X} (idf : X -> I) id : forall (F : list X) tbl,
  rows id (fold_left (fun T f => merge (idf f) T) F tbl)
  = if existsb (eqb id) (map idf F)
    then Interval.intervalUnion (rows id tbl) else rows id tbl.
Proof.
  induction F as [|f F IH]; intros tbl; [reflexivity|].
  cbn [fold_left map existsb]. rewrite IH.
  destruct (eqb id (idf f)) eqn:E.
  - apply eqb_eq in E. subst id. rewrite rowsOf_mergeId_same. simpl.
    destruct (existsb _ _); [apply IntervalFacts.intervalUnion_idempotent|].
    reflexivity.
  - assert (Hne : id <> idf f)
      by (intros ->; rewrite eqb_refl in E; discriminate).
    rewrite (rowsOf_mergeId_other _ _ _ Hne). reflexivity.
Qed.

End Table.

End MergeRowsFacts.

(* ================================================================== *)
(** * The merge phase of the coverage queries *)
(* ================================================================== *)

Module MergePhaseFacts.
Import Rows SyncStore Properties MergeRows.

Local Abbreviation lf_rows :=
  (rowsOf logFilterId_eqb lfi_logFilterId interval_of_row).
Local Abbreviation lf_merge :=
  (mergeId logFilterId_eqb lfi_logFilterId interval_of_row
           (fun id x => mkLogFilterInterval id (fst x) (snd x))).
Local Abbreviation f_rows :=
  (rowsOf factoryId_eqb fli_factoryId interval_of_factory_row).
Local Abbreviation f_merge :=
  (mergeId factoryId_eqb fli_factoryId interval_of_factory_row
           (fun id x => mkFactoryLogFilterInterval id (fst x) (snd x))).

Lemma merged_disjoint l : Interval.merged l -> disjoint_merged l.
Proof.
  induction 1 as [|a l Hl IH Ha]; [constructor|].
  constructor; [|exact IH].
  eapply Forall_impl; [|exact Ha].
  intros b [_ Hb]. now left.
Qed.

(** ** Log filters *)

Lemma rows_of_table id s : rows_of id s = lf_rows id (logFilterIntervals s).
Proof. reflexivity. Qed.

Lemma merge_table s f :
  logFilterIntervals (mergeLogFilterFragment s f)
  = lf_merge (lff_id f) (logFilterIntervals s).
Proof. reflexivity. Qed.

Lemma merge_logFilters s f :
  logFilters (mergeLogFilterFragment s f) = upsertLogFilter f (logFilters s).
Proof. reflexivity. Qed.

Lemma rows_of_merge_covered n id s f :
  Interval.covered n (rows_of id (mergeLogFilterFragment s f))
  <-> Interval.covered n (rows_of id s).
Proof.
  rewrite !rows_of_table, merge_table.
  apply MergeRowsFacts.rowsOf_mergeId_covered;
    [apply EqFacts.logFilterId_eqb_eq | reflexivity | intros ? []; reflexivity].
Qed.

Lemma rows_of_merge_merged id s f :
  Interval.merged (rows_of id s) ->
  Interval.merged (rows_of id (mergeLogFilterFragment s f)).
Proof.
  rewrite !rows_of_table, merge_table.
  apply MergeRowsFacts.rowsOf_mergeId_merged;
    [apply EqFacts.logFilterId_eqb_eq | reflexivity | intros ? []; reflexivity].
Qed.

Lemma rows_of_merge_same s f :
  rows_of (lff_id f) (mergeLogFilterFragment s f)
  = Interval.intervalUnion (rows_of (lff_id f) s).
Proof.
  rewrite !rows_of_table, merge_table.
  apply MergeRowsFacts.rowsOf_mergeId_same;
    [apply EqFacts.logFilterId_eqb_eq | reflexivity | intros ? []; reflexivity].
Qed.

Lemma fold_merge_covered n id : forall fragments s,
  Interval.covered n (rows_of id (fold_left mergeLogFilterFragment fragments s))
  <-> Interval.covered n (rows_of id s).
Proof.
  induction fragments as [|f fragments IH]; intros s; simpl; [tauto|].
  rewrite IH. apply rows_of_merge_covered.
Qed.

Lemma fold_merge_keeps_merged id : forall fragments s,
  Interval.merged (rows_of id s) ->
  Interval.merged (rows_of id (fold_left mergeLogFilterFragment fragments s)).
Proof.
  induction fragments as [|f fragments IH]; intros s Hm; simpl; [exact Hm|].
  apply IH. now apply rows_of_merge_merged.
Qed.

Lemma fold_merge_merged : forall fragments s f,
  In f fragments ->
  Interval.merged
    (rows_of (lff_id f) (fold_left mergeLogFilterFragment fragments s)).
Proof.
  induction fragments as [|g fragments IH]; intros s f Hin; [destruct Hin|].
  simpl. destruct Hin as [-> | Hin]; [|now apply IH].
  apply fold_merge_keeps_merged. rewrite rows_of_merge_same.
  apply IntervalFacts.intervalUnion_merged.
Qed.

Lemma fold_merge_logFilters : forall fragments s,
  logFilters (fold_left mergeLogFilterFragment fragments s)
  = fold_left (fun tbl f => upsertLogFilter f tbl) fragments (logFilters s).
Proof.
  induction fragments as [|f fragments IH]; intros s; simpl; [reflexivity|].
  now rewrite IH, merge_logFilters.
Qed.

(** ** Factories *)

Lemma factory_rows_of_table id s :
  factory_rows_of id s = f_rows id (factoryLogFilterIntervals s).
Proof. reflexivity. Qed.

Lemma merge_factory_table s f :
  factoryLogFilterIntervals (mergeFactoryFragment s f)
  = f_merge (ff_id f) (factoryLogFilterIntervals s).
Proof. reflexivity. Qed.

Lemma factory_rows_of_merge_merged id s f :
  Interval.merged (factory_rows_of id s) ->
  Interval.merged (factory_rows_of id (mergeFactoryFragment s f)).
Proof.
  rewrite !factory_rows_of_table, merge_factory_table.
  apply MergeRowsFacts.rowsOf_mergeId_merged;
    [apply EqFacts.factoryId_eqb_eq | reflexivity | intros ? []; reflexivity].
Qed.

Lemma factory_rows_of_merge_same s f :
  factory_rows_of (ff_id f) (mergeFactoryFragment s f)
  = Interval.intervalUnion (factory_rows_of (ff_id f) s).
Proof.
  rewrite !factory_rows_of_table, merge_factory_table.
  apply MergeRowsFacts.rowsOf_mergeId_same;
    [apply EqFacts.factoryId_eqb_eq | reflexivity | intros ? []; reflexivity].
Qed.

Lemma fold_merge_factory_keeps_merged id : forall fragments s,
  Interval.merged (factory_rows_of id s) ->
  Interval.merged (factory_rows_of id (fold_left mergeFactoryFragment fragments s)).
Proof.
  induction fragments as [|f fragments IH]; intros s Hm; simpl; [exact Hm|].
  apply IH. now apply factory_rows_of_merge_merged.
Qed.

Lemma fold_merge_factory_merged : forall fragments s f,
  In f fragments ->
  Interval.merged
    (factory_rows_of (ff_id f) (fold_left mergeFactoryFragment fragments s)).
Proof.
  induction fragments as [|g fragments IH]; intros s f Hin; [destruct Hin|].
  simpl. destruct Hin as [-> | Hin]; [|now apply IH].
  apply fold_merge_factory_keeps_merged. rewrite factory_rows_of_merge_same.
  apply IntervalFacts.intervalUnion_merged.
Qed.

(** ** Recording an interval only adds rows *)

Lemma fold_record_intervals interval : forall fragments s,
  logFilterIntervals (fold_left (recordLogFilterFragment interval) fragments s)
  = logFilterIntervals s
    ++ map (fun f => mkLogFilterInterval (lff_id f) (fst interval) (snd interval))
           fragments.
Proof.
  induction fragments as [|f fragments IH]; intros s; simpl.
  - now rewrite app_nil_r.
  - rewrite IH. simpl. now rewrite <- app_assoc.
Qed.

Lemma fold_record_logFilters interval : forall fragments s,
  logFilters (fold_left (recordLogFilterFragment interval) fragments s)
  = fold_left (fun tbl f => upsertLogFilter f tbl) fragments (logFilters s).
Proof.
  induction fragments as [|f fragments IH]; intros s; simpl; [reflexivity|].
  now rewrite IH.
Qed.

Lemma fold_record_factory_intervals interval : forall fragments s,
  factoryLogFilterIntervals
    (fold_left (recordFactoryFragment interval) fragments s)
  = factoryLogFilterIntervals s
    ++ map (fun f => mkFactoryLogFilterInterval (ff_id f) (fst interval)
                       (snd interval))
           fragments.
Proof.
  induction fragments as [|f fragments IH]; intros s; simpl.
  - now rewrite app_nil_r.
  - rewrite IH. simpl. now rewrite <- app_assoc.
Qed.

Lemma fold_record_others interval : forall fragments s,
  let s' := fold_left (recordLogFilterFragment interval) fragments s in
  blocks s' = blocks s /\ transactions s' = transactions s
  /\ logs s' = logs s /\ factories s' = factories s
  /\ factoryLogFilterIntervals s' = factoryLogFilterIntervals s
  /\ rpcRequestResults s' = rpcRequestResults s.
Proof.
  induction fragments as [|f fragments IH]; intros s; simpl; [tauto|].
  specialize (IH (recordLogFilterFragment interval s f)). simpl in IH. exact IH.
Qed.

Lemma insertLogFilterInterval_intervals s chainId logFilter b ts ls interval :
  logFilterIntervals (insertLogFilterInterval s chainId logFilter b ts ls interval)
  = logFilterIntervals s
    ++ map (fun f => mkLogFilterInterval (lff_id f) (fst interval) (snd interval))
           (buildLogFilterFragments logFilter chainId).
Proof.
  unfold insertLogFilterInterval, _insertLogFilterInterval.
  rewrite fold_record_intervals. simpl. now rewrite app_nil_r.
Qed.

Lemma fold_record_factory_others interval : forall fragments s,
  let s' := fold_left (recordFactoryFragment interval) fragments s in
  blocks s' = blocks s /\ transactions s' = transactions s
  /\ logs s' = logs s /\ logFilters s' = logFilters s
  /\ logFilterIntervals s' = logFilterIntervals s
  /\ rpcRequestResults s' = rpcRequestResults s.
Proof.
  induction fragments as [|f fragments IH]; intros s; simpl; [tauto|].
  specialize (IH (recordFactoryFragment interval s f)). simpl in IH. exact IH.
Qed.

Lemma insertFactoryLogFilterInterval_intervals s chainId factory b ts ls interval :
  factoryLogFilterIntervals
    (insertFactoryLogFilterInterval s chainId factory b ts ls interval)
  = factoryLogFilterIntervals s
    ++ map (fun f => mkFactoryLogFilterInterval (ff_id f) (fst interval)
                       (snd interval))
           (buildFactoryFragments factory chainId).
Proof.
  unfold insertFactoryLogFilterInterval, _insertFactoryLogFilterInterval.
  rewrite fold_record_factory_intervals. simpl. now rewrite app_nil_r.
Qed.

Lemma insertRealtimeInterval_intervals s chainId lfs fs interval :
  let s' := insertRealtimeInterval s chainId lfs fs interval in
  logFilterIntervals s'
  = logFilterIntervals s
    ++ map (fun f => mkLogFilterInterval (lff_id f) (fst interval) (snd interval))
           (flat_map (fun c => buildLogFilterFragments c chainId)
              (lfs ++ map (fun f => mkLogFilterCriteria (Some (One (fc_address f)))
                                      (Some [Some (One (fc_eventSelector f))]))
                          fs))
  /\ factoryLogFilterIntervals s'
     = factoryLogFilterIntervals s
       ++ map (fun f => mkFactoryLogFilterInterval (ff_id f) (fst interval)
                          (snd interval))
              (flat_map (fun c => buildFactoryFragments c chainId) fs).
Proof.
  unfold insertRealtimeInterval, _insertFactoryLogFilterInterval,
    _insertLogFilterInterval. cbv zeta. split.
  - destruct (fold_record_factory_others interval
                (flat_map (fun c => buildFactoryFragments c chainId) fs)
                (fold_left (recordLogFilterFragment interval)
                   (flat_map (fun c => buildLogFilterFragments c chainId)
                      (lfs ++ map (fun f => mkLogFilterCriteria
                                              (Some (One (fc_address f)))
                                              (Some [Some (One (fc_eventSelector f))]))
                                  fs)) s))
      as (_ & _ & _ & _ & -> & _).
    apply fold_record_intervals.
  - rewrite fold_record_factory_intervals. f_equal.
    apply (fold_record_others interval).
Qed.

(** C2, as the code has it.  Ingestion only adds the new interval row of each
    fragment to what is stored; the rows of a fragment are disjoint and
    maximally merged once a coverage query for its filter (or factory) has
    run, since the merge procedure is part of the query. *)
Theorem interval_rows_merged_by_query :
  (forall s chainId logFilter b ts ls interval,
      logFilterIntervals
        (insertLogFilterInterval s chainId logFilter b ts ls interval)
      = logFilterIntervals s
        ++ map (fun f => mkLogFilterInterval (lff_id f) (fst interval)
                           (snd interval))
               (buildLogFilterFragments logFilter chainId))
  /\ (forall s chainId factory b ts ls interval,
         factoryLogFilterIntervals
           (insertFactoryLogFilterInterval s chainId factory b ts ls interval)
         = factoryLogFilterIntervals s
           ++ map (fun f => mkFactoryLogFilterInterval (ff_id f) (fst interval)
                              (snd interval))
                  (buildFactoryFragments factory chainId))
  /\ (forall s chainId lfs fs interval,
         let s' := insertRealtimeInterval s chainId lfs fs interval in
         logFilterIntervals s'
         = logFilterIntervals s
           ++ map (fun f => mkLogFilterInterval (lff_id f) (fst interval)
                              (snd interval))
                  (flat_map (fun c => buildLogFilterFragments c chainId)
                     (lfs ++ map (fun f => mkLogFilterCriteria
                                             (Some (One (fc_address f)))
                                             (Some [Some (One (fc_eventSelector f))]))
                                 fs))
         /\ factoryLogFilterIntervals s'
            = factoryLogFilterIntervals s
              ++ map (fun f => mkFactoryLogFilterInterval (ff_id f)
                                 (fst interval) (snd interval))
                     (flat_map (fun c => buildFactoryFragments c chainId) fs))
  /\ (forall s chainId logFilter f,
         In f (buildLogFilterFragments logFilter chainId) ->
         disjoint_merged
           (rows_of (lff_id f) (fst (getLogFilterIntervals s chainId logFilter))))
  /\ (forall s chainId factory f,
         In f (buildFactoryFragments factory chainId) ->
         disjoint_merged
           (factory_rows_of (ff_id f)
              (fst (getFactoryLogFilterIntervals s chainId factory)))).
Proof.
  split; [|split; [|split; [|split]]].
  - intros. apply insertLogFilterInterval_intervals.
  - intros. apply insertFactoryLogFilterInterval_intervals.
  - intros. apply insertRealtimeInterval_intervals.
  - intros s chainId logFilter f Hf. simpl.
    now apply merged_disjoint, fold_merge_merged.
  - intros s chainId factory f Hf. simpl.
    now apply merged_disjoint, fold_merge_factory_merged.
Qed.

(** C2, as stated, fails after two ingestion calls whose intervals overlap:
    the two rows of the fragment are stored side by side. *)
Lemma ingestion_leaves_overlap :
  ~ disjoint_merged (rows_of Sample.anyLog_id Sample.store_overlap).
Proof.
  assert (E : rows_of Sample.anyLog_id Sample.store_overlap = [(0, 5); (3, 10)])
    by reflexivity.
  rewrite E. intros H.
  inversion H as [|a l Ha _]; subst.
  inversion Ha as [|b l' Hb _]; subst.
  destruct Hb as [Hb | Hb]; simpl in Hb; lia.
Qed.

(** The overlapping rows above, once the coverage query has run. *)
Lemma interval_rows_merged_by_query_witness :
  disjoint_merged
    (rows_of Sample.anyLog_id
       (fst (getLogFilterIntervals Sample.store_overlap 1 Sample.anyLog))).
Proof.
  apply (proj1 (proj2 (proj2 (proj2 interval_rows_merged_by_query)))
               Sample.store_overlap 1 Sample.anyLog
               (fragment_of 1 None None None None None)).
  simpl. left. reflexivity.
Defined.

End MergePhaseFacts.

(* ================================================================== *)
(** * Fragments and their rows in [logFilters] *)
(* ================================================================== *)

Module FragmentFacts.
Import Rows SyncStore Properties.

Lemma built_fragment_shape c chainId f :
  In f (buildLogFilterFragments c chainId) ->
  f = fragment_of chainId (lff_address f) (lff_topic0 f) (lff_topic1 f)
                  (lff_topic2 f) (lff_topic3 f).
Proof.
  unfold buildLogFilterFragments. intros H.
  repeat (apply in_flat_map in H; destruct H as [? [_ H]]).
  apply in_map_iff in H. destruct H as [? [<- _]]. reflexivity.
Qed.

Lemma built_fragment_chainId c chainId f :
  In f (buildLogFilterFragments c chainId) -> lff_chainId f = chainId.
Proof. intros H. apply built_fragment_shape in H. now rewrite H. Qed.

(** The id of a fragment names its columns: two fragments of a filter with
    the same id are the same fragment. *)
Lemma built_fragment_id_inj c chainId f g :
  In f (buildLogFilterFragments c chainId) ->
  In g (buildLogFilterFragments c chainId) ->
  lff_id g = lff_id f -> g = f.
Proof.
  intros Hf Hg. apply built_fragment_shape in Hf, Hg.
  rewrite Hf, Hg. simpl. intros H. now inversion H.
Qed.

Lemma column_matches_refl a : column_matches a a = true.
Proof. destruct a; simpl; [apply String.eqb_refl | reflexivity]. Qed.

Lemma logFilterJoin_refl f : logFilterJoin f f = true.
Proof. unfold logFilterJoin. now rewrite !column_matches_refl. Qed.

(** ** Upserts *)

Lemma settled_upsert_self f tbl : settled f (upsertLogFilter f tbl).
Proof.
  unfold settled, upsertLogFilter.
  destruct (existsb _ tbl) eqn:E.
  - split.
    + apply existsb_exists in E. destruct E as [r [Hr E]].
      apply in_map_iff. exists r. now rewrite E.
    + intros r Hr Hid. apply in_map_iff in Hr. destruct Hr as [r' [Hr' _]].
      destruct (logFilterId_eqb (lff_id r') (lff_id f)) eqn:E'; [congruence|].
      subst r'. apply EqFacts.logFilterId_eqb_neq in E'. contradiction.
  - split; [apply in_or_app; right; now left|].
    intros r Hr Hid. apply in_app_or in Hr. destruct Hr as [Hr | [<- | []]]; [|reflexivity].
    exfalso. assert (existsb (fun r => logFilterId_eqb (lff_id r) (lff_id f)) tbl = true).
    { apply existsb_exists. exists r. split; [exact Hr|].
      now apply EqFacts.logFilterId_eqb_eq. }
    congruence.
Qed.

Lemma settled_upsert_other f g tbl :
  settled f tbl -> (lff_id g = lff_id f -> g = f) ->
  settled f (upsertLogFilter g tbl).
Proof.
  intros [Hin Huniq] Hg. unfold settled, upsertLogFilter.
  destruct (existsb _ tbl) eqn:E.
  - split.
    + apply in_map_iff. exists f. split; [|exact Hin].
      destruct (logFilterId_eqb (lff_id f) (lff_id g)) eqn:E'; [|reflexivity].
      apply EqFacts.logFilterId_eqb_eq in E'. now apply Hg.
    + intros r Hr Hid. apply in_map_iff in Hr. destruct Hr as [r' [Hr' Hin']].
      destruct (logFilterId_eqb (lff_id r') (lff_id g)) eqn:E'.
      * subst r. now apply Hg.
      * subst r'. now apply Huniq.
  - split; [apply in_or_app; now left|].
    intros r Hr Hid. apply in_app_or in Hr.
    destruct Hr as [Hr | [<- | []]]; [now apply Huniq | now apply Hg].
Qed.

Lemma settled_upsert_same f tbl :
  settled f tbl -> upsertLogFilter f tbl = tbl.
Proof.
  intros [Hin Huniq]. unfold upsertLogFilter.
  assert (E : existsb (fun r => logFilterId_eqb (lff_id r) (lff_id f)) tbl = true).
  { apply existsb_exists. exists f. split; [exact Hin|].
    apply EqFacts.logFilterId_eqb_refl. }
  rewrite E. clear E Hin.
  induction tbl as [|r tbl IH]; simpl; [reflexivity|].
  rewrite IH by (intros; apply Huniq; simpl; auto).
  destruct (logFilterId_eqb (lff_id r) (lff_id f)) eqn:E; [|reflexivity].
  apply EqFacts.logFilterId_eqb_eq in E. f_equal. symmetry.
  apply Huniq; simpl; auto.
Qed.

Lemma fold_upsert_keeps_settled f : forall fragments tbl,
  (forall g, In g fragments -> lff_id g = lff_id f -> g = f) ->
  settled f tbl ->
  settled f (fold_left (fun tbl g => upsertLogFilter g tbl) fragments tbl).
Proof.
  induction fragments as [|g fragments IH]; intros tbl Hinj Hs; simpl; [exact Hs|].
  apply IH; [intros; apply Hinj; simpl; auto|].
  apply settled_upsert_other; [exact Hs|]. apply Hinj. now left.
Qed.

Lemma fold_upsert_settled f : forall fragments tbl,
  (forall g, In g fragments -> lff_id g = lff_id f -> g = f) ->
  In f fragments ->
  settled f (fold_left (fun tbl g => upsertLogFilter g tbl) fragments tbl).
Proof.
  induction fragments as [|g fragments IH]; intros tbl Hinj Hin; [destruct Hin|].
  simpl. destruct Hin as [-> | Hin].
  - apply fold_upsert_keeps_settled; [intros; apply Hinj; simpl; auto|].
    apply settled_upsert_self.
  - apply IH; [intros; apply Hinj; simpl; auto | exact Hin].
Qed.

Lemma fold_upsert_again : forall fragments tbl,
  (forall f, In f fragments -> settled f tbl) ->
  fold_left (fun tbl g => upsertLogFilter g tbl) fragments tbl = tbl.
Proof.
  induction fragments as [|g fragments IH]; intros tbl Hs; simpl; [reflexivity|].
  rewrite settled_upsert_same by (apply Hs; now left).
  apply IH. intros; apply Hs; simpl; auto.
Qed.

(** Registering the fragments of a filter a second time changes nothing. *)
Lemma fold_upsert_built_twice c chainId tbl :
  let fragments := buildLogFilterFragments c chainId in
  let upsertAll := fold_left (fun tbl g => upsertLogFilter g tbl) fragments in
  upsertAll (upsertAll tbl) = upsertAll tbl.
Proof.
  cbv zeta. apply fold_upsert_again. intros f Hf.
  apply fold_upsert_settled; [|exact Hf].
  intros g Hg. now apply (built_fragment_id_inj c chainId).
Qed.

End FragmentFacts.

(* ================================================================== *)
(** * What the coverage query returns *)
(* ================================================================== *)

Module CoverageFacts.
Import Rows SyncStore Properties.

Lemma select_spec s chainId fragments k x :
  In (k, x) (selectLogFilterIntervals s chainId fragments)
  <-> exists i r f,
        In i (logFilterIntervals s) /\ In r (logFilters s)
        /\ lff_id r = lfi_logFilterId i /\ In f fragments
        /\ logFilterJoin r f = true /\ lff_chainId r = chainId
        /\ k = lff_id f /\ x = interval_of_row i.
Proof.
  unfold selectLogFilterIntervals. rewrite in_flat_map. split.
  - intros [i [Hi H]]. apply in_flat_map in H. destruct H as [r [Hr H]].
    apply in_flat_map in H. destruct H as [f [Hf H]].
    apply filter_In in Hr. destruct Hr as [Hr Hid].
    apply EqFacts.logFilterId_eqb_eq in Hid.
    destruct (logFilterJoin r f && (lff_chainId r =? chainId)) eqn:E; [|destruct H].
    destruct H as [H | []]. inversion H; subst.
    apply andb_true_iff in E. destruct E as [Ej Ec]. apply Z.eqb_eq in Ec.
    exists i, r, f. tauto.
  - intros (i & r & f & Hi & Hr & Hid & Hf & Hj & Hc & -> & ->).
    exists i. split; [exact Hi|].
    apply in_flat_map. exists r. split.
    + apply filter_In. split; [exact Hr | now apply EqFacts.logFilterId_eqb_eq].
    + apply in_flat_map. exists f. split; [exact Hf|].
      rewrite Hj. apply Z.eqb_eq in Hc. rewrite Hc. now left.
Qed.

(** The intervals grouped under a fragment of the query cover [n] exactly
    when the coverage of one of the query's fragments of that id does. *)
Lemma group_covered s chainId fragments f n :
  Interval.covered n
    (map snd (filter (fun p => logFilterId_eqb (fst p) (lff_id f))
                     (selectLogFilterIntervals s chainId fragments)))
  <-> exists g, In g fragments /\ lff_id g = lff_id f
                /\ fragmentCoverage s chainId g n.
Proof.
  unfold Interval.covered, fragmentCoverage. split.
  - intros [x [Hx Hn]]. apply in_map_iff in Hx. destruct Hx as [[k y] [<- Hp]].
    apply filter_In in Hp. destruct Hp as [Hp Hk]. simpl in *.
    apply EqFacts.logFilterId_eqb_eq in Hk.
    apply select_spec in Hp.
    destruct Hp as (i & r & g & Hi & Hr & Hid & Hg & Hj & Hc & -> & ->).
    exists g. repeat split; auto. exists i, r. tauto.
  - intros (g & Hg & Hid & i & r & Hi & Hr & Hri & Hj & Hc & Hn).
    exists (interval_of_row i). split; [|exact Hn].
    apply in_map_iff. exists (lff_id g, interval_of_row i). split; [reflexivity|].
    apply filter_In. split.
    + apply select_spec. exists i, r, g. tauto.
    + simpl. now apply EqFacts.logFilterId_eqb_eq.
Qed.

(** The coverage of a fragment, through the rows of each id. *)
Lemma fragmentCoverage_rows s chainId f n :
  fragmentCoverage s chainId f n
  <-> exists r, In r (logFilters s) /\ logFilterJoin r f = true
                /\ lff_chainId r = chainId
                /\ Interval.covered n (rows_of (lff_id r) s).
Proof.
  unfold fragmentCoverage. split.
  - intros (i & r & Hi & Hr & Hid & Hj & Hc & Hn). exists r. repeat split; auto.
    apply (MergeRowsFacts.covered_rowsOf _ EqFacts.logFilterId_eqb_eq).
    exists i. auto.
  - intros (r & Hr & Hj & Hc & Hcov).
    apply (MergeRowsFacts.covered_rowsOf _ EqFacts.logFilterId_eqb_eq) in Hcov.
    destruct Hcov as (i & Hi & Hid & Hn). symmetry in Hid. exists i, r. tauto.
Qed.

(** The merge phase changes neither the coverage of any fragment nor which
    filter rows there are beyond the fragments it registers. *)
Lemma fragmentCoverage_merged s chainId fragments f n :
  fragmentCoverage (fold_left mergeLogFilterFragment fragments s) chainId f n
  <-> fragmentCoverage (withFragments s fragments) chainId f n.
Proof.
  rewrite !fragmentCoverage_rows.
  rewrite MergePhaseFacts.fold_merge_logFilters.
  split; intros (r & Hr & Hj & Hc & Hcov); exists r; repeat split; auto.
  - now apply MergePhaseFacts.fold_merge_covered in Hcov.
  - now apply MergePhaseFacts.fold_merge_covered.
Qed.

Lemma query_returns s chainId logFilter :
  buildLogFilterFragments logFilter chainId <> [] ->
  exists result, snd (getLogFilterIntervals s chainId logFilter) = Some result.
Proof.
  intros H. unfold getLogFilterIntervals. simpl.
  destruct (buildLogFilterFragments logFilter chainId); [contradiction|].
  eexists. reflexivity.
Qed.

Lemma query_returned s chainId logFilter result :
  snd (getLogFilterIntervals s chainId logFilter) = Some result ->
  buildLogFilterFragments logFilter chainId <> [].
Proof.
  unfold getLogFilterIntervals. simpl.
  destruct (buildLogFilterFragments logFilter chainId); [discriminate|].
  discriminate.
Qed.

Lemma query_result s chainId logFilter result :
  snd (getLogFilterIntervals s chainId logFilter) = Some result ->
  result = Interval.intervalIntersectionMany
             (logFilterFragmentIntervals
                (fst (getLogFilterIntervals s chainId logFilter)) chainId
                (buildLogFilterFragments logFilter chainId)).
Proof.
  unfold getLogFilterIntervals. cbn [fst snd].
  destruct (buildLogFilterFragments logFilter chainId); [discriminate|].
  now intros [= <-].
Qed.

(** A block number covered by the returned list is covered, for every
    fragment of the filter, by a stored interval row that joins it. *)
Lemma query_sound s chainId logFilter result n :
  snd (getLogFilterIntervals s chainId logFilter) = Some result ->
  Interval.covered n result ->
  forall f, In f (buildLogFilterFragments logFilter chainId) ->
            fragmentCoverage
              (withFragments s (buildLogFilterFragments logFilter chainId))
              chainId f n.
Proof.
  intros H Hcov f Hf. rewrite (query_result _ _ _ _ H) in Hcov.
  apply IntervalFacts.intervalIntersectionMany_sound in Hcov.
  destruct Hcov as [_ Hall].
  unfold logFilterFragmentIntervals in Hall.
  rewrite Forall_map, Forall_forall in Hall. specialize (Hall f Hf).
  apply group_covered in Hall. destruct Hall as (g & Hg & Hid & Hcov).
  assert (g = f)
    by now apply (FragmentFacts.built_fragment_id_inj logFilter chainId).
  subst g. now apply fragmentCoverage_merged.
Qed.

Lemma lists_covered s chainId logFilter n :
  (forall f, In f (buildLogFilterFragments logFilter chainId) ->
             fragmentCoverage
               (withFragments s (buildLogFilterFragments logFilter chainId))
               chainId f n) ->
  Forall (Interval.covered n)
    (logFilterFragmentIntervals
       (fst (getLogFilterIntervals s chainId logFilter)) chainId
       (buildLogFilterFragments logFilter chainId)).
Proof.
  intros Hall. unfold logFilterFragmentIntervals.
  rewrite Forall_map, Forall_forall. intros f Hf.
  apply group_covered. exists f. repeat split; auto.
  apply fragmentCoverage_merged. now apply Hall.
Qed.

(** When the selected lists are already unioned, the block numbers every
    fragment has covered are covered by the returned list. *)
Lemma query_complete s chainId logFilter result n :
  snd (getLogFilterIntervals s chainId logFilter) = Some result ->
  selectedUnioned s chainId logFilter ->
  (forall f, In f (buildLogFilterFragments logFilter chainId) ->
             fragmentCoverage
               (withFragments s (buildLogFilterFragments logFilter chainId))
               chainId f n) ->
  Interval.covered n result.
Proof.
  intros H Hm Hall. pose proof (query_returned _ _ _ _ H) as Hne.
  rewrite (query_result _ _ _ _ H).
  apply IntervalFacts.intervalIntersectionMany_complete.
  - exact Hm.
  - unfold logFilterFragmentIntervals.
    destruct (buildLogFilterFragments logFilter chainId);
      [contradiction | discriminate].
  - now apply lists_covered.
Qed.

(** A filter with one fragment gets the rows selected for it as they are:
    the returned list covers what the fragment has covered. *)
Lemma query_single s chainId logFilter f result n :
  buildLogFilterFragments logFilter chainId = [f] ->
  snd (getLogFilterIntervals s chainId logFilter) = Some result ->
  fragmentCoverage (withFragments s [f]) chainId f n ->
  Interval.covered n result.
Proof.
  intros Hf H Hcov. rewrite (query_result _ _ _ _ H).
  assert (Hl : Forall (Interval.covered n)
                 (logFilterFragmentIntervals
                    (fst (getLogFilterIntervals s chainId logFilter)) chainId
                    (buildLogFilterFragments logFilter chainId))).
  { apply lists_covered. rewrite Hf. intros g [<- | []]. exact Hcov. }
  rewrite Hf in Hl |- *. unfold logFilterFragmentIntervals in *.
  cbn [map] in *. inversion Hl; subst. assumption.
Qed.

(** C4, as the code has it.  When [getLogFilterIntervals] returns, every
    block number in the returned list is in the coverage of every fragment
    of the filter (the interval rows stored for the fragment or for a
    broader stored fragment); and when the interval lists selected for the
    fragments are each already unioned, the returned list holds exactly the
    block numbers that are in the coverage of every fragment: it is the
    intersection.  With [[0,10]] stored for topic A only and [[5,15]] for
    topic B only, the filter of both topics gets [[5,10]]; with [[0,10]]
    stored for both it gets [[0,10]]. *)
Theorem getLogFilterIntervals_intersection :
  (forall s chainId logFilter result n,
      snd (getLogFilterIntervals s chainId logFilter) = Some result ->
      Interval.covered n result ->
      forall f, In f (buildLogFilterFragments logFilter chainId) ->
                fragmentCoverage
                  (withFragments s (buildLogFilterFragments logFilter chainId))
                  chainId f n)
  /\ (forall s chainId logFilter result n,
         snd (getLogFilterIntervals s chainId logFilter) = Some result ->
         selectedUnioned s chainId logFilter ->
         (Interval.covered n result
          <-> forall f, In f (buildLogFilterFragments logFilter chainId) ->
                        fragmentCoverage
                          (withFragments s
                             (buildLogFilterFragments logFilter chainId))
                          chainId f n))
  /\ snd (getLogFilterIntervals Sample.store_S2 1 Sample.filterAB)
     = Some [(5, 10)]
  /\ snd (getLogFilterIntervals Sample.store_S2_both 1 Sample.filterAB)
     = Some [(0, 10)].
Proof.
  split; [|split; [|split]].
  - intros. now apply (query_sound s chainId logFilter result n).
  - intros s chainId logFilter result n H Hm. split.
    + intros Hcov. now apply (query_sound s chainId logFilter result n).
    + intros Hall. now apply (query_complete s chainId logFilter result n).
  - reflexivity.
  - reflexivity.
Qed.

(** C4, as stated, fails on its own example: the two fragments overlap on
    [[5,10]] and the query does not return the empty list. *)
Lemma getLogFilterIntervals_S2_not_empty :
  snd (getLogFilterIntervals Sample.store_S2 1 Sample.filterAB) <> Some [].
Proof. vm_compute. discriminate. Qed.

(** Block 7 on scenario S2, where each fragment has one interval. *)
Lemma getLogFilterIntervals_intersection_witness :
  Interval.covered 7 [(5, 10)]
  <-> forall f, In f (buildLogFilterFragments Sample.filterAB 1) ->
                fragmentCoverage
                  (withFragments Sample.store_S2
                     (buildLogFilterFragments Sample.filterAB 1))
                  1 f 7.
Proof.
  apply (proj1 (proj2 getLogFilterIntervals_intersection) Sample.store_S2 1
               Sample.filterAB [(5, 10)] 7).
  - reflexivity.
  - unfold selectedUnioned. vm_compute. repeat constructor.
Defined.

(** Scenario S1: touching intervals come back as one. *)
Example getLogFilterIntervals_S1 :
  snd (getLogFilterIntervals Sample.store_S1 1 Sample.filterA) = Some [(0, 10)].
Proof. reflexivity. Qed.

(** After [insertLogFilterInterval] for a filter with one fragment, the
    coverage query for the filter covers the inserted interval. *)
Lemma inserted_interval_covered_single s chainId logFilter f b ts ls a e :
  buildLogFilterFragments logFilter chainId = [f] ->
  forall result n,
    snd (getLogFilterIntervals
           (insertLogFilterInterval s chainId logFilter b ts ls (a, e))
           chainId logFilter) = Some result ->
    a <= n <= e -> Interval.covered n result.
Proof.
  intros Hf result n Hres Hn.
  apply (query_single _ _ _ f _ n Hf Hres).
  exists (mkLogFilterInterval (lff_id f) a e), f.
  repeat split.
  - simpl. rewrite MergePhaseFacts.insertLogFilterInterval_intervals.
    apply in_or_app. right. rewrite Hf. now left.
  - simpl. apply FragmentFacts.settled_upsert_self.
  - apply FragmentFacts.logFilterJoin_refl.
  - apply (FragmentFacts.built_fragment_chainId logFilter). rewrite Hf.
    now left.
  - simpl. lia.
  - simpl. lia.
Qed.

(** C9 fails on the code.  With [[20,30]] recorded for the filter without
    any bound slot and then [[0,10]] inserted for the filter of the two
    topics A and B, the coverage query for that filter returns [[20,30]]
    alone: the rows selected for each fragment are [[20,30]] (through the
    broader filter) followed by [[0,10]], neither sorted nor unioned, and the
    sweep passes over [[0,10]].  Block 5 of the inserted interval is in no
    returned interval. *)
Theorem inserted_interval_lost :
  snd (getLogFilterIntervals Sample.store_broad_AB 1 Sample.filterAB)
  = Some [(20, 30)]
  /\ logFilterFragmentIntervals
       (fst (getLogFilterIntervals Sample.store_broad_AB 1 Sample.filterAB)) 1
       (buildLogFilterFragments Sample.filterAB 1)
     = [[(20, 30); (0, 10)]; [(20, 30); (0, 10)]]
  /\ ~ Interval.covered 5 [(20, 30)].
Proof.
  split; [reflexivity|]. split; [reflexivity|].
  intros [i [[<- | []] Hn]]. unfold Interval.inside in Hn. simpl in Hn. lia.
Qed.

End CoverageFacts.


(* ================================================================== *)
(** * Stores that differ by repeated interval rows *)
(* ================================================================== *)

Module RepeatedRowsFacts.
Import Rows SyncStore Properties Repeats.

Local Abbreviation lf_rows :=
  (MergeRows.rowsOf logFilterId_eqb lfi_logFilterId interval_of_row).
Local Abbreviation lf_merge :=
  (MergeRows.mergeId logFilterId_eqb lfi_logFilterId interval_of_row
     (fun id x => mkLogFilterInterval id (fst x) (snd x))).
Local Abbreviation untouched ids :=
  (fun i => negb (existsb (logFilterId_eqb (lfi_logFilterId i)) ids)).

Lemma fold_merge_intervals : forall fragments s,
  logFilterIntervals (fold_left mergeLogFilterFragment fragments s)
  = fold_left (fun T f => lf_merge (lff_id f) T) fragments
              (logFilterIntervals s).
Proof.
  induction fragments as [|f fragments IH]; intros s; [reflexivity|].
  cbn [fold_left]. now rewrite IH, MergePhaseFacts.merge_table.
Qed.

Lemma map_filter_flat_map {A B C} (g : A -> list B) (p : B -> bool)
  (v : B -> C) l :
  map v (filter p (flat_map g l))
  = flat_map (fun a => map v (filter p (g a))) l.
Proof.
  induction l as [|a l IH]; simpl; [reflexivity|].
  now rewrite filter_app, map_app, IH.
Qed.

Lemma Forall2_map_same {A B} (R : B -> B -> Prop) (f g : A -> B) l :
  (forall x, R (f x) (g x)) -> Forall2 R (map f l) (map g l).
Proof. intros H. induction l; simpl; constructor; auto. Qed.

(** The lists selected for the fragments, from two stores with the same
    filter rows whose interval tables differ by repeated rows. *)
Lemma selected_stutter s s' chainId fragments :
  logFilters s' = logFilters s ->
  stutter (logFilterIntervals s) (logFilterIntervals s') ->
  Forall2 stutter (logFilterFragmentIntervals s chainId fragments)
                  (logFilterFragmentIntervals s' chainId fragments).
Proof.
  intros Hlf Hst. unfold logFilterFragmentIntervals.
  apply Forall2_map_same. intros f.
  unfold selectLogFilterIntervals. rewrite Hlf, !map_filter_flat_map.
  apply (StutterFacts.stutter_flat_map _ interval_of_row); [|exact Hst].
  intros i. apply StutterFacts.all_repeat. intros y Hy.
  apply in_map_iff in Hy. destruct Hy as [[k x] [<- Hp]].
  apply filter_In in Hp. destruct Hp as [Hp _].
  apply in_flat_map in Hp. destruct Hp as [r [_ Hp]].
  apply in_flat_map in Hp. destruct Hp as [g [_ Hp]].
  destruct (logFilterJoin r g && (lff_chainId r =? chainId)); [|destruct Hp].
  destruct Hp as [Hp | []]. now inversion Hp.
Qed.

(** Two stores with the same filter rows whose interval tables, once the
    merge phase has run, differ by repeated rows: the coverage query covers
    the same block numbers on both. *)
Lemma results_stutter s s' chainId q r r' n :
  snd (getLogFilterIntervals s chainId q) = Some r ->
  snd (getLogFilterIntervals s' chainId q) = Some r' ->
  logFilters (fst (getLogFilterIntervals s' chainId q))
  = logFilters (fst (getLogFilterIntervals s chainId q)) ->
  stutter (logFilterIntervals (fst (getLogFilterIntervals s chainId q)))
          (logFilterIntervals (fst (getLogFilterIntervals s' chainId q))) ->
  (Interval.covered n r' <-> Interval.covered n r).
Proof.
  intros H H' Hlf Hst.
  rewrite (CoverageFacts.query_result _ _ _ _ H),
    (CoverageFacts.query_result _ _ _ _ H').
  symmetry. apply StutterFacts.stutter_covered.
  apply StutterFacts.intervalIntersectionMany_stutter.
  now apply selected_stutter.
Qed.

(** The interval table after the merge phase, as a run of merges of the
    fragment ids. *)
Lemma merged_intervals s chainId q :
  logFilterIntervals (fst (getLogFilterIntervals s chainId q))
  = fold_left (fun T f => lf_merge (lff_id f) T)
              (buildLogFilterFragments q chainId) (logFilterIntervals s).
Proof. unfold getLogFilterIntervals. cbn [fst]. apply fold_merge_intervals. Qed.

Lemma merged_logFilters s chainId q :
  logFilters (fst (getLogFilterIntervals s chainId q))
  = fold_left (fun tbl f => upsertLogFilter f tbl)
              (buildLogFilterFragments q chainId) (logFilters s).
Proof.
  unfold getLogFilterIntervals. cbn [fst].
  apply MergePhaseFacts.fold_merge_logFilters.
Qed.

End RepeatedRowsFacts.
(* ================================================================== *)
(** * Replaying an ingestion call *)
(* ================================================================== *)

Module ReplayFacts.
Import Rows SyncStore Properties.

(** Inserts that ignore a key conflict: a second pass over the same rows
    finds every key taken. *)
Section IgnoreOnConflict.
Context {A B : Type}.
Variable same_key : A -> A -> bool.
Variable ins : A -> list A -> list A.
Variable conv : B -> A.
Hypothesis ins_def : forall a tbl,
  ins a tbl = if existsb (fun a' => same_key a' a) tbl then tbl else tbl ++ [a].
Hypothesis same_key_refl : forall a, same_key a a = true.

Lemma ins_keeps a b tbl :
  existsb (fun a' => same_key a' a) tbl = true ->
  existsb (fun a' => same_key a' a) (ins b tbl) = true.
Proof.
  intros H. rewrite ins_def.
  destruct (existsb (fun a' => same_key a' b) tbl); [exact H|].
  rewrite existsb_app, H. reflexivity.
Qed.

Lemma ins_has a tbl : existsb (fun a' => same_key a' a) (ins a tbl) = true.
Proof.
  rewrite ins_def. destruct (existsb _ tbl) eqn:E; [exact E|].
  rewrite existsb_app. simpl. rewrite same_key_refl. apply orb_true_r.
Qed.

Lemma fold_ins_keeps a : forall l tbl,
  existsb (fun a' => same_key a' a) tbl = true ->
  existsb (fun a' => same_key a' a)
          (fold_left (fun tbl x => ins (conv x) tbl) l tbl) = true.
Proof.
  induction l as [|x l IH]; intros tbl H; simpl; [exact H|].
  apply IH. now apply ins_keeps.
Qed.

Lemma fold_ins_has : forall l tbl x,
  In x l ->
  existsb (fun a' => same_key a' (conv x))
          (fold_left (fun tbl x => ins (conv x) tbl) l tbl) = true.
Proof.
  induction l as [|y l IH]; intros tbl x Hx; [destruct Hx|].
  simpl. destruct Hx as [-> | Hx]; [|now apply IH].
  apply fold_ins_keeps, ins_has.
Qed.

Lemma fold_ins_present : forall l tbl,
  (forall x, In x l -> existsb (fun a' => same_key a' (conv x)) tbl = true) ->
  fold_left (fun tbl x => ins (conv x) tbl) l tbl = tbl.
Proof.
  induction l as [|y l IH]; intros tbl H; simpl; [reflexivity|].
  rewrite ins_def, (H y) by now left.
  apply IH. intros x Hx. apply H. now right.
Qed.

Lemma fold_ins_twice l tbl :
  fold_left (fun tbl x => ins (conv x) tbl) l
            (fold_left (fun tbl x => ins (conv x) tbl) l tbl)
  = fold_left (fun tbl x => ins (conv x) tbl) l tbl.
Proof. apply fold_ins_present. intros x Hx. now apply fold_ins_has. Qed.

End IgnoreOnConflict.

Lemma insertBlock_twice b tbl :
  insertBlock b (insertBlock b tbl) = insertBlock b tbl.
Proof.
  apply (fold_ins_twice (fun a' a => String.eqb (block_hash a') (block_hash a))
           insertBlock (fun x : Block => x)) with (l := [b]);
    [reflexivity | intros; apply String.eqb_refl].
Qed.

Lemma insertTransactions_twice chainId ts tbl :
  fold_left (fun tbl t => insertTransaction (tx_on chainId t) tbl) ts
    (fold_left (fun tbl t => insertTransaction (tx_on chainId t) tbl) ts tbl)
  = fold_left (fun tbl t => insertTransaction (tx_on chainId t) tbl) ts tbl.
Proof.
  apply (fold_ins_twice (fun a' a => String.eqb (tx_hash a') (tx_hash a))
           insertTransaction (tx_on chainId));
    [reflexivity | intros; apply String.eqb_refl].
Qed.

Lemma insertLogs_twice chainId ls tbl :
  fold_left (fun tbl l => insertLog (log_on chainId l) tbl) ls
    (fold_left (fun tbl l => insertLog (log_on chainId l) tbl) ls tbl)
  = fold_left (fun tbl l => insertLog (log_on chainId l) tbl) ls tbl.
Proof.
  apply (fold_ins_twice (fun a' a => String.eqb (log_id a') (log_id a))
           insertLog (log_on chainId));
    [reflexivity | intros; apply String.eqb_refl].
Qed.

(** The raw tables after a replay of the raw inserts, whatever happened to
    the other tables in between. *)
Lemma insertRawRows_replay s s1 chainId b ts ls :
  blocks s1 = blocks (insertRawRows s chainId b ts ls) ->
  transactions s1 = transactions (insertRawRows s chainId b ts ls) ->
  logs s1 = logs (insertRawRows s chainId b ts ls) ->
  let s2 := insertRawRows s1 chainId b ts ls in
  blocks s2 = blocks s1 /\ transactions s2 = transactions s1
  /\ logs s2 = logs s1 /\ logFilters s2 = logFilters s1
  /\ logFilterIntervals s2 = logFilterIntervals s1
  /\ factories s2 = factories s1
  /\ factoryLogFilterIntervals s2 = factoryLogFilterIntervals s1
  /\ rpcRequestResults s2 = rpcRequestResults s1.
Proof.
  intros Hb Ht Hl. simpl in *. rewrite Hb, Ht, Hl.
  rewrite insertBlock_twice, insertTransactions_twice, insertLogs_twice.
  repeat split; reflexivity.
Qed.

(** C7, as the code has it.  A second [insertLogFilterInterval] with the
    same arguments leaves the blocks, transactions, logs and filter rows (and
    every factory and rpc row) as the first call left them; it adds the
    interval row of each fragment once more, and the coverage query for the
    filter covers the same block numbers after two calls as after one. *)
Theorem insertLogFilterInterval_replay s chainId logFilter b ts ls interval :
  let s1 := insertLogFilterInterval s chainId logFilter b ts ls interval in
  let s2 := insertLogFilterInterval s1 chainId logFilter b ts ls interval in
  blocks s2 = blocks s1 /\ transactions s2 = transactions s1
  /\ logs s2 = logs s1 /\ logFilters s2 = logFilters s1
  /\ factories s2 = factories s1
  /\ factoryLogFilterIntervals s2 = factoryLogFilterIntervals s1
  /\ rpcRequestResults s2 = rpcRequestResults s1
  /\ logFilterIntervals s2
     = logFilterIntervals s1
       ++ map (fun f => mkLogFilterInterval (lff_id f) (fst interval)
                          (snd interval))
              (buildLogFilterFragments logFilter chainId)
  /\ (forall r1 r2 n,
         snd (getLogFilterIntervals s1 chainId logFilter) = Some r1 ->
         snd (getLogFilterIntervals s2 chainId logFilter) = Some r2 ->
         (Interval.covered n r2 <-> Interval.covered n r1)).
Proof.
  cbv zeta.
  set (s1 := insertLogFilterInterval s chainId logFilter b ts ls interval).
  set (s2 := insertLogFilterInterval s1 chainId logFilter b ts ls interval).
  set (fragments := buildLogFilterFragments logFilter chainId).
  assert (Hfr : flat_map (fun c => buildLogFilterFragments c chainId) [logFilter]
                = fragments) by (simpl; apply app_nil_r).
  destruct (MergePhaseFacts.fold_record_others interval fragments
              (insertRawRows s chainId b ts ls))
    as (Hb1 & Ht1 & Hl1 & Hf1 & Hfi1 & Hr1).
  assert (Hs1 : s1 = fold_left (recordLogFilterFragment interval) fragments
                       (insertRawRows s chainId b ts ls)).
  { unfold s1, insertLogFilterInterval, _insertLogFilterInterval.
    now rewrite Hfr. }
  rewrite <- Hs1 in Hb1, Ht1, Hl1, Hf1, Hfi1, Hr1.
  destruct (insertRawRows_replay s s1 chainId b ts ls Hb1 Ht1 Hl1)
    as (Rb & Rt & Rl & Rlf & Rli & Rf & Rfi & Rr).
  destruct (MergePhaseFacts.fold_record_others interval fragments
              (insertRawRows s1 chainId b ts ls))
    as (Hb2 & Ht2 & Hl2 & Hf2 & Hfi2 & Hr2).
  assert (Hs2 : s2 = fold_left (recordLogFilterFragment interval) fragments
                       (insertRawRows s1 chainId b ts ls)).
  { unfold s2, insertLogFilterInterval, _insertLogFilterInterval.
    now rewrite Hfr. }
  rewrite <- Hs2 in Hb2, Ht2, Hl2, Hf2, Hfi2, Hr2.
  assert (Hlf : logFilters s2 = logFilters s1).
  { rewrite Hs2, MergePhaseFacts.fold_record_logFilters, Rlf.
    rewrite Hs1, MergePhaseFacts.fold_record_logFilters.
    apply FragmentFacts.fold_upsert_built_twice. }
  assert (Hli : logFilterIntervals s2
                = logFilterIntervals s1
                  ++ map (fun f => mkLogFilterInterval (lff_id f) (fst interval)
                                     (snd interval)) fragments).
  { apply MergePhaseFacts.insertLogFilterInterval_intervals. }
  do 8 (split; [congruence|]).
  intros r1 r2 n H1 H2.
  apply (RepeatedRowsFacts.results_stutter s1 s2 chainId logFilter r1 r2 n H1 H2).
  { rewrite !RepeatedRowsFacts.merged_logFilters. now rewrite Hlf. }
  rewrite !RepeatedRowsFacts.merged_intervals. fold fragments.
  assert (Hrows : forall id,
            MergeRows.rowsOf logFilterId_eqb lfi_logFilterId interval_of_row id
              (map (fun f => mkLogFilterInterval (lff_id f) (fst interval)
                                (snd interval)) fragments)
            = repeat interval
                (List.length
                   (MergeRows.rowsOf logFilterId_eqb lfi_logFilterId
                      interval_of_row id
                      (map (fun f => mkLogFilterInterval (lff_id f)
                                       (fst interval) (snd interval))
                           fragments)))).
  { intros id. apply StutterFacts.all_repeat. intros y Hy.
    unfold MergeRows.rowsOf in Hy. apply in_map_iff in Hy.
    destruct Hy as [i [<- Hi]]. apply filter_In in Hi. destruct Hi as [Hi _].
    apply in_map_iff in Hi. destruct Hi as [f [<- _]].
    destruct interval. reflexivity. }
  apply (MergeRowsFacts.fold_merge_stutter logFilterId_eqb
           EqFacts.logFilterId_eqb_eq lfi_logFilterId interval_of_row
           (fun id x => mkLogFilterInterval id (fst x) (snd x))).
  - reflexivity.
  - intros id [a e]; reflexivity.
  - rewrite Hli, filter_app.
    rewrite (MergeRowsFacts.filter_nothing _ (map _ fragments)).
    + rewrite app_nil_r. apply StutterFacts.stutter_refl.
    + intros i Hi. apply in_map_iff in Hi. destruct Hi as [f [<- Hf]].
      simpl. apply negb_false_iff, existsb_exists.
      exists (lff_id f). split; [now apply in_map|].
      apply EqFacts.logFilterId_eqb_refl.
  - intros id _. apply StutterFacts.intervalUnion_stutter.
    rewrite Hli. unfold s1 at 1 2.
    rewrite MergePhaseFacts.insertLogFilterInterval_intervals. fold fragments.
    rewrite !(MergeRowsFacts.rowsOf_app logFilterId_eqb lfi_logFilterId
                interval_of_row).
    rewrite <- app_assoc. apply StutterFacts.stutter_app_l.
    rewrite Hrows, <- repeat_app. apply StutterFacts.stutter_repeat.
Qed.

(** C7, as stated, fails on the empty store: the second call stores a second
    interval row. *)
Lemma insertLogFilterInterval_twice_differs :
  insertLogFilterInterval
    (insertLogFilterInterval empty 1 Sample.anyLog Sample.block1 [] [] (0, 10))
    1 Sample.anyLog Sample.block1 [] [] (0, 10)
  <> insertLogFilterInterval empty 1 Sample.anyLog Sample.block1 [] [] (0, 10).
Proof.
  intros H. apply (f_equal logFilterIntervals) in H. vm_compute in H.
  discriminate.
Qed.

(** The replay on the empty store, at block 4. *)
Lemma insertLogFilterInterval_replay_witness :
  Interval.covered 4 [(0, 10)] <-> Interval.covered 4 [(0, 10)].
Proof.
  apply (proj2 (proj2 (proj2 (proj2 (proj2 (proj2 (proj2 (proj2
           (insertLogFilterInterval_replay empty 1 Sample.anyLog Sample.block1
              [] [] (0, 10))))))))) [(0, 10)] [(0, 10)] 4); reflexivity.
Defined.

End ReplayFacts.

(* ================================================================== *)
(** * The ordering of events and the cursor *)
(* ================================================================== *)

Module OrderFacts.
Import Rows Events Properties.

Lemma key_ltb_lex a b :
  key_ltb a b = true
  <-> cur_timestamp a < cur_timestamp b
      \/ (cur_timestamp a = cur_timestamp b
          /\ (cur_chainId a < cur_chainId b
              \/ (cur_chainId a = cur_chainId b
                  /\ (cur_blockNumber a < cur_blockNumber b
                      \/ (cur_blockNumber a = cur_blockNumber b
                          /\ cur_logIndex a < cur_logIndex b))))).
Proof.
  unfold key_ltb.
  rewrite !orb_true_iff, !andb_true_iff, !orb_true_iff, !andb_true_iff,
    !orb_true_iff, !andb_true_iff, !Z.ltb_lt, !Z.eqb_eq.
  reflexivity.
Qed.

Lemma key_ltb_false a b :
  key_ltb a b = false <-> ~ key_ltb a b = true.
Proof. destruct (key_ltb a b); split; congruence. Qed.

Ltac key_order :=
  repeat match goal with
         | H : key_lt _ _ |- _ => unfold key_lt in H
         | H : key_ltb _ _ = false |- _ => apply key_ltb_false in H
         | H : context [key_ltb _ _ = true] |- _ => rewrite key_ltb_lex in H
         | |- key_lt _ _ => unfold key_lt
         | |- key_ltb _ _ = false => apply key_ltb_false
         | |- context [key_ltb _ _ = true] => rewrite key_ltb_lex
         end;
  try lia.

Lemma key_lt_irrefl a : key_ltb a a = false.
Proof. key_order. Qed.

Lemma key_lt_trans a b c : key_lt a b -> key_lt b c -> key_lt a c.
Proof. intros. key_order. Qed.

Lemma key_le_lt_trans a b c :
  key_ltb b a = false -> key_lt b c -> key_lt a c.
Proof. intros. key_order. Qed.

Lemma key_le_trans a b c :
  key_ltb b a = false -> key_ltb c b = false -> key_ltb c a = false.
Proof. intros. key_order. Qed.

Lemma key_lt_le a b : key_lt a b -> key_ltb b a = false.
Proof. intros. key_order. Qed.

Lemma key_trichotomy a b :
  key_ltb a b = false -> key_ltb b a = false -> a = b.
Proof.
  intros H1 H2. destruct a as [t c n l], b as [t' c' n' l'].
  key_order. simpl in *.
  assert (t = t') by lia. assert (c = c') by lia.
  assert (n = n') by lia. assert (l = l') by lia. now subst.
Qed.

(** The nested [and]/[or] chain of the cursor clause is the strict
    lexicographic comparison with the cursor. *)
Lemma le_then_lt_or (x y : Z) (rest : bool) :
  (x <=? y) && ((x <? y) || rest) = (x <? y) || ((x =? y) && rest).
Proof.
  destruct (Z.leb_spec x y), (Z.ltb_spec x y), (Z.eqb_spec x y);
    simpl; try reflexivity; try lia; now destruct rest.
Qed.

Lemma cursorWhere_lex cursor r b :
  row_block r = Some b ->
  cursorWhere cursor r = key_ltb cursor (row_key r).
Proof.
  intros Hb. unfold cursorWhere, key_ltb, row_key, and_, or_, block_cmp.
  simpl. rewrite Hb. simpl.
  rewrite !andb_true_r, !orb_false_r.
  now rewrite !le_then_lt_or.
Qed.

Lemma cursorWhere_no_block cursor r :
  row_block r = None -> cursorWhere cursor r = false.
Proof.
  intros Hb. unfold cursorWhere, and_, block_cmp. simpl. now rewrite Hb.
Qed.

(** ** Sorting *)

Lemma insertRow_perm r l : Permutation (insertRow r l) (r :: l).
Proof.
  induction l as [|r' l IH]; simpl; [reflexivity|].
  destruct (key_ltb (row_key r') (row_key r)); [|reflexivity].
  rewrite IH. apply perm_swap.
Qed.

Lemma orderBy_perm l : Permutation (orderBy l) l.
Proof.
  induction l as [|r l IH]; simpl; [reflexivity|].
  rewrite insertRow_perm. now constructor.
Qed.

Lemma orderBy_length l : List.length (orderBy l) = List.length l.
Proof. apply Permutation_length, orderBy_perm. Qed.

(** Ascending, ties allowed. *)
Local Abbreviation ascending :=
  (StronglySorted (fun a b => key_ltb (row_key b) (row_key a) = false)).

Lemma insertRow_ascending r l : ascending l -> ascending (insertRow r l).
Proof.
  induction 1 as [|r' l Hl IH Hr']; simpl.
  - repeat constructor.
  - destruct (key_ltb (row_key r') (row_key r)) eqn:E.
    + constructor; [exact IH|].
      rewrite Forall_forall in *. intros x Hx.
      apply (Permutation_in _ (insertRow_perm r l)) in Hx.
      destruct Hx as [<- | Hx]; [now apply key_lt_le | now apply Hr'].
    + constructor; [now constructor|].
      constructor; [exact E|].
      rewrite Forall_forall in *. intros x Hx. specialize (Hr' x Hx).
      eapply key_le_trans; eauto.
Qed.

Lemma orderBy_ascending l : ascending (orderBy l).
Proof.
  induction l; simpl; [constructor | now apply insertRow_ascending].
Qed.

Lemma filter_sorted {A} (R : A -> A -> Prop) p l :
  StronglySorted R l -> StronglySorted R (filter p l).
Proof.
  induction 1 as [|a l Hl IH Ha]; simpl; [constructor|].
  destruct (p a); [|exact IH].
  constructor; [exact IH|].
  rewrite Forall_forall in *. intros x Hx. apply filter_In in Hx.
  now apply Ha.
Qed.

Lemma insertRow_head r l :
  Forall (fun x => key_ltb (row_key x) (row_key r) = false) l ->
  insertRow r l = r :: l.
Proof.
  destruct l as [|r' l]; intros H; simpl; [reflexivity|].
  inversion H; subst. now rewrite H2.
Qed.

(** A [where] clause can be applied before or after the ordering. *)
Lemma insertRow_filter p r l :
  ascending l ->
  filter p (insertRow r l)
  = if p r then insertRow r (filter p l) else filter p l.
Proof.
  induction 1 as [|r' l Hl IH Hr']; simpl.
  - destruct (p r); reflexivity.
  - destruct (key_ltb (row_key r') (row_key r)) eqn:E; simpl.
    + rewrite IH. destruct (p r'), (p r); simpl; try reflexivity.
      now rewrite E.
    + destruct (p r) eqn:Hp; [|reflexivity].
      symmetry. apply (insertRow_head r (filter p (r' :: l))).
      apply Forall_forall. intros x Hx. apply filter_In in Hx.
      destruct Hx as [[<- | Hx] _]; [exact E|].
      rewrite Forall_forall in Hr'. specialize (Hr' x Hx).
      eapply key_le_trans; eauto.
Qed.

Lemma orderBy_filter p l : orderBy (filter p l) = filter p (orderBy l).
Proof.
  induction l as [|r l IH]; simpl; [reflexivity|].
  rewrite insertRow_filter by apply orderBy_ascending.
  destruct (p r); simpl; now rewrite IH.
Qed.

Lemma filter_andb {A} (p q : A -> bool) l :
  filter (fun x => p x && q x) l = filter q (filter p l).
Proof.
  induction l as [|a l IH]; simpl; [reflexivity|].
  destruct (p a); simpl; [|exact IH].
  destruct (q a); now rewrite IH.
Qed.

Lemma filter_narrow {A} (p q : A -> bool) l :
  (forall x, In x l -> p x = true -> q x = true) ->
  filter p (filter q l) = filter p l.
Proof.
  induction l as [|a l IH]; intros H; simpl; [reflexivity|].
  rewrite <- IH by (intros; apply H; simpl; auto).
  destruct (q a) eqn:Hq; simpl; [reflexivity|].
  destruct (p a) eqn:Hp; [|reflexivity].
  rewrite (H a) in Hq; simpl; auto. discriminate.
Qed.

Lemma filter_drops {A} (p : A -> bool) l a :
  In a l -> p a = false -> (List.length (filter p l) < List.length l)%nat.
Proof.
  induction l as [|b l IH]; intros Hin Hp; [destruct Hin|].
  simpl. destruct Hin as [-> | Hin].
  - rewrite Hp. pose proof (filter_length_le p l). lia.
  - specialize (IH Hin Hp). destruct (p b); simpl; lia.
Qed.

(** Distinct keys make ascending strict. *)
Lemma ascending_strict l :
  NoDup (map row_key l) -> ascending l -> strictly_ascending l.
Proof.
  intros Hnd Hs. unfold strictly_ascending.
  induction Hs as [|a l Hl IH Ha]; [constructor|].
  simpl in Hnd. inversion Hnd as [|? ? Hna Hnd']; subst.
  constructor; [now apply IH|].
  rewrite Forall_forall in *. intros x Hx. specialize (Ha x Hx).
  unfold key_lt. destruct (key_ltb (row_key a) (row_key x)) eqn:E; [reflexivity|].
  exfalso. apply Hna. rewrite (key_trichotomy _ _ E Ha).
  now apply in_map.
Qed.

Lemma strictly_ascending_NoDup l : strictly_ascending l -> NoDup l.
Proof.
  induction 1 as [|a l Hl IH Ha]; constructor; [|exact IH].
  intros Hin. rewrite Forall_forall in Ha. specialize (Ha a Hin).
  unfold key_lt in Ha. now rewrite key_lt_irrefl in Ha.
Qed.

(** In a strictly ascending list, the rows after the key of a row are the
    rows that follow it. *)
Lemma after_last_is_rest front r rest :
  strictly_ascending (front ++ r :: rest) ->
  filter (fun x => key_ltb (row_key r) (row_key x)) (front ++ r :: rest) = rest.
Proof.
  unfold strictly_ascending. induction front as [|a front IH]; simpl; intros H.
  - rewrite key_lt_irrefl. inversion H as [|? ? _ Hr]; subst.
    apply forallb_filter_id, forallb_forall. intros x Hx.
    rewrite Forall_forall in Hr. now apply Hr.
  - inversion H as [|? ? Hs Ha]; subst.
    rewrite Forall_forall in Ha.
    assert (Har : key_lt (row_key a) (row_key r))
      by (apply Ha, in_or_app; right; now left).
    apply key_lt_le in Har. rewrite Har. now apply IH.
Qed.

Lemma lastRow_nil : lastRow [] = None.
Proof. reflexivity. Qed.

Lemma lastRow_snoc front r : lastRow (front ++ [r]) = Some r.
Proof. unfold lastRow. rewrite map_app. simpl. apply last_last. Qed.

Lemma lastRow_some rows :
  rows <> [] -> exists front r, rows = front ++ [r] /\ lastRow rows = Some r.
Proof.
  intros H. destruct (exists_last H) as [front [r ->]].
  exists front, r. split; [reflexivity | apply lastRow_snoc].
Qed.

Lemma in_firstn {A} n (l : list A) x : In x (firstn n l) -> In x l.
Proof.
  revert l. induction n as [|n IH]; intros [|a l]; simpl; try tauto.
  intros [H|H]; [now left | right; now apply IH].
Qed.

End OrderFacts.

(* ================================================================== *)
(** * The pages of [getLogEvents] *)
(* ================================================================== *)

Module PaginationFacts.
Import Rows Events Properties OrderFacts.

Lemma timestampWhere_block q r :
  timestampWhere q r = true -> exists b, row_block r = Some b.
Proof.
  unfold timestampWhere, and_, block_cmp. simpl.
  destruct (row_block r) as [b|]; [eauto | discriminate].
Qed.

(** A page query is the first [pageSize] rows, in order, of the matching
    rows strictly after the cursor. *)
Lemma requestedLogs_sorted s q cursor :
  requestedLogs s q cursor
  = firstn (pageSize q)
      (filter (afterCursor cursor) (orderBy (matchingRows s q))).
Proof.
  unfold requestedLogs, matchingRows.
  rewrite (filter_andb (fun r => timestampWhere q r && includedWhere s q r)).
  rewrite orderBy_filter. f_equal.
  apply filter_ext_in. intros r Hr.
  destruct cursor as [c|]; [|reflexivity]. simpl.
  apply (Permutation_in _ (orderBy_perm _)) in Hr.
  apply filter_In in Hr. destruct Hr as [_ Hr].
  apply andb_true_iff in Hr. destruct Hr as [Hr _].
  apply timestampWhere_block in Hr. destruct Hr as [b Hb].
  now apply cursorWhere_lex with (b := b).
Qed.

Lemma afterCursor_next cursor r x :
  afterCursor cursor r = true ->
  afterCursor (Some (row_key r)) x = true ->
  afterCursor cursor x = true.
Proof.
  destruct cursor as [c|]; simpl; [|reflexivity].
  intros H1 H2. now apply (key_lt_trans c (row_key r)).
Qed.

Lemma firstn_short {A} n (l : list A) :
  (List.length (firstn n l) < n)%nat -> firstn n l = l.
Proof.
  intros H. apply firstn_all2. rewrite length_firstn in H. lia.
Qed.

Lemma firstn_full {A} n (l : list A) :
  ~ (List.length (firstn n l) < n)%nat -> List.length (firstn n l) = n.
Proof. rewrite length_firstn. lia. Qed.

Lemma decodes_matching s q r :
  In r (matchingRows s q) -> row_tx r <> None -> decodes r = true.
Proof.
  intros Hr Ht. apply filter_In in Hr. destruct Hr as [_ Hr].
  apply andb_true_iff in Hr. destruct Hr as [Hr _].
  apply timestampWhere_block in Hr. destruct Hr as [b Hb].
  unfold decodes. rewrite Hb. destruct (row_tx r); [reflexivity | contradiction].
Qed.

Lemma requestedLogs_matching s q cursor r :
  In r (requestedLogs s q cursor) ->
  In r (matchingRows s q) /\ afterCursor cursor r = true.
Proof.
  rewrite requestedLogs_sorted. intros H.
  apply in_firstn, filter_In in H. destruct H as [H1 H2].
  split; [|exact H2]. now apply (Permutation_in _ (orderBy_perm _)).
Qed.

(** When the transaction of every selected row is stored, every page
    query gives rows whose events can be built. *)
Lemma requestedLogs_decode s q cursor :
  transactionsStored s q -> forallb decodes (requestedLogs s q cursor) = true.
Proof.
  intros Ht. apply forallb_forall. intros r Hr.
  apply requestedLogs_matching in Hr. destruct Hr as [Hr _].
  apply (decodes_matching s q); [exact Hr | now apply Ht].
Qed.

(** The loop returns within [fuel] queries when fewer than [fuel] rows are
    left after the cursor and the transactions of the selected rows are
    stored; every page carries the counts it was given; and when the
    matching rows are strictly ascending, the pages together are the rows
    after the cursor. *)
Lemma pagesLoop_runs s q ec :
  (0 < pageSize q)%nat ->
  transactionsStored s q ->
  forall fuel cursor,
    (List.length (filter (afterCursor cursor) (orderBy (matchingRows s q)))
     < fuel)%nat ->
    exists pages,
      pagesLoop fuel s q ec cursor = Pages pages
      /\ pages <> []
      /\ Forall (fun p => counts (metadata p) = ec) pages
      /\ (strictly_ascending (orderBy (matchingRows s q)) ->
          allEvents pages
          = filter (afterCursor cursor) (orderBy (matchingRows s q))).
Proof.
  intros Hn Htx. set (R := orderBy (matchingRows s q)).
  induction fuel as [|fuel IH]; intros cursor Hlen; [lia|].
  simpl. rewrite (requestedLogs_decode s q cursor Htx).
  rewrite requestedLogs_sorted. fold R.
  set (rest := filter (afterCursor cursor) R) in *.
  set (rows := firstn (pageSize q) rest).
  destruct (List.length rows <? pageSize q)%nat eqn:E.
  - apply Nat.ltb_lt in E. eexists. split; [reflexivity|].
    split; [discriminate|]. split; [repeat constructor|].
    intros _. unfold allEvents. simpl. rewrite app_nil_r.
    now apply firstn_short.
  - apply Nat.ltb_ge in E.
    assert (Hfull : List.length rows = pageSize q) by (unfold rows in *; apply firstn_full; lia).
    assert (Hne : rows <> []) by (intros H0; rewrite H0 in Hfull; simpl in Hfull; lia).
    destruct (lastRow_some rows Hne) as (front & r & Hrows & Hlast).
    rewrite Hlast.
    assert (Hsplit : rest = front ++ r :: skipn (pageSize q) rest).
    { rewrite <- (firstn_skipn (pageSize q) rest) at 1. fold rows.
      rewrite Hrows, <- app_assoc. reflexivity. }
    assert (Hr : In r rest).
    { rewrite Hsplit. apply in_or_app. right. now left. }
    assert (Hrc : afterCursor cursor r = true).
    { unfold rest in Hr. apply filter_In in Hr. tauto. }
    assert (Hnext : filter (afterCursor (Some (row_key r))) R
                    = filter (afterCursor (Some (row_key r))) rest).
    { unfold rest. symmetry. apply filter_narrow.
      intros x _. now apply afterCursor_next. }
    destruct (IH (Some (row_key r))) as (pages & Hp & _ & Hc & Hev).
    { rewrite Hnext.
      assert (List.length (filter (afterCursor (Some (row_key r))) rest)
              < List.length rest)%nat.
      { apply filter_drops with (a := r); [exact Hr|].
        simpl. apply key_lt_irrefl. }
      lia. }
    rewrite Hp. simpl. eexists. split; [reflexivity|].
    split; [discriminate|]. split; [constructor; [reflexivity | exact Hc]|].
    intros Hstrict. unfold allEvents in *. simpl. rewrite (Hev Hstrict), Hnext.
    assert (Hrest : strictly_ascending rest)
      by (apply filter_sorted; exact Hstrict).
    rewrite Hsplit in Hrest.
    rewrite Hsplit at 1.
    change (filter (afterCursor (Some (row_key r))))
      with (filter (fun x => key_ltb (row_key r) (row_key x))).
    rewrite (after_last_is_rest front r _ Hrest).
    fold rows. apply firstn_skipn.
Qed.

Lemma matching_length s q :
  List.length (filter (afterCursor None) (orderBy (matchingRows s q)))
  = List.length (matchingRows s q).
Proof.
  rewrite forallb_filter_id by (apply forallb_forall; reflexivity).
  apply orderBy_length.
Qed.

(** [getLogEvents] returns at least one page, within one query more than
    there are matching rows, when there is an event source, the page size is
    positive and the transactions of the selected rows are stored. *)
Lemma getLogEvents_returns s q :
  eventSourceNames q <> [] -> (0 < pageSize q)%nat ->
  transactionsStored s q ->
  exists pages,
    getLogEvents (S (List.length (matchingRows s q))) s q = Pages pages
    /\ pages <> []
    /\ (strictly_ascending (orderBy (matchingRows s q)) ->
        allEvents pages = orderBy (matchingRows s q)).
Proof.
  intros Hsrc Hn Htx. unfold getLogEvents.
  destruct (eventSourceNames q) as [|name names]; [contradiction|].
  destruct (pagesLoop_runs s q (eventCounts s q) Hn Htx
              (S (List.length (matchingRows s q))) None)
    as (pages & Hp & Hne & _ & Hev).
  { rewrite matching_length. lia. }
  rewrite Hp. exists pages. split; [reflexivity|]. split; [exact Hne|].
  intros Hs. rewrite (Hev Hs).
  apply forallb_filter_id, forallb_forall. reflexivity.
Qed.

Lemma yieldedPages_yield page o :
  yieldedPages (yield page o) = [] \/
  yieldedPages (yield page o) = page :: yieldedPages o.
Proof. destruct o; simpl; auto. Qed.

(** Every page a run yields, whether it returns or throws later, carries
    the counts the loop was given. *)
Lemma pagesLoop_counts s q ec : forall fuel cursor,
  Forall (fun p => counts (metadata p) = ec)
         (yieldedPages (pagesLoop fuel s q ec cursor)).
Proof.
  induction fuel as [|fuel IH]; intros cursor; simpl; [constructor|].
  destruct (forallb decodes (requestedLogs s q cursor)); [|constructor].
  destruct (List.length (requestedLogs s q cursor) <? pageSize q)%nat.
  - repeat constructor.
  - match goal with |- context [yield ?p ?o] =>
      destruct (yieldedPages_yield p o) as [-> | ->] end.
    + constructor.
    + constructor; [reflexivity | apply IH].
Qed.

(** C1, as the code has it.  When the rows a request selects have distinct
    ordering keys [(timestamp, chainId, blockNumber, logIndex)] (no log is
    selected for two event sources), the transaction of every selected row
    is stored, there is an event source and the page size is positive,
    [getLogEvents] returns and its pages, one after the other, are the
    selected rows in strictly ascending order, each exactly once.  In every
    case the page query with a cursor selects exactly the first [pageSize]
    matching rows strictly greater than the cursor, the cursor clause is the
    strict lexicographic comparison, and after a full page whose events
    could be built the loop goes on from the key of the last row of the
    page. *)
Theorem getLogEvents_pages s q :
  (NoDup (map row_key (matchingRows s q)) ->
   transactionsStored s q ->
   eventSourceNames q <> [] -> (0 < pageSize q)%nat ->
   exists pages,
     getLogEvents (S (List.length (matchingRows s q))) s q = Pages pages
     /\ allEvents pages = orderBy (matchingRows s q)
     /\ strictly_ascending (allEvents pages)
     /\ NoDup (allEvents pages)
     /\ forall r, In r (allEvents pages) <-> In r (matchingRows s q))
  /\ (forall cursor,
         requestedLogs s q (Some cursor)
         = firstn (pageSize q)
             (filter (fun r => key_ltb cursor (row_key r))
                     (orderBy (matchingRows s q))))
  /\ (forall cursor r b,
         row_block r = Some b ->
         cursorWhere cursor r = key_ltb cursor (row_key r))
  /\ (forall fuel ec cursor,
         let rows := requestedLogs s q cursor in
         forallb decodes rows = true ->
         (List.length rows <? pageSize q)%nat = false ->
         exists page,
           events page = rows
           /\ pagesLoop (S fuel) s q ec cursor
              = yield page
                  (pagesLoop fuel s q ec
                     (match lastRow rows with
                      | Some r => Some (row_key r)
                      | None => cursor
                      end))).
Proof.
  split; [|split; [|split]]; cycle 3.
  - intros fuel ec cursor rows Hdec Hfull. simpl. fold rows.
    rewrite Hdec, Hfull.
    eexists. split; [|reflexivity]. reflexivity.
  - intros Hnd Htx Hsrc Hn.
    assert (Hstrict : strictly_ascending (orderBy (matchingRows s q))).
    { apply ascending_strict; [|apply orderBy_ascending].
      eapply Permutation_NoDup; [|exact Hnd].
      apply Permutation_map, Permutation_sym, orderBy_perm. }
    destruct (getLogEvents_returns s q Hsrc Hn Htx) as (pages & Hp & _ & Hev).
    exists pages. rewrite (Hev Hstrict).
    repeat split; auto.
    + now apply strictly_ascending_NoDup.
    + apply Permutation_in, orderBy_perm.
    + apply Permutation_in, Permutation_sym, orderBy_perm.
  - intros cursor. apply (requestedLogs_sorted s q (Some cursor)).
  - intros cursor r b. apply cursorWhere_lex.
Qed.

End PaginationFacts.

(* ================================================================== *)
(** * Pages and counts on the scenarios *)
(* ================================================================== *)

Module ScenarioFacts.
Import Rows Events Properties.

(** C1, as stated, fails when a log is selected for two event sources: the
    two events have the same ordering key and the pages are not strictly
    ascending. *)
Lemma getLogEvents_two_sources_tie :
  match getLogEvents 3 Sample.store_one_log (Sample.request_two_sources 2) with
  | Pages pages => ~ strictly_ascending (allEvents pages)
  | _ => False
  end.
Proof.
  destruct (getLogEvents 3 Sample.store_one_log (Sample.request_two_sources 2))
    as [pages| |] eqn:E; vm_compute in E; try discriminate.
  inversion E; subst. unfold strictly_ascending, allEvents. simpl.
  intros H. inversion H as [|a l _ Ha]; subst.
  inversion Ha as [|b l' Hlt _]; subst.
  vm_compute in Hlt. discriminate.
Qed.

(** With a page size of 1 the second of the two events is lost: it is not
    strictly after the cursor left by the first. *)
Example getLogEvents_two_sources_page1 :
  List.length (matchingRows Sample.store_one_log (Sample.request_two_sources 1))
  = 2%nat
  /\ match getLogEvents 3 Sample.store_one_log (Sample.request_two_sources 1) with
     | Pages pages => map eventSource_name (allEvents pages) = ["a"%string]
     | _ => False
     end.
Proof. split; reflexivity. Qed.

(** Scenario S3: two logs of one block at [pageSize = 1] come in two pages,
    in order (and a last, empty page ends the iteration). *)
Example getLogEvents_S3 :
  match getLogEvents 4 Sample.store_S3 Sample.request_S3 with
  | Pages pages =>
      map (fun p => map (fun r => log_logIndex (row_log r)) (events p)) pages
      = [[0]; [1]; []]
  | _ => False
  end.
Proof. reflexivity. Qed.

(** A filter with [toBlock = 0] selects the logs of block 7. *)
Example getLogEvents_toBlock0 :
  map (fun r => log_blockNumber (row_log r))
      (matchingRows Sample.store_S3 Sample.request_toBlock0)
  = [7; 7].
Proof. reflexivity. Qed.

(** The pages of scenario S3. *)
Lemma getLogEvents_pages_witness :
  exists pages,
    getLogEvents 3 Sample.store_S3 Sample.request_S3 = Pages pages
    /\ allEvents pages
       = orderBy (matchingRows Sample.store_S3 Sample.request_S3)
    /\ strictly_ascending (allEvents pages)
    /\ NoDup (allEvents pages)
    /\ forall r, In r (allEvents pages)
                 <-> In r (matchingRows Sample.store_S3 Sample.request_S3).
Proof.
  apply (proj1 (PaginationFacts.getLogEvents_pages Sample.store_S3
                  Sample.request_S3)).
  - vm_compute. repeat constructor; simpl; intuition discriminate.
  - intros r Hr.
    assert (E : matchingRows Sample.store_S3 Sample.request_S3
                = [mkRow "src" (Sample.log7 0 "0xb7-0" Sample.selX)
                         (Some Sample.block7) (Some Sample.tx7);
                   mkRow "src" (Sample.log7 1 "0xb7-1" Sample.selX)
                         (Some Sample.block7) (Some Sample.tx7)])
      by reflexivity.
    rewrite E in Hr. destruct Hr as [<- | [<- | []]]; discriminate.
  - discriminate.
  - simpl. lia.
Defined.

(** Without the transaction of the logs the first page cannot be built:
    the generator throws before it yields anything. *)
Example getLogEvents_no_transaction :
  getLogEvents 4 Sample.store_S3_no_transaction Sample.request_S3 = Throws [].
Proof. reflexivity. Qed.

End ScenarioFacts.

(* ================================================================== *)
(** * The counts metadata *)
(* ================================================================== *)

Module CountsFacts.
Import Rows Events Properties.

Lemma countKey_eqb_eq a b : countKey_eqb a b = true <-> a = b.
Proof.
  destruct a as [n t], b as [n' t']. unfold countKey_eqb. simpl.
  rewrite andb_true_iff, String.eqb_eq, EqFacts.opt_eqb_eq.
  split; [intros [-> ->]; reflexivity | intros H; inversion H; auto].
Qed.

Lemma in_distinct k l : In k (distinct l) <-> In k l.
Proof.
  induction l as [|a l IH]; simpl; [tauto|].
  rewrite filter_In, IH, negb_true_iff. split.
  - intros [H | [H _]]; auto.
  - intros [H | H]; [now left|].
    destruct (countKey_eqb k a) eqn:E; [|now right].
    apply countKey_eqb_eq in E. left. congruence.
Qed.

Lemma groupCount_spec name sel c keys :
  In (mkEventCount name sel c) (groupCount keys)
  <-> In (name, sel) keys
      /\ c = List.length (filter (countKey_eqb (name, sel)) keys).
Proof.
  unfold groupCount. rewrite in_map_iff. split.
  - intros [[n t] [H Hk]]. simpl in H. inversion H; subst.
    apply (proj1 (in_distinct _ _)) in Hk. auto.
  - intros [Hk ->]. exists (name, sel). split; [reflexivity|].
    now apply in_distinct.
Qed.

Lemma filter_map_length {A B} (f : A -> B) p l :
  List.length (filter p (map f l))
  = List.length (filter (fun x => p (f x)) l).
Proof.
  induction l as [|a l IH]; simpl; [reflexivity|].
  destruct (p (f a)); simpl; now rewrite IH.
Qed.

Lemma filter_nonempty {A} (p : A -> bool) l :
  (0 < List.length (filter p l))%nat <-> exists x, In x l /\ p x = true.
Proof.
  split.
  - destruct (filter p l) as [|x l'] eqn:E; simpl; [lia|]. intros _.
    exists x. apply filter_In. rewrite E. now left.
  - intros [x Hx]. apply filter_In in Hx.
    destruct (filter p l); [destruct Hx | simpl; lia].
Qed.

Lemma opt_eqb_sym a b : opt_eqb a b = opt_eqb b a.
Proof. destruct a, b; simpl; auto. apply String.eqb_sym. Qed.

(** The rows of a group, as the key of the grouping sees them. *)
Lemma countedRows_key s q name sel :
  countedRows s q name sel
  = List.length
      (filter (fun r => countKey_eqb (name, sel) (countKey_of r))
              (filter (fun r => timestampWhere q r && countsWhere s q r)
                      (joinedRows s q))).
Proof.
  unfold countedRows. f_equal. apply filter_ext. intros r.
  unfold countKey_eqb, countKey_of. simpl.
  now rewrite String.eqb_sym, opt_eqb_sym.
Qed.

Lemma NoDup_distinct l : NoDup (distinct l).
Proof.
  induction l as [|k l IH]; simpl; constructor.
  - intros H. apply filter_In in H. destruct H as [_ H].
    apply negb_true_iff in H.
    assert (countKey_eqb k k = true) by now apply countKey_eqb_eq.
    congruence.
  - now apply NoDup_filter.
Qed.

(** Each event source and selector has at most one entry. *)
Lemma eventCounts_NoDup s q :
  NoDup (map (fun c => (ec_eventSourceName c, ec_selector c))
             (eventCounts s q)).
Proof.
  unfold eventCounts, groupCount. rewrite map_map. simpl.
  rewrite (map_ext _ (fun k => k)) by (intros [n t]; reflexivity).
  rewrite map_id. apply NoDup_distinct.
Qed.

(** The counts: one entry for each event source and selector that has a
    counted row, with the number of those rows. *)
Lemma eventCounts_spec s q name sel c :
  In (mkEventCount name sel c) (eventCounts s q)
  <-> (0 < c)%nat /\ c = countedRows s q name sel.
Proof.
  rewrite countedRows_key.
  unfold eventCounts. rewrite groupCount_spec.
  set (rows := filter (fun r => timestampWhere q r && countsWhere s q r)
                      (joinedRows s q)).
  assert (Hlen : List.length
                   (filter (countKey_eqb (name, sel))
                           (map countKey_of (orderBy rows)))
                 = List.length
                     (filter (fun r => countKey_eqb (name, sel) (countKey_of r))
                             rows)).
  { rewrite filter_map_length, <- OrderFacts.orderBy_filter.
    apply OrderFacts.orderBy_length. }
  rewrite Hlen.
  assert (Hin : In (name, sel) (map countKey_of (orderBy rows))
                <-> (0 < List.length
                           (filter (fun r => countKey_eqb (name, sel)
                                               (countKey_of r)) rows))%nat).
  { rewrite filter_nonempty, in_map_iff. split.
    - intros [r [Hk Hr]]. exists r. split.
      + now apply (Permutation_in _ (OrderFacts.orderBy_perm rows)).
      + apply countKey_eqb_eq. congruence.
    - intros [r [Hr Hk]]. exists r. apply countKey_eqb_eq in Hk. split; [congruence|].
      now apply (Permutation_in _ (Permutation_sym (OrderFacts.orderBy_perm rows))). }
  rewrite Hin. split; intros [H1 H2]; split; congruence.
Qed.

(** The counts do not look at [includeEventSelectors]. *)
Lemma eventSourceNames_withoutSelectors q :
  eventSourceNames (withoutSelectors q) = eventSourceNames q.
Proof.
  unfold eventSourceNames, withoutSelectors. simpl. now rewrite !map_map.
Qed.

Lemma joinedRows_withoutSelectors s q :
  joinedRows s (withoutSelectors q) = joinedRows s q.
Proof.
  unfold joinedRows. now rewrite eventSourceNames_withoutSelectors.
Qed.

Lemma countsWhere_withoutSelectors s q :
  countsWhere s (withoutSelectors q) = countsWhere s q.
Proof.
  unfold countsWhere, withoutSelectors. simpl. now rewrite !map_map.
Qed.

Lemma includedWhere_withoutSelectors s q :
  includedWhere s (withoutSelectors q) = countsWhere s q.
Proof.
  unfold includedWhere, countsWhere, withoutSelectors. simpl.
  rewrite !map_map. f_equal. f_equal.
  - apply map_ext. intros f. simpl. now rewrite app_nil_r.
  - apply map_ext. intros f. simpl. now rewrite app_nil_r.
Qed.

Lemma eventCounts_withoutSelectors s q :
  eventCounts s (withoutSelectors q) = eventCounts s q.
Proof.
  unfold eventCounts.
  now rewrite joinedRows_withoutSelectors, countsWhere_withoutSelectors.
Qed.

Lemma getLogEvents_yielded_counts fuel s q :
  Forall (fun p => counts (metadata p) = eventCounts s q)
         (yieldedPages (getLogEvents fuel s q)).
Proof.
  unfold getLogEvents. destruct (eventSourceNames q); [constructor|].
  apply PaginationFacts.pagesLoop_counts.
Qed.

(** C8.  Every page a [getLogEvents] call yields carries the same counts,
    the ones computed before the first page: exactly one entry for each
    event source and [topic0] that has a counted row, holding the number of
    joined rows of that event source and [topic0] in the timestamp range
    that pass the filters of the request without their
    [includeEventSelectors] clause.  The counts are those of the request with
    every [includeEventSelectors] removed, whose page predicate is the counts
    predicate; and the call returns at least one page when there is an event
    source, the page size is positive and the transactions of the selected
    rows are stored. *)
Theorem getLogEvents_counts :
  (forall fuel s q,
      Forall (fun p => counts (metadata p) = eventCounts s q)
             (yieldedPages (getLogEvents fuel s q)))
  /\ (forall s q,
         eventSourceNames q <> [] -> (0 < pageSize q)%nat ->
         transactionsStored s q ->
         exists pages,
           getLogEvents (S (List.length (matchingRows s q))) s q = Pages pages
           /\ pages <> [])
  /\ (forall s q name sel c,
         In (mkEventCount name sel c) (eventCounts s q)
         <-> (0 < c)%nat /\ c = countedRows s q name sel)
  /\ (forall s q,
         NoDup (map (fun c => (ec_eventSourceName c, ec_selector c))
                    (eventCounts s q)))
  /\ (forall s q, eventCounts s (withoutSelectors q) = eventCounts s q)
  /\ (forall s q, includedWhere s (withoutSelectors q) = countsWhere s q).
Proof.
  split; [|split; [|split; [|split; [|split]]]].
  - apply getLogEvents_yielded_counts.
  - intros s q Hsrc Hn Htx.
    destruct (PaginationFacts.getLogEvents_returns s q Hsrc Hn Htx)
      as (pages & Hp & Hne & _).
    eauto.
  - apply eventCounts_spec.
  - apply eventCounts_NoDup.
  - apply eventCounts_withoutSelectors.
  - apply includedWhere_withoutSelectors.
Qed.

(** Scenario S6, at a page size of 2: three pages, each with the counts 3
    for X and 2 for Y. *)
Example getLogEvents_S6 :
  match getLogEvents 4 Sample.store_S6 (Sample.request_S6 2) with
  | Pages pages =>
      map (fun p => counts (metadata p)) pages
      = let c := [mkEventCount "src" (Some Sample.selX) 3;
                  mkEventCount "src" (Some Sample.selY) 2] in
        [c; c; c]
  | _ => False
  end.
Proof. reflexivity. Qed.

(** With only X included, the pages hold the three X logs and the counts
    still report the two Y logs. *)
Example getLogEvents_S6_onlyX :
  match getLogEvents 4 Sample.store_S6 (Sample.request_S6_onlyX 5) with
  | Pages pages =>
      map (fun r => log_topic0 (row_log r)) (allEvents pages)
      = [Some Sample.selX; Some Sample.selX; Some Sample.selX]
      /\ Forall (fun p => counts (metadata p)
                          = [mkEventCount "src" (Some Sample.selX) 3;
                             mkEventCount "src" (Some Sample.selY) 2]) pages
  | _ => False
  end.
Proof. vm_compute. split; [reflexivity | repeat constructor]. Qed.

Lemma matchingRows_S6_onlyX :
  map row_tx (matchingRows Sample.store_S6 (Sample.request_S6_onlyX 5))
  = [Some Sample.tx7; Some Sample.tx7; Some Sample.tx7].
Proof. reflexivity. Qed.

(** Scenario S6 with only X included: the call returns. *)
Lemma getLogEvents_counts_witness :
  exists pages,
    getLogEvents
      (S (List.length
            (matchingRows Sample.store_S6 (Sample.request_S6_onlyX 5))))
      Sample.store_S6 (Sample.request_S6_onlyX 5) = Pages pages
    /\ pages <> [].
Proof.
  apply (proj1 (proj2 getLogEvents_counts) Sample.store_S6
               (Sample.request_S6_onlyX 5)).
  - discriminate.
  - simpl. lia.
  - intros r Hr Hnone. apply (in_map row_tx) in Hr.
    rewrite matchingRows_S6_onlyX, Hnone in Hr.
    destruct Hr as [? | [? | [? | []]]]; discriminate.
Defined.

End CountsFacts.

(* ================================================================== *)
(** * List lookups *)
(* ================================================================== *)

Module LookupFacts.

Lemma find_app {A} (p : A -> bool) l1 l2 :
  find p (l1 ++ l2)
  = match find p l1 with Some x => Some x | None => find p l2 end.
Proof.
  induction l1 as [|a l1 IH]; simpl; [reflexivity|].
  destruct (p a); [reflexivity | exact IH].
Qed.

Lemma find_ext {A} (p q : A -> bool) l :
  (forall x, p x = q x) -> find p l = find q l.
Proof.
  intros H. induction l as [|a l IH]; simpl; [reflexivity|].
  now rewrite H, IH.
Qed.

Lemma find_absent {A} (p : A -> bool) l :
  existsb p l = false -> find p l = None.
Proof.
  induction l as [|a l IH]; simpl; [reflexivity|].
  destruct (p a); simpl; [discriminate | exact IH].
Qed.

(** A filter that keeps every row the lookup could return does not change
    the lookup. *)
Lemma find_filter_keep {A} (p q : A -> bool) l :
  (forall x, In x l -> p x = true -> q x = true) ->
  find p (filter q l) = find p l.
Proof.
  induction l as [|a l IH]; intros H; simpl; [reflexivity|].
  destruct (q a) eqn:Hq; simpl.
  - destruct (p a); [reflexivity|]. apply IH. intros; apply H; simpl; auto.
  - destruct (p a) eqn:Hp.
    + rewrite (H a) in Hq; simpl; auto. discriminate.
    + apply IH. intros; apply H; simpl; auto.
Qed.

(** A filter that drops every row the lookup could return empties it. *)
Lemma find_filter_drop {A} (p q : A -> bool) l :
  (forall x, In x l -> p x = true -> q x = false) ->
  find p (filter q l) = None.
Proof.
  induction l as [|a l IH]; intros H; simpl; [reflexivity|].
  destruct (q a) eqn:Hq; simpl.
  - destruct (p a) eqn:Hp.
    + rewrite (H a) in Hq; simpl; auto. discriminate.
    + apply IH. intros; apply H; simpl; auto.
  - apply IH. intros; apply H; simpl; auto.
Qed.

End LookupFacts.

(* ================================================================== *)
(** * The RPC request cache *)
(* ================================================================== *)

Module RpcFacts.
Import Rows SyncStore StoreProperties LookupFacts.

Lemma lookup_is_same_key blockNumber chainId request result r :
  (rpc_blockNumber r =? blockNumber) && (rpc_chainId r =? chainId)
  && String.eqb (rpc_request r) request
  = rpc_same_key (mkRpcRequestResult request blockNumber chainId result) r.
Proof.
  unfold rpc_same_key. simpl.
  rewrite (String.eqb_sym request), (Z.eqb_sym blockNumber), (Z.eqb_sym chainId).
  destruct (rpc_blockNumber r =? blockNumber), (rpc_chainId r =? chainId),
    (String.eqb (rpc_request r) request); reflexivity.
Qed.

Lemma get_as_find s blockNumber chainId request result :
  getRpcRequestResult s blockNumber chainId request
  = find (rpc_same_key (mkRpcRequestResult request blockNumber chainId result))
         (rpcRequestResults s).
Proof.
  unfold getRpcRequestResult. apply LookupFacts.find_ext.
  intros r. apply lookup_is_same_key.
Qed.

Lemma same_key_eq a b : rpc_same_key a b = true <-> rpc_key a = rpc_key b.
Proof.
  unfold rpc_same_key, rpc_key.
  rewrite !andb_true_iff, String.eqb_eq, !Z.eqb_eq.
  split; [intros [[-> ->] ->]; reflexivity | intros H; inversion H; auto].
Qed.

(** X1.  A lookup after [insertRpcRequestResult] with the same block number,
    chain and request returns the row with the inserted result, whatever the
    cache held before (a fresh key is added, a taken key has its result
    overwritten). *)
Theorem rpc_insert_then_get s blockNumber chainId request result :
  getRpcRequestResult
    (insertRpcRequestResult s blockNumber chainId request result)
    blockNumber chainId request
  = Some (mkRpcRequestResult request blockNumber chainId result).
Proof.
  rewrite (get_as_find _ _ _ _ result).
  unfold insertRpcRequestResult. simpl.
  set (row := mkRpcRequestResult request blockNumber chainId result).
  destruct (existsb (rpc_same_key row) (rpcRequestResults s)) eqn:E.
  - induction (rpcRequestResults s) as [|r tbl IH]; [discriminate|].
    simpl in E |- *. destruct (rpc_same_key row r) eqn:Er.
    + assert (Hk : rpc_same_key row
                     (mkRpcRequestResult (rpc_request r) (rpc_blockNumber r)
                                         (rpc_chainId r) result) = true)
        by exact Er.
      rewrite Hk. apply same_key_eq in Er. unfold rpc_key in Er. simpl in Er.
      inversion Er; subst. reflexivity.
    + rewrite Er. now apply IH.
  - rewrite find_app, (find_absent _ _ E). simpl.
    assert (Hk : rpc_same_key row row = true) by now apply same_key_eq.
    now rewrite Hk.
Qed.

(** X2.  [insertRpcRequestResult] does not change what a lookup of any
    other key returns. *)
Theorem rpc_insert_other_key s blockNumber chainId request result
        blockNumber' chainId' request' :
  (request', blockNumber', chainId') <> (request, blockNumber, chainId) ->
  getRpcRequestResult
    (insertRpcRequestResult s blockNumber chainId request result)
    blockNumber' chainId' request'
  = getRpcRequestResult s blockNumber' chainId' request'.
Proof.
  intros Hneq. rewrite !(get_as_find _ blockNumber' chainId' request' result).
  unfold insertRpcRequestResult. simpl.
  set (row := mkRpcRequestResult request blockNumber chainId result).
  set (row' := mkRpcRequestResult request' blockNumber' chainId' result).
  assert (Hdiff : forall r, rpc_same_key row' r = true ->
                            rpc_same_key row r = false).
  { intros r H. destruct (rpc_same_key row r) eqn:E; [|reflexivity].
    apply same_key_eq in H, E. exfalso. apply Hneq.
    unfold rpc_key in *. simpl in *. congruence. }
  destruct (existsb (rpc_same_key row) (rpcRequestResults s)).
  - induction (rpcRequestResults s) as [|r tbl IH]; simpl; [reflexivity|].
    destruct (rpc_same_key row r) eqn:Er.
    + assert (Hr : rpc_same_key row' r = false).
      { destruct (rpc_same_key row' r) eqn:E'; [|reflexivity].
        rewrite (Hdiff r E') in Er. discriminate. }
      assert (Hk : rpc_same_key row'
                     (mkRpcRequestResult (rpc_request r) (rpc_blockNumber r)
                                         (rpc_chainId r) result) = false)
        by exact Hr.
      now rewrite Hk, Hr.
    + destruct (rpc_same_key row' r); [reflexivity | exact IH].
  - rewrite find_app. destruct (find (rpc_same_key row') (rpcRequestResults s));
      [reflexivity|].
    simpl. destruct (rpc_same_key row' row) eqn:E; [|reflexivity].
    pose proof (Hdiff row E) as Hrow.
    assert (rpc_same_key row row = true) by now apply same_key_eq.
    congruence.
Qed.

Lemma rpc_insert_other_key_witness :
  getRpcRequestResult (insertRpcRequestResult empty 5 1 "call" "0x01") 6 1 "call"
  = getRpcRequestResult empty 6 1 "call".
Proof.
  apply (rpc_insert_other_key empty 5 1 "call" "0x01" 6 1 "call").
  intros H. inversion H.
Defined.

(** X3.  [insertRpcRequestResult] keeps the primary key of the cache unique:
    when no two rows share [(request, blockNumber, chainId)] before the
    insert, no two do after it. *)
Theorem rpc_insert_keeps_key_unique s blockNumber chainId request result :
  NoDup (map rpc_key (rpcRequestResults s)) ->
  NoDup (map rpc_key
           (rpcRequestResults
              (insertRpcRequestResult s blockNumber chainId request result))).
Proof.
  intros Hnd. unfold insertRpcRequestResult. simpl.
  set (row := mkRpcRequestResult request blockNumber chainId result).
  destruct (existsb (rpc_same_key row) (rpcRequestResults s)) eqn:E.
  - rewrite map_map.
    rewrite (map_ext _ rpc_key); [exact Hnd|].
    intros r. now destruct (rpc_same_key row r).
  - rewrite map_app. simpl. apply NoDup_app. repeat split.
    + exact Hnd.
    + repeat constructor. intros [].
    + intros k Hk [<- | []]. apply in_map_iff in Hk. destruct Hk as [r [Hr Hin]].
      assert (existsb (rpc_same_key row) (rpcRequestResults s) = true).
      { apply existsb_exists. exists r. split; [exact Hin|].
        now apply same_key_eq. }
      congruence.
Qed.

Lemma rpc_insert_keeps_key_unique_witness :
  NoDup (map rpc_key
           (rpcRequestResults
              (insertRpcRequestResult
                 (insertRpcRequestResult empty 5 1 "call" "0x01")
                 5 1 "call" "0x02"))).
Proof.
  apply rpc_insert_keeps_key_unique, rpc_insert_keeps_key_unique.
  constructor.
Defined.

(** X4.  After [deleteRealtimeData s chainId pivot] the cache has no entry
    of the chain above the pivot, and a lookup at any other chain or at a
    block number up to the pivot returns what it returned before. *)
Theorem rpc_lookup_after_truncation s chainId pivot :
  (forall blockNumber request,
      pivot < blockNumber ->
      getRpcRequestResult (deleteRealtimeData s chainId pivot)
                          blockNumber chainId request = None)
  /\ (forall blockNumber chainId' request,
         chainId' <> chainId \/ blockNumber <= pivot ->
         getRpcRequestResult (deleteRealtimeData s chainId pivot)
                             blockNumber chainId' request
         = getRpcRequestResult s blockNumber chainId' request).
Proof.
  unfold getRpcRequestResult. simpl. split.
  - intros blockNumber request Hgt. apply find_filter_drop.
    intros r _ Hr. apply andb_true_iff in Hr. destruct Hr as [Hr _].
    apply andb_true_iff in Hr. destruct Hr as [Hb Hc].
    apply Z.eqb_eq in Hb. rewrite Hc. simpl.
    apply negb_false_iff, Z.ltb_lt. lia.
  - intros blockNumber chainId' request Hor. apply find_filter_keep.
    intros r _ Hr. apply andb_true_iff in Hr. destruct Hr as [Hr _].
    apply andb_true_iff in Hr. destruct Hr as [Hb Hc].
    apply Z.eqb_eq in Hb, Hc. apply negb_true_iff, andb_false_iff.
    destruct Hor as [Hne | Hle]; [left; apply Z.eqb_neq; congruence|].
    right. apply Z.ltb_ge. lia.
Qed.

Lemma rpc_lookup_after_truncation_witness :
  getRpcRequestResult
    (deleteRealtimeData (insertRpcRequestResult empty 7 1 "call" "0x01") 1 6)
    7 1 "call" = None.
Proof.
  apply (proj1 (rpc_lookup_after_truncation
                  (insertRpcRequestResult empty 7 1 "call" "0x01") 1 6)).
  lia.
Defined.

End RpcFacts.

(* ================================================================== *)
(** * More on reorg truncation *)
(* ================================================================== *)

Module TruncateRowsFacts.
Import TruncateRows.

Lemma filter_map_commute {A} (q : A -> bool) (f : A -> A) l :
  (forall x, q (f x) = q x) -> filter q (map f l) = map f (filter q l).
Proof.
  intros H. induction l as [|a l IH]; simpl; [reflexivity|].
  rewrite H. destruct (q a); simpl; now rewrite IH.
Qed.

Section Table.
Context {R : Type}.
Variable on : R -> bool.
Variable startOf : R -> Z.
Variable endOf : R -> Z.
Variable setEnd : R -> Z -> R.
Hypothesis on_setEnd : forall r e, on (setEnd r e) = on r.
Hypothesis startOf_setEnd : forall r e, startOf (setEnd r e) = startOf r.
Hypothesis endOf_setEnd : forall r e, endOf (setEnd r e) = e.
Hypothesis setEnd_setEnd : forall r e e', setEnd (setEnd r e) e' = setEnd r e'.

Local Abbreviation truncate := (truncateRows on startOf endOf setEnd).

(** Truncating at [p] and then at [p' <= p] is truncating at [p']. *)
Lemma truncateRows_twice p p' tbl :
  p' <= p -> truncate p' (truncate p tbl) = truncate p' tbl.
Proof.
  intros Hle. unfold truncateRows.
  rewrite filter_map_commute.
  - rewrite map_map, OrderFacts.filter_narrow.
    + apply map_ext. intros i.
      destruct (on i) eqn:Hon; simpl; [|now rewrite Hon].
      destruct (p <? endOf i) eqn:E.
      * rewrite on_setEnd, endOf_setEnd, Hon. simpl.
        apply Z.ltb_lt in E.
        destruct (p' <? p) eqn:E'.
        -- assert (H : (p' <? endOf i) = true) by (apply Z.ltb_lt in E'; apply Z.ltb_lt; lia).
           now rewrite H, setEnd_setEnd.
        -- apply Z.ltb_ge in E'. assert (p' = p) by lia. subst p'.
           apply Z.ltb_lt in E. now rewrite E.
      * now rewrite Hon.
    + intros i _ Hk. apply negb_true_iff in Hk. apply negb_true_iff.
      destruct (on i); simpl in *; [|reflexivity].
      apply Z.ltb_ge in Hk. apply Z.ltb_ge. lia.
  - intros i. destruct (on i && (p <? endOf i)); [|reflexivity].
    now rewrite on_setEnd, startOf_setEnd.
Qed.

(** Every row left by the truncation comes from a stored row with the same
    start and no later end, and is not turned upside down. *)
Lemma truncateRows_shrinks p tbl i' :
  In i' (truncate p tbl) ->
  exists i, In i tbl /\ startOf i' = startOf i /\ endOf i' <= endOf i
            /\ (i' = i \/ i' = setEnd i p)
            /\ (startOf i <= endOf i -> startOf i' <= endOf i').
Proof.
  unfold truncateRows. intros H. apply in_map_iff in H.
  destruct H as [i [Hi Hin]]. apply filter_In in Hin. destruct Hin as [Hin Hk].
  exists i. split; [exact Hin|].
  destruct (on i && (p <? endOf i)) eqn:E; subst i'.
  - apply andb_true_iff in E. destruct E as [Hon E]. apply Z.ltb_lt in E.
    rewrite Hon in Hk. simpl in Hk. apply negb_true_iff, Z.ltb_ge in Hk.
    rewrite startOf_setEnd, endOf_setEnd. repeat split; auto; lia.
  - repeat split; auto; lia.
Qed.

(** The rows of the chain end at or below the pivot. *)
Lemma truncateRows_bounds p tbl i' :
  In i' (truncate p tbl) -> on i' = true ->
  startOf i' <= p /\ endOf i' <= p.
Proof.
  unfold truncateRows. intros H Hon. apply in_map_iff in H.
  destruct H as [i [Hi Hin]]. apply filter_In in Hin. destruct Hin as [_ Hk].
  destruct (on i && (p <? endOf i)) eqn:E; subst i'.
  - rewrite on_setEnd in Hon. rewrite Hon in Hk. simpl in Hk.
    apply negb_true_iff, Z.ltb_ge in Hk.
    rewrite startOf_setEnd, endOf_setEnd. lia.
  - rewrite Hon in E, Hk. simpl in E, Hk.
    apply negb_true_iff, Z.ltb_ge in Hk. apply Z.ltb_ge in E. lia.
Qed.

(** Rows of other chains, and rows of the chain that end at or below the
    pivot, are left as they are. *)
Lemma truncateRows_keeps p tbl i :
  In i tbl -> on i = false \/ endOf i <= p /\ startOf i <= p ->
  In i (truncate p tbl).
Proof.
  intros Hin Hor. unfold truncateRows. apply in_map_iff. exists i. split.
  - destruct Hor as [-> | [He _]]; [reflexivity|].
    apply Z.ltb_ge in He. rewrite He. now rewrite andb_false_r.
  - apply filter_In. split; [exact Hin|].
    destruct Hor as [-> | [_ Hs]]; [reflexivity|].
    apply Z.ltb_ge in Hs. rewrite Hs. now rewrite andb_false_r.
Qed.

End Table.

End TruncateRowsFacts.

Module TruncateMoreFacts.
Import Rows SyncStore StoreProperties TruncateRows.

Local Abbreviation lf_truncate s chainId :=
  (truncateRows (logFilterInterval_on s chainId) lfi_startBlock lfi_endBlock
     (fun i e => mkLogFilterInterval (lfi_logFilterId i) (lfi_startBlock i) e)).
Local Abbreviation f_truncate s chainId :=
  (truncateRows (factoryInterval_on s chainId) fli_startBlock fli_endBlock
     (fun i e => mkFactoryLogFilterInterval (fli_factoryId i) (fli_startBlock i) e)).

Lemma truncated_logFilterIntervals s chainId pivot :
  logFilterIntervals (deleteRealtimeData s chainId pivot)
  = lf_truncate s chainId pivot (logFilterIntervals s).
Proof. reflexivity. Qed.

Lemma truncated_factoryIntervals s chainId pivot :
  factoryLogFilterIntervals (deleteRealtimeData s chainId pivot)
  = f_truncate s chainId pivot (factoryLogFilterIntervals s).
Proof. reflexivity. Qed.

Lemma kept_iff (chainId pivot c n : Z) :
  negb ((c =? chainId) && (pivot <? n)) = true <-> ~ above chainId pivot c n.
Proof.
  unfold above. rewrite negb_true_iff, andb_false_iff, Z.eqb_neq, Z.ltb_ge.
  lia.
Qed.

Lemma in_kept {A} (c n : A -> Z) chainId pivot l x :
  In x (filter (fun x => negb ((c x =? chainId) && (pivot <? n x))) l)
  <-> In x l /\ ~ above chainId pivot (c x) (n x).
Proof. rewrite filter_In, kept_iff. reflexivity. Qed.

(** X5.  [deleteRealtimeData] removes from [blocks], [transactions], [logs]
    and [rpcRequestResults] exactly the rows of the chain above the pivot:
    every other row stays, no row is added, and the filter and factory rows
    are not touched. *)
Theorem deleteRealtimeData_removes_exactly s chainId pivot :
  let s' := deleteRealtimeData s chainId pivot in
  (forall b, In b (blocks s')
             <-> In b (blocks s)
                 /\ ~ above chainId pivot (block_chainId b) (block_number b))
  /\ (forall t, In t (transactions s')
                <-> In t (transactions s)
                    /\ ~ above chainId pivot (tx_chainId t) (tx_blockNumber t))
  /\ (forall l, In l (logs s')
                <-> In l (logs s)
                    /\ ~ above chainId pivot (log_chainId l) (log_blockNumber l))
  /\ (forall r, In r (rpcRequestResults s')
                <-> In r (rpcRequestResults s)
                    /\ ~ above chainId pivot (rpc_chainId r) (rpc_blockNumber r))
  /\ logFilters s' = logFilters s
  /\ factories s' = factories s.
Proof.
  cbv zeta. simpl.
  split; [|split; [|split; [|split; [|split]]]]; try reflexivity;
    intros x; apply in_kept.
Qed.

(** Block 3 of scenario S4 survives the truncation at block 5. *)
Lemma deleteRealtimeData_removes_exactly_witness :
  In (Sample.block_n 3) (blocks Sample.store_S4)
  /\ ~ above 1 5 (block_chainId (Sample.block_n 3))
              (block_number (Sample.block_n 3)).
Proof.
  apply (proj1 (proj1 (deleteRealtimeData_removes_exactly Sample.store_S4 1 5)
                      (Sample.block_n 3))).
  vm_compute. tauto.
Defined.

Lemma store_ext (a b : Store) :
  blocks a = blocks b -> transactions a = transactions b -> logs a = logs b ->
  logFilters a = logFilters b -> logFilterIntervals a = logFilterIntervals b ->
  factories a = factories b ->
  factoryLogFilterIntervals a = factoryLogFilterIntervals b ->
  rpcRequestResults a = rpcRequestResults b -> a = b.
Proof. destruct a, b. simpl. intros. now subst. Qed.

(** X6.  Truncating at a pivot and then at a lower or equal pivot leaves the
    store that truncating at the lower pivot alone leaves; in particular
    [deleteRealtimeData] with the same arguments a second time changes
    nothing. *)
Theorem deleteRealtimeData_twice s chainId pivot pivot' :
  pivot' <= pivot ->
  deleteRealtimeData (deleteRealtimeData s chainId pivot) chainId pivot'
  = deleteRealtimeData s chainId pivot'.
Proof.
  intros Hle.
  assert (Hraw : forall {A} (c n : A -> Z) (l : list A),
             filter (fun x => negb ((c x =? chainId) && (pivot' <? n x)))
               (filter (fun x => negb ((c x =? chainId) && (pivot <? n x))) l)
             = filter (fun x => negb ((c x =? chainId) && (pivot' <? n x))) l).
  { intros A c n l. apply OrderFacts.filter_narrow. intros x _ H.
    apply kept_iff in H. apply kept_iff. unfold above in *. lia. }
  apply store_ext.
  - apply Hraw.
  - apply Hraw.
  - apply Hraw.
  - reflexivity.
  - rewrite !truncated_logFilterIntervals.
    change (logFilterInterval_on (deleteRealtimeData s chainId pivot) chainId)
      with (logFilterInterval_on s chainId).
    apply TruncateRowsFacts.truncateRows_twice; auto.
  - reflexivity.
  - rewrite !truncated_factoryIntervals.
    change (factoryInterval_on (deleteRealtimeData s chainId pivot) chainId)
      with (factoryInterval_on s chainId).
    apply TruncateRowsFacts.truncateRows_twice; auto.
  - apply Hraw.
Qed.

Lemma deleteRealtimeData_twice_witness :
  deleteRealtimeData (deleteRealtimeData Sample.store_S4 1 8) 1 6
  = deleteRealtimeData Sample.store_S4 1 6.
Proof. apply deleteRealtimeData_twice. lia. Defined.

(** X7.  Truncation only shortens coverage: every interval row it leaves
    (log filter or factory) is a stored row, either as it was or with its
    [endBlock] lowered to the pivot, and a row with [startBlock <= endBlock]
    still has [startBlock <= endBlock]. *)
Theorem deleteRealtimeData_shrinks_intervals s chainId pivot :
  (forall i', In i' (logFilterIntervals (deleteRealtimeData s chainId pivot)) ->
     exists i, In i (logFilterIntervals s)
               /\ lfi_logFilterId i' = lfi_logFilterId i
               /\ lfi_startBlock i' = lfi_startBlock i
               /\ lfi_endBlock i' <= lfi_endBlock i
               /\ (lfi_startBlock i <= lfi_endBlock i ->
                   lfi_startBlock i' <= lfi_endBlock i'))
  /\ (forall i', In i' (factoryLogFilterIntervals
                          (deleteRealtimeData s chainId pivot)) ->
        exists i, In i (factoryLogFilterIntervals s)
                  /\ fli_factoryId i' = fli_factoryId i
                  /\ fli_startBlock i' = fli_startBlock i
                  /\ fli_endBlock i' <= fli_endBlock i
                  /\ (fli_startBlock i <= fli_endBlock i ->
                      fli_startBlock i' <= fli_endBlock i')).
Proof.
  split; intros i' H.
  - rewrite truncated_logFilterIntervals in H.
    apply TruncateRowsFacts.truncateRows_shrinks in H; try reflexivity.
    destruct H as (i & Hin & Hs & He & Hform & Hv).
    exists i. repeat split; auto.
    destruct Hform as [-> | ->]; reflexivity.
  - rewrite truncated_factoryIntervals in H.
    apply TruncateRowsFacts.truncateRows_shrinks in H; try reflexivity.
    destruct H as (i & Hin & Hs & He & Hform & Hv).
    exists i. repeat split; auto.
    destruct Hform as [-> | ->]; reflexivity.
Qed.

Lemma deleteRealtimeData_shrinks_intervals_witness :
  exists i, In i (logFilterIntervals Sample.store_S4)
            /\ Sample.anyLog_id = lfi_logFilterId i
            /\ 1 = lfi_startBlock i
            /\ 6 <= lfi_endBlock i
            /\ (lfi_startBlock i <= lfi_endBlock i -> 1 <= 6).
Proof.
  apply (proj1 (deleteRealtimeData_shrinks_intervals Sample.store_S4 1 6)
               (mkLogFilterInterval Sample.anyLog_id 1 6)).
  left. reflexivity.
Defined.

End TruncateMoreFacts.

(* ================================================================== *)
(** * Raw inserts *)
(* ================================================================== *)

Module IngestFacts.
Import Rows SyncStore.

(** Inserts that ignore a key conflict only add rows, and only rows whose
    key was free. *)
Section IgnoreOnConflict.
Context {A B K : Type}.
Variable key : A -> K.
Variable same_key : A -> A -> bool.
Variable ins : A -> list A -> list A.
Variable conv : B -> A.
Hypothesis ins_def : forall a tbl,
  ins a tbl = if existsb (fun a' => same_key a' a) tbl then tbl else tbl ++ [a].
Hypothesis same_key_spec : forall a' a, same_key a' a = true <-> key a' = key a.

Lemma key_taken a tbl :
  existsb (fun a' => same_key a' a) tbl = true <-> In (key a) (map key tbl).
Proof.
  rewrite existsb_exists, in_map_iff.
  split; intros [x [H1 H2]]; exists x.
  - split; [now apply same_key_spec | tauto].
  - split; [tauto | now apply same_key_spec].
Qed.

Lemma key_free a tbl :
  existsb (fun a' => same_key a' a) tbl = false <-> ~ In (key a) (map key tbl).
Proof.
  rewrite <- key_taken. destruct (existsb _ tbl); split; congruence.
Qed.

Lemma fold_ins_appends : forall l tbl,
  exists added,
    fold_left (fun tbl x => ins (conv x) tbl) l tbl = tbl ++ added
    /\ (forall a, In a added ->
                  (exists x, In x l /\ a = conv x)
                  /\ ~ In (key a) (map key tbl)).
Proof.
  induction l as [|x l IH]; intros tbl; simpl.
  - exists []. split; [now rewrite app_nil_r | intros a []].
  - rewrite ins_def.
    destruct (existsb (fun a' => same_key a' (conv x)) tbl) eqn:E.
    + destruct (IH tbl) as (added & Heq & Hadded).
      exists added. split; [exact Heq|].
      intros a Ha. destruct (Hadded a Ha) as [[y [Hy ->]] Hfree].
      split; [exists y; auto | exact Hfree].
    + destruct (IH (tbl ++ [conv x])) as (added & Heq & Hadded).
      exists (conv x :: added). split; [now rewrite Heq, <- app_assoc|].
      intros a [<- | Ha].
      * split; [exists x; auto | now apply key_free].
      * destruct (Hadded a Ha) as [[y [Hy ->]] Hfree].
        split; [exists y; auto|].
        intros Hin. apply Hfree. rewrite map_app. apply in_or_app. now left.
Qed.

Lemma ins_keys_unique a tbl :
  NoDup (map key tbl) -> NoDup (map key (ins a tbl)).
Proof.
  intros H. rewrite ins_def.
  destruct (existsb (fun a' => same_key a' a) tbl) eqn:E; [exact H|].
  rewrite map_app. simpl. apply NoDup_app. repeat split.
  - exact H.
  - repeat constructor. intros [].
  - intros k Hk [<- | []]. now apply key_free in E.
Qed.

Lemma fold_ins_keys_unique : forall l tbl,
  NoDup (map key tbl) ->
  NoDup (map key (fold_left (fun tbl x => ins (conv x) tbl) l tbl)).
Proof.
  induction l as [|x l IH]; intros tbl H; simpl; [exact H|].
  apply IH. now apply ins_keys_unique.
Qed.

Lemma fold_ins_key_present : forall l tbl x,
  In x l ->
  In (key (conv x))
     (map key (fold_left (fun tbl x => ins (conv x) tbl) l tbl)).
Proof.
  intros l tbl x Hx. apply key_taken.
  apply (ReplayFacts.fold_ins_has (fun a' a => same_key a' a) ins conv);
    [exact ins_def | | exact Hx].
  intros a. now apply same_key_spec.
Qed.

End IgnoreOnConflict.

Lemma blocks_appends chainId b tbl :
  exists added,
    insertBlock (block_on chainId b) tbl = tbl ++ added
    /\ (forall x, In x added ->
                  x = block_on chainId b
                  /\ ~ In (block_hash x) (map block_hash tbl)).
Proof.
  destruct (fold_ins_appends block_hash
              (fun a' a => String.eqb (block_hash a') (block_hash a))
              insertBlock (block_on chainId)
              (fun _ _ => eq_refl) (fun a' a => String.eqb_eq _ _) [b] tbl)
    as (added & Heq & Hadded).
  exists added. split; [exact Heq|].
  intros x Hx. destruct (Hadded x Hx) as [[y [[<- | []] ->]] Hfree]. auto.
Qed.

(** X9.  The raw inserts of a block, its transactions and logs only add
    rows: each table is the stored table followed by new rows, every new row
    is one of the given rows (with the chain set) whose key was not stored,
    and afterwards every given hash or log id is stored.  Rows already stored
    under a hash or id are never replaced, and no other table changes. *)
Theorem insertRawRows_appends s chainId b ts ls :
  let s' := insertRawRows s chainId b ts ls in
  (exists added,
      blocks s' = blocks s ++ added
      /\ forall x, In x added ->
                   x = block_on chainId b
                   /\ ~ In (block_hash x) (map block_hash (blocks s)))
  /\ (exists added,
         transactions s' = transactions s ++ added
         /\ forall x, In x added ->
                      (exists t, In t ts /\ x = tx_on chainId t)
                      /\ ~ In (tx_hash x) (map tx_hash (transactions s)))
  /\ (exists added,
         logs s' = logs s ++ added
         /\ forall x, In x added ->
                      (exists l, In l ls /\ x = log_on chainId l)
                      /\ ~ In (log_id x) (map log_id (logs s)))
  /\ In (block_hash b) (map block_hash (blocks s'))
  /\ (forall t, In t ts -> In (tx_hash t) (map tx_hash (transactions s')))
  /\ (forall l, In l ls -> In (log_id l) (map log_id (logs s')))
  /\ logFilters s' = logFilters s
  /\ logFilterIntervals s' = logFilterIntervals s
  /\ factories s' = factories s
  /\ factoryLogFilterIntervals s' = factoryLogFilterIntervals s
  /\ rpcRequestResults s' = rpcRequestResults s.
Proof.
  cbv zeta. simpl.
  split; [apply blocks_appends|].
  split; [apply (fold_ins_appends tx_hash
                   (fun a' a => String.eqb (tx_hash a') (tx_hash a))
                   insertTransaction (tx_on chainId)
                   (fun _ _ => eq_refl) (fun a' a => String.eqb_eq _ _))|].
  split; [apply (fold_ins_appends log_id
                   (fun a' a => String.eqb (log_id a') (log_id a))
                   insertLog (log_on chainId)
                   (fun _ _ => eq_refl) (fun a' a => String.eqb_eq _ _))|].
  split.
  { apply (fold_ins_key_present block_hash
             (fun a' a => String.eqb (block_hash a') (block_hash a))
             insertBlock (block_on chainId)
             (fun _ _ => eq_refl) (fun a' a => String.eqb_eq _ _) [b]).
    now left. }
  split.
  { intros t Ht.
    apply (fold_ins_key_present tx_hash
             (fun a' a => String.eqb (tx_hash a') (tx_hash a))
             insertTransaction (tx_on chainId)
             (fun _ _ => eq_refl) (fun a' a => String.eqb_eq _ _) ts _ t Ht). }
  split.
  { intros l Hl.
    apply (fold_ins_key_present log_id
             (fun a' a => String.eqb (log_id a') (log_id a))
             insertLog (log_on chainId)
             (fun _ _ => eq_refl) (fun a' a => String.eqb_eq _ _) ls _ l Hl). }
  repeat split; reflexivity.
Qed.

Lemma insertRawRows_appends_witness :
  In (log_id Sample.log_S5)
     (map log_id (logs (insertRawRows empty 1 Sample.block1 [] [Sample.log_S5]))).
Proof.
  apply (proj1 (proj2 (proj2 (proj2 (proj2 (proj2
           (insertRawRows_appends empty 1 Sample.block1 [] [Sample.log_S5]))))))).
  left. reflexivity.
Defined.

(** X10.  The raw inserts keep the primary keys unique: when no two stored
    blocks share a hash, no two transactions share a hash and no two logs
    share an id, the same holds after [insertRawRows] (and after
    [insertFactoryChildAddressLogs] for the logs). *)
Theorem insertRawRows_keeps_keys_unique s chainId b ts ls :
  (NoDup (map block_hash (blocks s)) ->
   NoDup (map block_hash (blocks (insertRawRows s chainId b ts ls))))
  /\ (NoDup (map tx_hash (transactions s)) ->
      NoDup (map tx_hash (transactions (insertRawRows s chainId b ts ls))))
  /\ (NoDup (map log_id (logs s)) ->
      NoDup (map log_id (logs (insertRawRows s chainId b ts ls))))
  /\ (NoDup (map log_id (logs s)) ->
      NoDup (map log_id (logs (insertFactoryChildAddressLogs s chainId ls)))).
Proof.
  simpl. split; [|split; [|split]].
  - apply (ins_keys_unique block_hash
             (fun a' a => String.eqb (block_hash a') (block_hash a))
             insertBlock (fun _ _ => eq_refl) (fun a' a => String.eqb_eq _ _)).
  - apply (fold_ins_keys_unique tx_hash
             (fun a' a => String.eqb (tx_hash a') (tx_hash a))
             insertTransaction (tx_on chainId)
             (fun _ _ => eq_refl) (fun a' a => String.eqb_eq _ _)).
  - apply (fold_ins_keys_unique log_id
             (fun a' a => String.eqb (log_id a') (log_id a))
             insertLog (log_on chainId)
             (fun _ _ => eq_refl) (fun a' a => String.eqb_eq _ _)).
  - apply (fold_ins_keys_unique log_id
             (fun a' a => String.eqb (log_id a') (log_id a))
             insertLog (log_on chainId)
             (fun _ _ => eq_refl) (fun a' a => String.eqb_eq _ _)).
Qed.

Lemma insertRawRows_keeps_keys_unique_witness :
  NoDup (map log_id
           (logs (insertRawRows Sample.store_two_children 1 Sample.block1 []
                    [Sample.log_S5]))).
Proof.
  apply (proj1 (proj2 (proj2 (insertRawRows_keeps_keys_unique
                                Sample.store_two_children 1 Sample.block1 []
                                [Sample.log_S5])))).
  vm_compute. repeat constructor; simpl; intuition discriminate.
Defined.

End IngestFacts.

(* ================================================================== *)
(** * More on the coverage query *)
(* ================================================================== *)

Module CoverageMoreFacts.
Import Rows SyncStore Properties StoreProperties.

Lemma built_canonical c chainId f :
  In f (buildLogFilterFragments c chainId) -> canonical f.
Proof.
  intros H. apply FragmentFacts.built_fragment_shape in H.
  rewrite H. reflexivity.
Qed.

Lemma canonical_inj f g : canonical f -> canonical g -> lff_id g = lff_id f -> g = f.
Proof.
  destruct f, g. unfold canonical. simpl. intros -> -> H.
  inversion H; subst. reflexivity.
Qed.

Lemma fold_upsert_rows : forall fragments tbl r,
  In r (fold_left (fun tbl g => upsertLogFilter g tbl) fragments tbl) ->
  In r tbl \/ In r fragments.
Proof.
  induction fragments as [|g fragments IH]; intros tbl r H; simpl in *; [now left|].
  apply IH in H. destruct H as [H | H]; [|right; now right].
  unfold upsertLogFilter in H.
  destruct (existsb _ tbl).
  - apply in_map_iff in H. destruct H as [r' [Hr' Hin]].
    destruct (logFilterId_eqb (lff_id r') (lff_id g)); subst; auto.
  - apply in_app_or in H. destruct H as [H | [<- | []]]; auto.
Qed.

(** The two cases in which the coverage query returns all that every
    fragment has covered: the filter has one fragment, whose selected rows
    are returned as they are, or the lists selected for the fragments are
    each already unioned. *)
Lemma query_covers s chainId q result n :
  (exists f, buildLogFilterFragments q chainId = [f])
  \/ selectedUnioned s chainId q ->
  snd (getLogFilterIntervals s chainId q) = Some result ->
  (forall f, In f (buildLogFilterFragments q chainId) ->
             fragmentCoverage
               (withFragments s (buildLogFilterFragments q chainId))
               chainId f n) ->
  Interval.covered n result.
Proof.
  intros [[f Hf] | Hu] Hres Hall.
  - apply (CoverageFacts.query_single _ _ _ f _ n Hf Hres).
    rewrite <- Hf. apply Hall. rewrite Hf. now left.
  - now apply (CoverageFacts.query_complete _ _ _ _ n Hres Hu).
Qed.

(** An interval row recorded under a settled filter row that joins every
    fragment of the query is covered by what the query returns, in the two
    cases of [query_covers]. *)
Lemma recorded_covered s chainId q a e result n :
  (exists f, buildLogFilterFragments q chainId = [f])
  \/ selectedUnioned s chainId q ->
  (forall f, In f (buildLogFilterFragments q chainId) ->
     exists r, logFilterJoin r f = true /\ lff_chainId r = chainId
               /\ canonical r /\ settled r (logFilters s)
               /\ In (mkLogFilterInterval (lff_id r) a e) (logFilterIntervals s)) ->
  snd (getLogFilterIntervals s chainId q) = Some result ->
  a <= n <= e -> Interval.covered n result.
Proof.
  intros Hcase Hall Hres Hn.
  apply (query_covers _ _ _ _ n Hcase Hres). intros f Hf.
  destruct (Hall f Hf) as (r & Hj & Hc & Hcan & Hset & Hi).
  exists (mkLogFilterInterval (lff_id r) a e), r.
  refine (conj Hi (conj _ (conj eq_refl (conj Hj (conj Hc _))))).
  - simpl. apply FragmentFacts.fold_upsert_keeps_settled; [|exact Hset].
    intros g Hg. apply canonical_inj; [exact Hcan|].
    now apply (built_canonical q chainId).
  - unfold Interval.inside. simpl. lia.
Qed.

Lemma unbound_joins_all chainId f :
  logFilterJoin (fragment_of chainId None None None None None) f = true.
Proof. reflexivity. Qed.

Lemma inserted_settled s chainId lf b ts ls interval r :
  In r (buildLogFilterFragments lf chainId) ->
  settled r (logFilters (insertLogFilterInterval s chainId lf b ts ls interval))
  /\ In (mkLogFilterInterval (lff_id r) (fst interval) (snd interval))
        (logFilterIntervals
           (insertLogFilterInterval s chainId lf b ts ls interval)).
Proof.
  intros Hr. split.
  - unfold insertLogFilterInterval, _insertLogFilterInterval.
    rewrite MergePhaseFacts.fold_record_logFilters. simpl. rewrite app_nil_r.
    apply FragmentFacts.fold_upsert_settled; [|exact Hr].
    intros g Hg. now apply (FragmentFacts.built_fragment_id_inj lf chainId).
  - rewrite MergePhaseFacts.insertLogFilterInterval_intervals.
    apply in_or_app. right. apply in_map_iff. exists r. auto.
Qed.

(** X11.  Coverage recorded for a filter is reused by narrower filters.
    After [insertLogFilterInterval] for a filter with the interval [[a, e]],
    take a query filter whose fragments are each joined by a fragment of the
    stored filter (the stored fragment's bound columns equal the query
    fragment's), and which either has a single fragment or whose selected
    interval lists are each already unioned: its coverage query returns a
    list covering [[a, e]].  The filter with no address and no topics is
    joined to every query fragment. *)
Theorem broader_filter_covers s chainId stored b ts ls a e q :
  let s' := insertLogFilterInterval s chainId stored b ts ls (a, e) in
  ((exists f, buildLogFilterFragments q chainId = [f])
   \/ selectedUnioned s' chainId q) ->
  ((forall f, In f (buildLogFilterFragments q chainId) ->
      exists r, In r (buildLogFilterFragments stored chainId)
                /\ logFilterJoin r f = true) ->
   forall result n,
     snd (getLogFilterIntervals s' chainId q) = Some result ->
     a <= n <= e -> Interval.covered n result)
  /\ (stored = mkLogFilterCriteria None None ->
      forall result n,
        snd (getLogFilterIntervals s' chainId q) = Some result ->
        a <= n <= e -> Interval.covered n result).
Proof.
  cbv zeta. intros Hcase.
  assert (Hmain :
    (forall f, In f (buildLogFilterFragments q chainId) ->
       exists r, In r (buildLogFilterFragments stored chainId)
                 /\ logFilterJoin r f = true) ->
    forall result n,
      snd (getLogFilterIntervals
             (insertLogFilterInterval s chainId stored b ts ls (a, e))
             chainId q) = Some result ->
      a <= n <= e -> Interval.covered n result).
  { intros Hsub result n Hres Hn.
    eapply recorded_covered; [exact Hcase| |exact Hres|exact Hn].
    intros f Hf. destruct (Hsub f Hf) as (r & Hr & Hj).
    exists r. split; [exact Hj|].
    split; [now apply (FragmentFacts.built_fragment_chainId stored)|].
    split; [now apply (built_canonical stored chainId)|].
    now apply (inserted_settled s chainId stored b ts ls (a, e)). }
  split; [exact Hmain|].
  intros Hst. subst stored. apply Hmain. intros f _.
  exists (fragment_of chainId None None None None None).
  split; [now left | apply unbound_joins_all].
Qed.

Lemma broader_filter_covers_witness :
  let s := insertLogFilterInterval empty 1 Sample.filterAB Sample.block1
             [] [] (20, 30) in
  let s' := insertLogFilterInterval s 1 Sample.anyLog Sample.block1
              [] [] (0, 10) in
  selectedUnioned s' 1 Sample.filterAB
  /\ snd (getLogFilterIntervals s' 1 Sample.filterAB)
     = Some [(0, 10); (20, 30)]
  /\ Interval.covered 5 [(0, 10); (20, 30)].
Proof.
  cbv zeta.
  assert (Hu : selectedUnioned
                 (insertLogFilterInterval
                    (insertLogFilterInterval empty 1 Sample.filterAB
                       Sample.block1 [] [] (20, 30))
                    1 Sample.anyLog Sample.block1 [] [] (0, 10))
                 1 Sample.filterAB).
  { unfold selectedUnioned.
    change (Forall Interval.merged [[(0, 10); (20, 30)]; [(0, 10); (20, 30)]]).
    repeat constructor; unfold Interval.apart; simpl; lia. }
  split; [exact Hu|]. split; [reflexivity|].
  apply (proj2 (broader_filter_covers
                  (insertLogFilterInterval empty 1 Sample.filterAB
                     Sample.block1 [] [] (20, 30))
                  1 Sample.anyLog Sample.block1 [] [] 0 10 Sample.filterAB
                  (or_intror Hu))
           eq_refl [(0, 10); (20, 30)] 5).
  - reflexivity.
  - lia.
Defined.

Lemma in_flat_built_canonical chainId lfs f :
  In f (flat_map (fun c => buildLogFilterFragments c chainId) lfs) ->
  canonical f.
Proof.
  intros H. apply in_flat_map in H. destruct H as [c [_ H]].
  now apply (built_canonical c chainId).
Qed.

(** X12.  After [insertRealtimeInterval] with the interval [[a, e]], take
    one of the given log filters, or the filter
    [{ address, topics: [eventSelector] }] of one of the given factories,
    which either has a single fragment (as the filter of a factory has) or
    whose selected interval lists are each already unioned: its coverage
    query returns a list covering [[a, e]]. *)
Theorem realtime_interval_covered s chainId lfs fs a e q :
  let s' := insertRealtimeInterval s chainId lfs fs (a, e) in
  In q (lfs ++ map factoryAsLogFilter fs) ->
  ((exists f, buildLogFilterFragments q chainId = [f])
   \/ selectedUnioned s' chainId q) ->
  forall result n,
    snd (getLogFilterIntervals s' chainId q) = Some result ->
    a <= n <= e -> Interval.covered n result.
Proof.
  cbv zeta. intros Hq Hcase result n Hres Hn.
  eapply recorded_covered; [exact Hcase| |exact Hres|exact Hn].
  intros f Hf. exists f.
  split; [apply FragmentFacts.logFilterJoin_refl|].
  split; [now apply (FragmentFacts.built_fragment_chainId q)|].
  split; [now apply (built_canonical q chainId)|].
  set (all := flat_map (fun c => buildLogFilterFragments c chainId)
                (lfs ++ map factoryAsLogFilter fs)).
  assert (Hin : In f all).
  { apply in_flat_map. exists q. auto. }
  destruct (MergePhaseFacts.insertRealtimeInterval_intervals
              s chainId lfs fs (a, e)) as [Hli _].
  split.
  - unfold insertRealtimeInterval, _insertFactoryLogFilterInterval.
    destruct (MergePhaseFacts.fold_record_factory_others (a, e)
                (flat_map (fun c => buildFactoryFragments c chainId) fs)
                (_insertLogFilterInterval s chainId
                   (lfs ++ map factoryAsLogFilter fs) (a, e)))
      as (_ & _ & _ & Hlf & _).
    unfold factoryAsLogFilter in *.
    rewrite Hlf. unfold _insertLogFilterInterval.
    rewrite MergePhaseFacts.fold_record_logFilters.
    apply FragmentFacts.fold_upsert_settled; [|exact Hin].
    intros g Hg. apply canonical_inj.
    + now apply (built_canonical q chainId).
    + now apply (in_flat_built_canonical chainId
                   (lfs ++ map factoryAsLogFilter fs)).
  - unfold factoryAsLogFilter in *. rewrite Hli.
    apply in_or_app. right. apply in_map_iff. exists f. auto.
Qed.

Lemma realtime_interval_covered_witness :
  snd (getLogFilterIntervals
         (insertRealtimeInterval Sample.store_S2_both 1 [Sample.filterAB]
            [Sample.factory0] (11, 12)) 1 Sample.filterAB)
  = Some [(0, 12)]
  /\ Interval.covered 12 [(0, 12)].
Proof.
  split; [reflexivity|].
  apply (realtime_interval_covered Sample.store_S2_both 1 [Sample.filterAB]
           [Sample.factory0] 11 12 Sample.filterAB)
    with (result := [(0, 12)]).
  - left. reflexivity.
  - right. unfold selectedUnioned. vm_compute. repeat constructor.
  - reflexivity.
  - lia.
Defined.

(** X14.  A coverage query does not change what the same query reports: run
    again on the store it left, [getLogFilterIntervals] covers the same
    block numbers. *)
Theorem getLogFilterIntervals_again s chainId q r1 r2 n :
  snd (getLogFilterIntervals s chainId q) = Some r1 ->
  snd (getLogFilterIntervals (fst (getLogFilterIntervals s chainId q)) chainId q)
  = Some r2 ->
  (Interval.covered n r2 <-> Interval.covered n r1).
Proof.
  intros H1 H2.
  apply (RepeatedRowsFacts.results_stutter s
           (fst (getLogFilterIntervals s chainId q)) chainId q r1 r2 n H1 H2).
  { rewrite !RepeatedRowsFacts.merged_logFilters.
    apply FragmentFacts.fold_upsert_built_twice. }
  rewrite !RepeatedRowsFacts.merged_intervals.
  apply (MergeRowsFacts.fold_merge_stutter logFilterId_eqb
           EqFacts.logFilterId_eqb_eq lfi_logFilterId interval_of_row
           (fun id x => mkLogFilterInterval id (fst x) (snd x))).
  - reflexivity.
  - intros id [a e]; reflexivity.
  - rewrite (MergeRowsFacts.fold_merge_untouched logFilterId_eqb
               EqFacts.logFilterId_eqb_eq lfi_logFilterId interval_of_row
               (fun id x => mkLogFilterInterval id (fst x) (snd x))).
    + apply StutterFacts.stutter_refl.
    + reflexivity.
    + intros f Hf. now apply in_map.
  - intros id Hid.
    rewrite (MergeRowsFacts.fold_merge_rows logFilterId_eqb
               EqFacts.logFilterId_eqb_eq lfi_logFilterId interval_of_row
               (fun id x => mkLogFilterInterval id (fst x) (snd x)));
      [|reflexivity|intros ? [? ?]; reflexivity].
    replace (existsb (logFilterId_eqb id)
               (map lff_id (buildLogFilterFragments q chainId))) with true.
    + rewrite IntervalFacts.intervalUnion_idempotent.
      apply StutterFacts.stutter_refl.
    + symmetry. apply existsb_exists. exists id. split; [exact Hid|].
      apply EqFacts.logFilterId_eqb_refl.
Qed.

Lemma getLogFilterIntervals_again_witness :
  Interval.covered 7 [(5, 10)] <-> Interval.covered 7 [(5, 10)].
Proof.
  apply (getLogFilterIntervals_again Sample.store_S2 1 Sample.filterAB
           [(5, 10)] [(5, 10)] 7); reflexivity.
Defined.

Lemma canonical_chain r r' :
  canonical r -> canonical r' -> lff_id r = lff_id r' ->
  lff_chainId r = lff_chainId r'.
Proof.
  unfold canonical. intros H H' Hid. rewrite H, H' in Hid. now inversion Hid.
Qed.

(** X8.  After a reorg truncation the reported coverage stays at or below
    the pivot: on a store whose filter rows are named by their columns and
    whose interval rows each belong to a filter row, every block number
    covered by [getLogFilterIntervals] after [deleteRealtimeData] of the
    chain is at most the pivot. *)
Theorem truncated_coverage_bounded s chainId pivot q result n :
  wellFormed s ->
  snd (getLogFilterIntervals (deleteRealtimeData s chainId pivot) chainId q)
  = Some result ->
  Interval.covered n result -> n <= pivot.
Proof.
  intros [Hcan Hfk] Hres Hcov.
  pose proof (CoverageFacts.query_returned _ _ _ _ Hres) as Hne.
  pose proof (CoverageFacts.query_sound _ _ _ _ n Hres Hcov) as Hall.
  clear Hcov. rename Hall into Hcov.
  destruct (buildLogFilterFragments q chainId) as [|f fragments] eqn:Efr;
    [contradiction|].
  destruct (Hcov f (or_introl eq_refl)) as (i & r & Hi & Hr & Hid & _ & Hc & Hn).
  simpl in Hi, Hr.
  assert (Hrcan : canonical r).
  { apply (fold_upsert_rows (f :: fragments)) in Hr. destruct Hr as [Hr | Hr].
    - now apply Hcan.
    - apply (built_canonical q chainId). now rewrite Efr. }
  change (In i (logFilterIntervals (deleteRealtimeData s chainId pivot))) in Hi.
  rewrite TruncateMoreFacts.truncated_logFilterIntervals in Hi.
  assert (Hon : logFilterInterval_on s chainId i = true).
  { pose proof Hi as Hi'.
    apply TruncateRowsFacts.truncateRows_shrinks in Hi'; try reflexivity.
    destruct Hi' as (i0 & Hi0 & _ & _ & Hform & _).
    assert (Hid0 : lfi_logFilterId i = lfi_logFilterId i0)
      by (destruct Hform as [-> | ->]; reflexivity).
    destruct (Hfk i0 Hi0) as (r0 & Hr0 & Hr0id).
    unfold logFilterInterval_on.
    destruct (find (fun r => logFilterId_eqb (lff_id r) (lfi_logFilterId i))
                   (logFilters s)) as [r1|] eqn:Ef.
    - apply find_some in Ef. destruct Ef as [Hr1 Hr1id].
      apply EqFacts.logFilterId_eqb_eq in Hr1id. apply Z.eqb_eq.
      rewrite <- Hc. apply canonical_chain; auto. congruence.
    - apply (find_none _ _ Ef) in Hr0.
      apply EqFacts.logFilterId_eqb_neq in Hr0. congruence. }
  apply TruncateRowsFacts.truncateRows_bounds in Hi;
    try reflexivity; try exact Hon.
  unfold Interval.inside in Hn. simpl in Hn. lia.
Qed.

Lemma truncated_coverage_bounded_witness : 5 <= 6.
Proof.
  apply (truncated_coverage_bounded Sample.store_S4 1 6 Sample.anyLog [(1, 6)] 5).
  - split.
    + intros r [<- | []]. reflexivity.
    + intros i [<- | []]. eexists. split; [left; reflexivity | reflexivity].
  - reflexivity.
  - exists (1, 6). split; [now left | unfold Interval.inside; simpl; lia].
Defined.

End CoverageMoreFacts.

(* ================================================================== *)
(** * The pages of [getFactoryChildAddresses] *)
(* ================================================================== *)

Module ChildIteratorFacts.
Import Rows ChildAddress StoreProperties.

Lemma childAddressRows_spec s chainId upTo factory l :
  In l (childAddressRows s chainId upTo factory)
  <-> In l (logs s) /\ announces chainId upTo factory l.
Proof.
  unfold childAddressRows, announces.
  rewrite filter_In, !andb_true_iff, Z.eqb_eq, String.eqb_eq,
    EqFacts.opt_eqb_eq, Z.leb_le.
  tauto.
Qed.

Lemma last_snoc {A} (front : list A) r :
  last (map Some (front ++ [r])) None = Some r.
Proof. rewrite map_app. simpl. apply last_last. Qed.

Lemma childAddressLoop_pageSize0 s chainId upTo factory :
  forall fuel cursor,
    childAddressLoop fuel s chainId upTo factory 0 cursor = None.
Proof.
  induction fuel as [|fuel IH]; intros cursor; simpl; [reflexivity|].
  now rewrite IH.
Qed.

(** X15.  With [pageSize = 0] the loop of [getFactoryChildAddresses] never
    meets its exit test ([batch.length < pageSize]): whatever the store and
    the factory, no number of iterations makes the generator return. *)
Theorem getFactoryChildAddresses_pageSize0 fuel s chainId upTo factory :
  getFactoryChildAddresses fuel s chainId upTo factory 0 = None.
Proof. apply childAddressLoop_pageSize0. Qed.

(** X16.  Whatever the store and the page size, every page yielded by
    [getFactoryChildAddresses] is non-empty, holds at most [pageSize]
    addresses, and each of them is the child address derived from a stored
    log of the factory on the chain at or below [upToBlockNumber]: nothing
    else is ever yielded. *)
Theorem getFactoryChildAddresses_sound fuel s chainId upTo factory pageSize pages :
  getFactoryChildAddresses fuel s chainId upTo factory pageSize = Some pages ->
  Forall (fun page =>
            page <> []
            /\ (List.length page <= pageSize)%nat
            /\ forall a, In a page ->
                 exists l, In l (logs s)
                           /\ announces chainId upTo factory l
                           /\ a = buildFactoryChildAddressSelectExpression
                                    (fc_childAddressLocation factory) l)
         pages.
Proof.
  unfold getFactoryChildAddresses. generalize (@None Z) as cursor.
  revert pages. induction fuel as [|fuel IH]; intros pages cursor H;
    [discriminate|].
  simpl in H.
  set (batch := childAddressBatch s chainId upTo factory pageSize cursor) in *.
  assert (Hbatch :
    (0 <? List.length batch)%nat = true ->
    map (buildFactoryChildAddressSelectExpression
           (fc_childAddressLocation factory)) batch <> []
    /\ (List.length (map (buildFactoryChildAddressSelectExpression
                            (fc_childAddressLocation factory)) batch)
        <= pageSize)%nat
    /\ forall a,
         In a (map (buildFactoryChildAddressSelectExpression
                      (fc_childAddressLocation factory)) batch) ->
         exists l, In l (logs s) /\ announces chainId upTo factory l
                   /\ a = buildFactoryChildAddressSelectExpression
                            (fc_childAddressLocation factory) l).
  { intros Hpos. apply Nat.ltb_lt in Hpos. split; [|split].
    - intros H0. apply (f_equal (@List.length _)) in H0.
      rewrite length_map in H0. simpl in H0. lia.
    - rewrite length_map. unfold batch, childAddressBatch.
      rewrite length_firstn. lia.
    - intros a Ha. apply in_map_iff in Ha. destruct Ha as [l [<- Hl]].
      exists l. unfold batch, childAddressBatch in Hl.
      apply OrderFacts.in_firstn, filter_In in Hl. destruct Hl as [Hl _].
      apply childAddressRows_spec in Hl. tauto. }
  destruct (List.length batch <? pageSize)%nat.
  - inversion H; subst.
    destruct (0 <? List.length batch)%nat; constructor; auto.
  - destruct (childAddressLoop fuel s chainId upTo factory pageSize _)
      as [pages'|] eqn:E; [|discriminate].
    inversion H; subst. apply IH in E.
    destruct (0 <? List.length batch)%nat; simpl; [|exact E].
    constructor; auto.
Qed.

Lemma getFactoryChildAddresses_sound_witness :
  Forall (fun page =>
            page <> []
            /\ (List.length page <= 1)%nat
            /\ forall a, In a page ->
                 exists l, In l (logs Sample.store_two_children)
                           /\ announces 1 10 Sample.factory0 l
                           /\ a = buildFactoryChildAddressSelectExpression
                                    (fc_childAddressLocation Sample.factory0) l)
         [[Some ("0x" ++ Sample.aa20)%string]].
Proof.
  apply (getFactoryChildAddresses_sound 3 Sample.store_two_children 1 10
           Sample.factory0 1).
  reflexivity.
Defined.

(** In a list strictly ascending in a number, the elements above the number
    of one element are the elements that follow it. *)
Lemma above_last_is_rest {A} (k : A -> Z) front r rest :
  StronglySorted (fun a b => k a < k b) (front ++ r :: rest) ->
  filter (fun x => k r <? k x) (front ++ r :: rest) = rest.
Proof.
  induction front as [|a front IH]; simpl; intros H.
  - rewrite Z.ltb_irrefl. inversion H as [|? ? _ Hr]; subst.
    apply forallb_filter_id, forallb_forall. intros x Hx.
    rewrite Forall_forall in Hr. apply Z.ltb_lt. now apply Hr.
  - inversion H as [|? ? Hs Ha]; subst.
    rewrite Forall_forall in Ha.
    assert (Har : k a < k r) by (apply Ha, in_or_app; right; now left).
    assert (E : (k r <? k a) = false) by (apply Z.ltb_ge; lia).
    rewrite E. now apply IH.
Qed.

Lemma childAddressLoop_complete s chainId upTo factory pageSize :
  (0 < pageSize)%nat ->
  StronglySorted (fun a b => log_blockNumber a < log_blockNumber b)
                 (childAddressRows s chainId upTo factory) ->
  forall fuel cursor,
    let rest := filter (fun l => match cursor with
                                 | Some c => c <? log_blockNumber l
                                 | None => true
                                 end)
                       (childAddressRows s chainId upTo factory) in
    (List.length rest < fuel)%nat ->
    exists pages,
      childAddressLoop fuel s chainId upTo factory pageSize cursor = Some pages
      /\ List.concat pages
         = map (buildFactoryChildAddressSelectExpression
                  (fc_childAddressLocation factory)) rest.
Proof.
  intros Hn Hsorted.
  set (rows := childAddressRows s chainId upTo factory) in *.
  induction fuel as [|fuel IH]; intros cursor rest Hlen; [lia|].
  simpl. unfold childAddressBatch. fold rows. fold rest.
  set (batch := firstn pageSize rest).
  destruct (List.length batch <? pageSize)%nat eqn:E.
  - apply Nat.ltb_lt in E.
    assert (Hall : batch = rest) by now apply PaginationFacts.firstn_short.
    eexists. split; [reflexivity|]. rewrite Hall.
    destruct (0 <? List.length rest)%nat eqn:E0; simpl.
    + now rewrite app_nil_r.
    + apply Nat.ltb_ge in E0. destruct rest; [reflexivity | simpl in E0; lia].
  - apply Nat.ltb_ge in E.
    assert (Hfull : List.length batch = pageSize)
      by (unfold batch in *; apply PaginationFacts.firstn_full; lia).
    assert (Hne : batch <> [])
      by (intros H0; rewrite H0 in Hfull; simpl in Hfull; lia).
    destruct (exists_last Hne) as (front & r & Hbatch).
    assert (Hlast : last (map Some batch) None = Some r)
      by (rewrite Hbatch; apply last_snoc).
    rewrite Hlast.
    assert (Hsplit : rest = front ++ r :: skipn pageSize rest).
    { rewrite <- (firstn_skipn pageSize rest) at 1. fold batch.
      rewrite Hbatch, <- app_assoc. reflexivity. }
    assert (Hr : In r rest).
    { rewrite Hsplit. apply in_or_app. right. now left. }
    assert (Hnext : filter (fun l => log_blockNumber r <? log_blockNumber l) rows
                    = skipn pageSize rest).
    { assert (Hrest : StronglySorted
                        (fun a b => log_blockNumber a < log_blockNumber b) rest)
        by (apply OrderFacts.filter_sorted; exact Hsorted).
      rewrite Hsplit in Hrest.
      rewrite <- (above_last_is_rest log_blockNumber front r _ Hrest).
      rewrite <- Hsplit. unfold rest. symmetry.
      apply OrderFacts.filter_narrow. intros x _ Hx.
      destruct cursor as [c|]; [|reflexivity].
      unfold rest in Hr. apply filter_In in Hr. destruct Hr as [_ Hr].
      apply Z.ltb_lt in Hr, Hx. apply Z.ltb_lt. lia. }
    destruct (IH (Some (log_blockNumber r))) as (pages & Hp & Hc).
    { rewrite Hnext, length_skipn.
      assert (List.length rest >= pageSize)%nat.
      { rewrite <- Hfull. unfold batch. rewrite length_firstn. lia. }
      lia. }
    rewrite Hp. simpl. eexists. split; [reflexivity|].
    assert (E0 : (0 <? List.length batch)%nat = true)
      by (apply Nat.ltb_lt; lia).
    rewrite E0. simpl. rewrite Hc, Hnext, <- map_app.
    unfold batch. now rewrite firstn_skipn.
Qed.

(** X17.  When the announcements of the factory come in strictly ascending
    block numbers in the scan (at most one per block, stored in block order)
    and the page size is positive, [getFactoryChildAddresses] returns and its
    pages, one after the other, are the child addresses of all the
    announcements up to [upToBlockNumber], each once, in that order. *)
Theorem getFactoryChildAddresses_complete s chainId upTo factory pageSize :
  (0 < pageSize)%nat ->
  StronglySorted (fun a b => log_blockNumber a < log_blockNumber b)
                 (childAddressRows s chainId upTo factory) ->
  exists pages,
    getFactoryChildAddresses
      (S (List.length (childAddressRows s chainId upTo factory)))
      s chainId upTo factory pageSize = Some pages
    /\ List.concat pages
       = map (buildFactoryChildAddressSelectExpression
                (fc_childAddressLocation factory))
             (childAddressRows s chainId upTo factory).
Proof.
  intros Hn Hs.
  destruct (childAddressLoop_complete s chainId upTo factory pageSize Hn Hs
              (S (List.length (childAddressRows s chainId upTo factory))) None)
    as (pages & Hp & Hc).
  { rewrite forallb_filter_id by (apply forallb_forall; reflexivity). lia. }
  exists pages. split; [exact Hp|].
  rewrite Hc. f_equal.
  apply forallb_filter_id, forallb_forall. reflexivity.
Qed.

Lemma getFactoryChildAddresses_complete_witness :
  getFactoryChildAddresses 4 Sample.store_three_children 1 10
    Sample.factory0 2
  = Some [[Some ("0x" ++ Sample.aa20)%string; Some ("0x" ++ Sample.bb20)%string];
          [Some ("0x" ++ Sample.cc20)%string]]
  /\ exists pages,
       getFactoryChildAddresses 4 Sample.store_three_children 1 10
         Sample.factory0 2 = Some pages
       /\ List.concat pages
          = [Some ("0x" ++ Sample.aa20)%string;
             Some ("0x" ++ Sample.bb20)%string;
             Some ("0x" ++ Sample.cc20)%string].
Proof.
  split; [reflexivity|].
  apply (getFactoryChildAddresses_complete Sample.store_three_children 1 10
           Sample.factory0 2).
  - lia.
  - change (StronglySorted
              (fun a b => log_blockNumber a < log_blockNumber b)
              [Sample.log_S5; Sample.log_b6; Sample.log_b8]).
    repeat constructor.
Defined.

(** X24.  For the locations ["topic1"], ["topic2"] and ["topic3"] the
    child address of a log is ["0x"] followed by the 20 bytes of that topic
    that start at byte 12 (the low 20 bytes of the 32-byte word), and it is
    [NULL] for a log without that topic. *)
Theorem childAddress_topic (l : Log) :
  buildFactoryChildAddressSelectExpression "topic1" l
  = option_map (fun topic => "0x" ++ Properties.data_bytes topic 12 20)%string
               (log_topic1 l)
  /\ buildFactoryChildAddressSelectExpression "topic2" l
     = option_map (fun topic => "0x" ++ Properties.data_bytes topic 12 20)%string
                  (log_topic2 l)
  /\ buildFactoryChildAddressSelectExpression "topic3" l
     = option_map (fun topic => "0x" ++ Properties.data_bytes topic 12 20)%string
                  (log_topic3 l).
Proof.
  unfold buildFactoryChildAddressSelectExpression, column_ref. simpl.
  split; [|split];
    [destruct (log_topic1 l) | destruct (log_topic2 l)
     | destruct (log_topic3 l)];
    reflexivity.
Qed.

End ChildIteratorFacts.

(* ================================================================== *)
(** * What every run of [getLogEvents] yields *)
(* ================================================================== *)

Module EventsMoreFacts.
Import Rows Events Properties StoreProperties OrderFacts PaginationFacts.

Lemma firstn_sorted {A} (R : A -> A -> Prop) l :
  StronglySorted R l -> forall n, StronglySorted R (firstn n l).
Proof.
  induction 1 as [|a l Hl IH Ha]; intros [|n]; simpl; try constructor.
  - apply IH.
  - rewrite Forall_forall in *. intros x Hx. apply Ha.
    eapply OrderFacts.in_firstn; eauto.
Qed.

Lemma sorted_app {A} (R : A -> A -> Prop) l1 l2 :
  StronglySorted R l1 -> StronglySorted R l2 ->
  (forall x y, In x l1 -> In y l2 -> R x y) ->
  StronglySorted R (l1 ++ l2).
Proof.
  induction 1 as [|a l Hl IH Ha]; intros H2 H; simpl; [exact H2|].
  constructor.
  - apply IH; [exact H2|]. intros x y Hx Hy. apply H; [now right | exact Hy].
  - apply Forall_app. split; [exact Ha|].
    apply Forall_forall. intros y Hy. apply H; [now left | exact Hy].
Qed.

Lemma last_is_max front r :
  nondecreasing (front ++ [r]) ->
  forall x, In x (front ++ [r]) -> key_ltb (row_key r) (row_key x) = false.
Proof.
  unfold nondecreasing. induction front as [|a front IH]; simpl; intros H x Hx.
  - destruct Hx as [<- | []]. apply key_lt_irrefl.
  - inversion H as [|? ? Hs Ha]; subst. destruct Hx as [<- | Hx].
    + rewrite Forall_forall in Ha. apply Ha. apply in_or_app. right. now left.
    + now apply IH.
Qed.

Lemma filter_none {A} (p : A -> bool) l :
  (forall x, In x l -> p x = false) -> filter p l = [].
Proof.
  induction l as [|a l IH]; intros H; simpl; [reflexivity|].
  rewrite (H a) by now left. apply IH. intros x Hx. apply H. now right.
Qed.

Lemma filter_filter_le {A} (p q : A -> bool) l :
  (List.length (filter p (filter q l)) <= List.length (filter p l))%nat.
Proof.
  induction l as [|a l IH]; simpl; [lia|].
  destruct (q a); simpl; destruct (p a); simpl; lia.
Qed.

Lemma filter_filter_mono {A} (p f g : A -> bool) l :
  (forall x, In x l -> f x = true -> g x = true) ->
  (List.length (filter p (filter f l))
   <= List.length (filter p (filter g l)))%nat.
Proof.
  induction l as [|a l IH]; intros H; simpl; [lia|].
  assert (IH' := IH (fun x Hx => H x (or_intror Hx))).
  destruct (f a) eqn:Ef.
  - rewrite (H a (or_introl eq_refl) Ef). simpl. destruct (p a); simpl; lia.
  - destruct (g a); simpl; [destruct (p a); simpl; lia | lia].
Qed.

Lemma includedWhere_counted s q r :
  includedWhere s q r = true -> countsWhere s q r = true.
Proof.
  unfold includedWhere, countsWhere, or_.
  rewrite !existsb_app, !orb_true_iff, !existsb_exists.
  intros [[c [Hc Hr]] | [c [Hc Hr]]]; [left | right];
    apply in_map_iff in Hc; destruct Hc as [f [<- Hf]];
    (eexists; split; [apply in_map_iff; exists f; split;
                      [reflexivity | exact Hf] |]);
    unfold and_ in *; rewrite forallb_app in Hr;
    apply andb_true_iff in Hr; tauto.
Qed.

Lemma requestedLogs_in s q cursor r :
  In r (requestedLogs s q cursor) ->
  In r (matchingRows s q) /\ afterCursor cursor r = true.
Proof.
  rewrite requestedLogs_sorted. intros H.
  apply OrderFacts.in_firstn, filter_In in H. destruct H as [H1 H2].
  split; [|exact H2]. now apply (Permutation_in _ (orderBy_perm _)).
Qed.

Lemma requestedLogs_nondecreasing s q cursor :
  nondecreasing (requestedLogs s q cursor).
Proof.
  rewrite requestedLogs_sorted. apply firstn_sorted, filter_sorted.
  apply orderBy_ascending.
Qed.

Lemma yield_pages page o pages :
  yield page o = Pages pages ->
  exists pages', o = Pages pages' /\ pages = page :: pages'.
Proof.
  destruct o as [pages'| |]; simpl; try discriminate.
  intros [= <-]. now exists pages'.
Qed.

Lemma pagesLoop_pageSize0 s q ec :
  pageSize q = 0%nat ->
  forall fuel cursor pages, pagesLoop fuel s q ec cursor <> Pages pages.
Proof.
  intros Hn. induction fuel as [|fuel IH]; intros cursor pages H; simpl in H;
    [discriminate|].
  destruct (forallb decodes _); [|discriminate].
  destruct (_ <? pageSize q)%nat eqn:E.
  - apply Nat.ltb_lt in E. lia.
  - apply yield_pages in H. destruct H as (pages' & H & _).
    exact (IH _ _ H).
Qed.

(** The rows a run yields from a cursor on: rows the request selects that
    are after the cursor, in ascending order, in pages that are all full but
    the last, and no more of any kind than the selected rows after the
    cursor hold. *)
Lemma pagesLoop_sound s q ec : forall fuel cursor pages,
  pagesLoop fuel s q ec cursor = Pages pages ->
  (forall r, In r (allEvents pages) ->
     In r (matchingRows s q) /\ afterCursor cursor r = true)
  /\ nondecreasing (allEvents pages)
  /\ (exists front final,
        pages = front ++ [final]
        /\ Forall (fun p => List.length (events p) = pageSize q) front
        /\ (List.length (events final) < pageSize q)%nat)
  /\ (forall p,
        (List.length (filter p (allEvents pages))
         <= List.length (filter p (filter (afterCursor cursor)
                                     (orderBy (matchingRows s q)))))%nat).
Proof.
  induction fuel as [|fuel IH]; intros cursor pages H; [discriminate|].
  simpl in H.
  pose proof (requestedLogs_in s q cursor) as Hin.
  pose proof (requestedLogs_nondecreasing s q cursor) as Hsorted.
  pose proof (requestedLogs_sorted s q cursor) as Hrows.
  set (rows := requestedLogs s q cursor) in *.
  set (rest := filter (afterCursor cursor) (orderBy (matchingRows s q))) in *.
  destruct (forallb decodes rows); [|discriminate].
  destruct (List.length rows <? pageSize q)%nat eqn:E.
  - inversion H; subst pages. unfold allEvents. simpl. rewrite app_nil_r.
    split; [exact Hin|]. split; [exact Hsorted|]. split.
    + eexists [], _. split; [reflexivity|]. split; [constructor|].
      simpl. now apply Nat.ltb_lt.
    + intros p. apply Nat.ltb_lt in E. rewrite Hrows in E.
      apply firstn_short in E. rewrite Hrows, E. lia.
  - apply yield_pages in H. destruct H as (pages' & Ep & Hpages).
    destruct (Nat.eq_dec (pageSize q) 0) as [H0|H0].
    { now apply (pagesLoop_pageSize0 s q ec H0) in Ep. }
    apply Nat.ltb_ge in E.
    assert (Hfull : List.length rows = pageSize q).
    { rewrite Hrows in *. apply firstn_full. lia. }
    assert (Hne : rows <> [])
      by (intros Hnil; rewrite Hnil in Hfull; simpl in Hfull; lia).
    destruct (lastRow_some rows Hne) as (front & lr & Hsplit & Hlast).
    rewrite Hlast in Ep, Hpages. subst pages.
    destruct (IH _ _ Ep) as (Hin' & Hs' & (fr & final & Hfr & Hall & Hshort)
                             & Hcount).
    assert (Hlr : afterCursor cursor lr = true).
    { apply Hin. rewrite Hsplit. apply in_or_app. right. now left. }
    assert (Hmax : forall x, In x rows ->
                             key_ltb (row_key lr) (row_key x) = false).
    { rewrite Hsplit in *. now apply last_is_max. }
    change (allEvents (?p :: pages')) with (events p ++ allEvents pages').
    simpl events.
    split; [|split; [|split]].
    + intros r Hr. apply in_app_or in Hr. destruct Hr as [Hr|Hr]; [auto|].
      destruct (Hin' r Hr) as [Hm Ha]. split; [exact Hm|].
      now apply (afterCursor_next cursor lr).
    + apply sorted_app; [exact Hsorted | exact Hs' |].
      intros x y Hx Hy. apply key_lt_le.
      apply (key_le_lt_trans _ (row_key lr)); [now apply Hmax|].
      apply (Hin' y Hy).
    + eexists (_ :: fr), final. rewrite Hfr. split; [reflexivity|].
      split; [|exact Hshort]. constructor; [exact Hfull | exact Hall].
    + intros p. rewrite filter_app, length_app.
      specialize (Hcount p).
      assert (Hnext : filter (afterCursor (Some (row_key lr)))
                             (orderBy (matchingRows s q))
                      = filter (afterCursor (Some (row_key lr)))
                               (skipn (pageSize q) rest)).
      { transitivity (filter (afterCursor (Some (row_key lr))) rest).
        - unfold rest. symmetry. apply filter_narrow.
          intros x _. now apply afterCursor_next.
        - rewrite <- (firstn_skipn (pageSize q) rest) at 1.
          rewrite filter_app, <- Hrows.
          rewrite (filter_none _ rows) by exact Hmax. reflexivity. }
      rewrite Hnext in Hcount.
      pose proof (filter_filter_le p (afterCursor (Some (row_key lr)))
                    (skipn (pageSize q) rest)) as Hle.
      rewrite <- (firstn_skipn (pageSize q) rest) at 1.
      rewrite filter_app, length_app, <- Hrows. lia.
Qed.

Lemma getLogEvents_loop fuel s q pages :
  getLogEvents fuel s q = Pages pages ->
  pagesLoop fuel s q (eventCounts s q) None = Pages pages.
Proof.
  unfold getLogEvents. destruct (eventSourceNames q); [discriminate|].
  tauto.
Qed.

(** X18.  With [pageSize = 0] no page is shorter than the page size, so
    the loop of [getLogEvents] never reaches its [break]: the generator does
    not return, whatever the store and however long it runs. *)
Theorem getLogEvents_pageSize0 fuel s q pages :
  pageSize q = 0%nat -> getLogEvents fuel s q <> Pages pages.
Proof.
  intros Hn H. apply getLogEvents_loop in H.
  now apply (pagesLoop_pageSize0 s q _ Hn) in H.
Qed.

Lemma getLogEvents_pageSize0_witness :
  getLogEvents 5 Sample.store_S6 (Sample.request_S6 0) <> Pages [].
Proof.
  apply (getLogEvents_pageSize0 5 Sample.store_S6 (Sample.request_S6 0) []).
  reflexivity.
Defined.

(** X19.  Whatever the store and the request (ties in the ordering key
    included), when [getLogEvents] returns, every event of every page is a
    row the request selects, the events of all the pages one after the other
    are ascending in [(timestamp, chainId, blockNumber, logIndex)], and every
    page but the last holds exactly [pageSize] events while the last holds
    fewer. *)
Theorem getLogEvents_sound fuel s q pages :
  getLogEvents fuel s q = Pages pages ->
  (forall r, In r (allEvents pages) -> In r (matchingRows s q))
  /\ nondecreasing (allEvents pages)
  /\ exists front final,
       pages = front ++ [final]
       /\ Forall (fun p => List.length (events p) = pageSize q) front
       /\ (List.length (events final) < pageSize q)%nat.
Proof.
  intros H. apply getLogEvents_loop, pagesLoop_sound in H.
  destruct H as (Hin & Hs & Hp & _).
  split; [|split]; auto. intros r Hr. now apply Hin.
Qed.

Lemma getLogEvents_sound_witness :
  exists pages,
    getLogEvents 3 Sample.store_one_log (Sample.request_two_sources 2)
    = Pages pages
    /\ (forall r, In r (allEvents pages) ->
          In r (matchingRows Sample.store_one_log
                             (Sample.request_two_sources 2)))
    /\ nondecreasing (allEvents pages)
    /\ exists front final,
         pages = front ++ [final]
         /\ Forall (fun p => List.length (events p) = 2%nat) front
         /\ (List.length (events final) < 2)%nat.
Proof.
  eexists. split; [reflexivity|].
  apply (getLogEvents_sound 3 Sample.store_one_log
           (Sample.request_two_sources 2)).
  reflexivity.
Defined.

(** X21.  When [getLogEvents] returns, the events of an event source and
    selector in all its pages together are no more than the count every
    page's metadata gives for that source and selector, and that entry is
    there as soon as one such event is yielded (no row is yielded twice, and
    none that the counts leave out). *)
Theorem getLogEvents_counts_bound fuel s q pages name selector :
  getLogEvents fuel s q = Pages pages ->
  (0 < List.length (eventsOf name selector (allEvents pages)))%nat ->
  exists c,
    (List.length (eventsOf name selector (allEvents pages)) <= c)%nat
    /\ forall p, In p pages ->
                 In (mkEventCount name selector c) (counts (metadata p)).
Proof.
  intros H Hpos. apply getLogEvents_loop in H.
  pose proof (pagesLoop_counts s q (eventCounts s q) fuel None) as Hc.
  rewrite H in Hc. cbn [yieldedPages] in Hc.
  apply pagesLoop_sound in H. destruct H as (_ & _ & _ & Hcount).
  specialize (Hcount (fun r => String.eqb (eventSource_name r) name
                               && opt_eqb (log_topic0 (row_log r)) selector)).
  fold (eventsOf name selector (allEvents pages)) in Hcount.
  rewrite (forallb_filter_id (afterCursor None)) in Hcount
    by (apply forallb_forall; reflexivity).
  rewrite <- orderBy_filter, orderBy_length in Hcount.
  assert (Hle : (List.length (eventsOf name selector (allEvents pages))
                 <= countedRows s q name selector)%nat).
  { etransitivity; [exact Hcount|]. unfold matchingRows, countedRows.
    apply filter_filter_mono. intros r _ Hr.
    apply andb_true_iff in Hr. destruct Hr as [Ht Hi].
    rewrite Ht. simpl. now apply includedWhere_counted. }
  exists (countedRows s q name selector). split; [exact Hle|].
  intros p Hp. rewrite Forall_forall in Hc. rewrite (Hc p Hp).
  apply CountsFacts.eventCounts_spec. split; [lia | reflexivity].
Qed.

Lemma getLogEvents_counts_bound_witness :
  exists pages,
    getLogEvents 4 Sample.store_S6 (Sample.request_S6_onlyX 2) = Pages pages
    /\ exists c,
         (List.length (eventsOf "src" (Some Sample.selX) (allEvents pages))
          <= c)%nat
         /\ forall p, In p pages ->
                      In (mkEventCount "src" (Some Sample.selX) c)
                         (counts (metadata p)).
Proof.
  eexists. split; [reflexivity|].
  apply (getLogEvents_counts_bound 4 Sample.store_S6
           (Sample.request_S6_onlyX 2)).
  - reflexivity.
  - vm_compute. lia.
Defined.

Lemma key_le_timestamp a b :
  key_ltb b a = false -> cur_timestamp a <= cur_timestamp b.
Proof. intros. key_order. Qed.

Lemma key_lt_timestamp a b :
  key_ltb a b = true -> cur_timestamp a <= cur_timestamp b.
Proof. intros. key_order. Qed.

Lemma matching_timestamp s q r :
  In r (matchingRows s q) ->
  exists b, row_block r = Some b
            /\ row_timestamp r = block_timestamp b
            /\ fromTimestamp q <= block_timestamp b <= toTimestamp q.
Proof.
  intros H. apply filter_In in H. destruct H as [_ H].
  apply andb_true_iff in H. destruct H as [H _].
  unfold timestampWhere, and_, block_cmp, row_timestamp, row_key in *.
  simpl in *. destruct (row_block r) as [b|]; [|discriminate].
  exists b. rewrite !andb_true_iff, !Z.leb_le in H. simpl. repeat split; lia.
Qed.

(** The timestamp a page ends at: that of its last row, which is the
    greatest of the page, and [toTimestamp] for a page without rows. *)
Lemma page_end s q cursor :
  (forall r, In r (requestedLogs s q cursor) ->
     row_timestamp r
     <= match lastRow (requestedLogs s q cursor) with
        | Some r => match row_block r with
                    | Some b => block_timestamp b
                    | None => toTimestamp q
                    end
        | None => toTimestamp q
        end)
  /\ match lastRow (requestedLogs s q cursor) with
     | Some r => match row_block r with
                 | Some b => block_timestamp b
                 | None => toTimestamp q
                 end
     | None => toTimestamp q
     end <= toTimestamp q
  /\ (forall lr, lastRow (requestedLogs s q cursor) = Some lr ->
        match row_block lr with
        | Some b => block_timestamp b
        | None => toTimestamp q
        end = row_timestamp lr).
Proof.
  pose proof (requestedLogs_in s q cursor) as Hin.
  pose proof (requestedLogs_nondecreasing s q cursor) as Hsorted.
  set (rows := requestedLogs s q cursor) in *.
  destruct rows as [|r0 rows'] eqn:Erows.
  - simpl. split; [intros r []|]. split; [lia | discriminate].
  - assert (Hne : r0 :: rows' <> []) by discriminate.
    destruct (lastRow_some _ Hne) as (front & lr & Hsplit & Hlast).
    rewrite Hlast.
    assert (Hlr : In lr (r0 :: rows'))
      by (rewrite Hsplit; apply in_or_app; right; now left).
    destruct (matching_timestamp s q lr (proj1 (Hin lr Hlr)))
      as (b & Hb & Hts & Hrange).
    rewrite Hb. split; [|split].
    + intros r Hr. rewrite <- Hts. apply key_le_timestamp.
      apply (last_is_max front); rewrite <- Hsplit; assumption.
    + lia.
    + intros lr' [= <-]. rewrite Hb. now symmetry.
Qed.

Lemma pagesLoop_checkpoints s q ec : forall fuel cursor pages,
  pagesLoop fuel s q ec cursor = Pages pages ->
  forall front p back,
    pages = front ++ p :: back ->
    (forall r, In r (events p) ->
       row_timestamp r <= pageEndsAtTimestamp (metadata p))
    /\ (forall r, In r (allEvents back) ->
          pageEndsAtTimestamp (metadata p) <= row_timestamp r)
    /\ pageEndsAtTimestamp (metadata p) <= toTimestamp q.
Proof.
  induction fuel as [|fuel IH]; intros cursor pages H front p back Hd;
    [discriminate|].
  simpl in H.
  destruct (page_end s q cursor) as (Hle & Hto & Hlast).
  set (rows := requestedLogs s q cursor) in *.
  destruct (forallb decodes rows); [|discriminate].
  destruct (List.length rows <? pageSize q)%nat eqn:E.
  - injection H as Hpages. rewrite <- Hpages in Hd.
    destruct front as [|f front]; simpl in Hd; [|destruct front; discriminate].
    injection Hd as <- <-. simpl.
    split; [exact Hle|]. split; [intros r []|exact Hto].
  - apply yield_pages in H. destruct H as (pages' & Ep & Hpages).
    destruct (Nat.eq_dec (pageSize q) 0) as [H0|H0].
    { now apply (pagesLoop_pageSize0 s q ec H0) in Ep. }
    apply Nat.ltb_ge in E.
    assert (Hne : rows <> []).
    { intros Hnil. rewrite Hnil in E. simpl in E. lia. }
    destruct (lastRow_some rows Hne) as (fr & lr & Hsplit & Hl).
    rewrite Hl in *. rewrite Hpages in Hd.
    destruct front as [|f front]; simpl in Hd.
    + injection Hd as <- <-. simpl.
      split; [exact Hle|]. split; [|exact Hto].
      intros r Hr. rewrite (Hlast lr eq_refl).
      apply pagesLoop_sound in Ep. destruct Ep as (Hin & _).
      apply key_lt_timestamp. apply (Hin r Hr).
    + injection Hd as _ Hd. exact (IH _ _ Ep front p back Hd).
Qed.

(** X20.  When [getLogEvents] returns, each page's [pageEndsAtTimestamp]
    is a checkpoint: every event of the page has a block timestamp between
    [fromTimestamp] and it, every event of every later page has a block
    timestamp at or after it, and it never exceeds [toTimestamp]. *)
Theorem getLogEvents_checkpoints fuel s q pages front p back :
  getLogEvents fuel s q = Pages pages ->
  pages = front ++ p :: back ->
  (forall r, In r (events p) ->
     fromTimestamp q <= row_timestamp r <= pageEndsAtTimestamp (metadata p))
  /\ (forall r, In r (allEvents back) ->
        pageEndsAtTimestamp (metadata p) <= row_timestamp r)
  /\ pageEndsAtTimestamp (metadata p) <= toTimestamp q.
Proof.
  intros H Hd. apply getLogEvents_loop in H.
  destruct (pagesLoop_checkpoints _ _ _ _ _ _ H front p back Hd)
    as (Hle & Hlater & Hto).
  apply pagesLoop_sound in H. destruct H as (Hin & _).
  split; [|split; assumption].
  intros r Hr. split; [|now apply Hle].
  assert (Hm : In r (matchingRows s q)).
  { apply Hin. subst pages. unfold allEvents.
    apply in_flat_map. exists p. split; [|exact Hr].
    apply in_or_app. right. now left. }
  destruct (matching_timestamp s q r Hm) as (b & _ & -> & Hrange). lia.
Qed.

Lemma getLogEvents_checkpoints_witness :
  exists p back,
    getLogEvents 4 Sample.store_S3 Sample.request_S3 = Pages ([] ++ p :: back)
    /\ (forall r, In r (events p) ->
          0 <= row_timestamp r <= pageEndsAtTimestamp (metadata p))
    /\ (forall r, In r (allEvents back) ->
          pageEndsAtTimestamp (metadata p) <= row_timestamp r)
    /\ pageEndsAtTimestamp (metadata p) <= 1000.
Proof.
  eexists. eexists. split; [reflexivity|].
  refine (getLogEvents_checkpoints 4 Sample.store_S3 Sample.request_S3
            _ [] _ _ _ _); reflexivity.
Defined.

End EventsMoreFacts.

(* ================================================================== *)
(** * Which rows an event source selects *)
(* ================================================================== *)

Module MatchFacts.
Import Rows Events StoreProperties.

Lemma and_app a b r : and_ (a ++ b) r = and_ a r && and_ b r.
Proof. unfold and_. apply forallb_app. Qed.

Lemma and_one c r : and_ [c] r = c r.
Proof. unfold and_. simpl. apply andb_true_r. Qed.

Lemma or_spec (eq : Hex -> Cmpr) v r hs :
  (forall a, eq a r = true <-> v = Some a) ->
  or_ (map eq hs) r = true <-> exists a, In a hs /\ v = Some a.
Proof.
  intros Heq. unfold or_. rewrite existsb_exists. split.
  - intros [c [Hc Hr]]. apply in_map_iff in Hc. destruct Hc as [a [<- Ha]].
    exists a. split; [exact Ha | now apply Heq].
  - intros [a [Ha Hv]]. exists (eq a). split; [now apply in_map | now apply Heq].
Qed.

(** The collapse of an array of one value changes nothing: a slot asks for
    its value, or for one of its values. *)
Lemma slot_cmprs_spec (eq : Hex -> Cmpr) v r slot :
  (forall a, eq a r = true <-> v = Some a) ->
  and_ (slot_cmprs eq slot) r = true <-> slot_ok (Some slot) v.
Proof.
  intros Heq. destruct slot as [a | hs]; cbn [slot_cmprs slot_ok].
  - rewrite and_one. apply Heq.
  - destruct hs as [|a [|b hs]]; rewrite and_one.
    + apply (or_spec eq v r [] Heq).
    + rewrite Heq. split.
      * intros ->. exists a. split; [now left | reflexivity].
      * intros [a' [[<- | []] Hv]]. exact Hv.
    + apply (or_spec eq v r (a :: b :: hs) Heq).
Qed.

Lemma address_eq_spec r a :
  address_eq a r = true <-> Some (log_address (row_log r)) = Some a.
Proof.
  unfold address_eq. rewrite String.eqb_eq. split; congruence.
Qed.

Lemma topic_eq_spec idx r a :
  topic_eq idx a r = true <-> topic_of idx (row_log r) = Some a.
Proof. unfold topic_eq. apply EqFacts.opt_eqb_eq. Qed.

Lemma topic_slot_spec idx slot r :
  and_ (match slot with
        | None => []
        | Some raw => slot_cmprs (topic_eq idx) raw
        end) r = true
  <-> slot_ok slot (topic_of idx (row_log r)).
Proof.
  destruct slot as [raw|]; [|split; [intros _; exact I | reflexivity]].
  exact (slot_cmprs_spec (topic_eq idx) _ r raw
           (fun a => topic_eq_spec idx r a)).
Qed.

Lemma bound_spec (test : Z -> Block -> bool) (P : Z -> Block -> Prop) fb r :
  (forall v b, test v b = true <-> P v b) ->
  and_ (if truthy fb
        then [block_cmp (fun b => match fb with
                                  | Some v => test v b
                                  | None => false
                                  end)]
        else []) r = true
  <-> (forall v, fb = Some v -> v <> 0 ->
         exists b, row_block r = Some b /\ P v b).
Proof.
  intros Htest. destruct fb as [v|]; cbn [truthy].
  - destruct (v =? 0) eqn:E; cbn [negb].
    + apply Z.eqb_eq in E. split; [|reflexivity].
      intros _ v' [= <-] Hv. contradiction.
    + apply Z.eqb_neq in E. rewrite and_one. unfold block_cmp.
      destruct (row_block r) as [b|].
      * rewrite Htest. split.
        -- intros H v' [= <-] _. eauto.
        -- intros H. destruct (H v eq_refl E) as [b' [[= <-] Hb]]. exact Hb.
      * split; [discriminate|].
        intros H. destruct (H v eq_refl E) as [b' [Hb _]]. discriminate.
  - split; [|reflexivity]. intros _ v Hv. discriminate.
Qed.

Lemma block_bounds_spec fromBlock toBlock r :
  and_ (block_bounds fromBlock toBlock) r = true
  <-> bounds_ok fromBlock toBlock r.
Proof.
  unfold block_bounds, bounds_ok. rewrite and_app, andb_true_iff.
  rewrite (bound_spec (fun v b => v <=? block_number b)
                      (fun v b => v <= block_number b))
    by (intros; apply Z.leb_le).
  rewrite (bound_spec (fun v b => block_number b <=? v)
                      (fun v b => block_number b <= v))
    by (intros; apply Z.leb_le).
  reflexivity.
Qed.

Lemma address_cmprs_spec address r :
  and_ (address_cmprs address) r = true
  <-> match address with
      | None => True
      | Some (One a) => a = EmptyString \/ log_address (row_log r) = a
      | Some (Many hs) => In (log_address (row_log r)) hs
      end.
Proof.
  destruct address as [[a | hs]|]; cbn [address_cmprs].
  - unfold truthy_text. destruct (String.eqb a "") eqn:E;
      cbn [negb slot_cmprs].
    + apply String.eqb_eq in E. split; [now left | reflexivity].
    + apply String.eqb_neq in E. rewrite and_one. unfold address_eq.
      rewrite String.eqb_eq. tauto.
  - rewrite (slot_cmprs_spec address_eq (Some (log_address (row_log r))) r
               (Many hs) (fun a => address_eq_spec r a)).
    cbn [slot_ok]. split.
    + intros [a [Ha [= ->]]]. exact Ha.
    + intros H. eauto.
  - split; [intros _; exact I | reflexivity].
Qed.

Lemma topics_cmprs_spec topics r :
  and_ (topics_cmprs topics) r = true
  <-> slot_ok (topic_slot topics 0) (log_topic0 (row_log r))
      /\ slot_ok (topic_slot topics 1) (log_topic1 (row_log r))
      /\ slot_ok (topic_slot topics 2) (log_topic2 (row_log r))
      /\ slot_ok (topic_slot topics 3) (log_topic3 (row_log r)).
Proof.
  destruct topics as [ts|]; [|split; [simpl; tauto | reflexivity]].
  unfold topics_cmprs. simpl flat_map. rewrite app_nil_r.
  rewrite !and_app, !andb_true_iff.
  rewrite !topic_slot_spec. simpl topic_of. tauto.
Qed.

(** X22.  A row passes the comparisons [buildLogFilterCmprs] builds for a
    log filter exactly when it carries the filter's name and chain, its
    address is the filter's address or one of its addresses (an empty-string
    address is no constraint, an empty array matches nothing), each bound
    topic slot holds the topic or one of the topics of the slot (a log
    without that topic never matches), and its block is inside the non-zero
    block bounds. *)
Theorem buildLogFilterCmprs_spec lf r :
  and_ (buildLogFilterCmprs lf) r = true <-> logFilter_matches lf r.
Proof.
  unfold buildLogFilterCmprs, logFilter_matches.
  rewrite !and_app, !andb_true_iff.
  rewrite address_cmprs_spec, topics_cmprs_spec, block_bounds_spec.
  unfold and_. simpl forallb.
  rewrite !andb_true_iff, String.eqb_eq, Z.eqb_eq. tauto.
Qed.

Lemma buildLogFilterCmprs_spec_witness :
  logFilter_matches (Sample.source "src"%string)
    (mkRow "src"%string (Sample.log7 0 "0xb7-0"%string Sample.selX) (Some Sample.block7)
           None).
Proof.
  apply (proj1 (buildLogFilterCmprs_spec (Sample.source "src"%string)
                  (mkRow "src"%string (Sample.log7 0 "0xb7-0"%string Sample.selX)
                         (Some Sample.block7) None))).
  reflexivity.
Defined.

Lemma childAddress_in_spec s f r :
  childAddress_in s f r = true
  <-> exists upTo l,
        In l (ChildAddress.childAddressRows s (fs_chainId f) upTo
                (fs_criteria f))
        /\ ChildAddress.buildFactoryChildAddressSelectExpression
             (fc_childAddressLocation (fs_criteria f)) l
           = Some (log_address (row_log r)).
Proof.
  unfold childAddress_in. rewrite existsb_exists. split.
  - intros [l [Hl H]]. rewrite !andb_true_iff in H.
    destruct H as [[[Hc Ha] Ht] He].
    exists (log_blockNumber l), l. split.
    + unfold ChildAddress.childAddressRows. apply filter_In. split; [exact Hl|].
      rewrite Hc, Ha, Ht. simpl. apply Z.leb_refl.
    + now apply EqFacts.opt_eqb_eq.
  - intros [upTo [l [Hl He]]].
    unfold ChildAddress.childAddressRows in Hl. apply filter_In in Hl.
    destruct Hl as [Hl H]. rewrite !andb_true_iff in H.
    destruct H as [[[Hc Ha] Ht] _].
    exists l. split; [exact Hl|].
    rewrite Hc, Ha, Ht. simpl. now apply EqFacts.opt_eqb_eq.
Qed.

(** X23.  A row passes the comparisons [buildFactoryCmprs] builds for a
    factory exactly when it carries the factory's name and chain, its block
    is inside the non-zero block bounds, and the address of its log is the
    child address of a log that [getFactoryChildAddresses] scans for that
    factory and chain up to some block number: the announcement may sit in
    any block, also one after the row's own. *)
Theorem buildFactoryCmprs_spec s f r :
  and_ (buildFactoryCmprs s f) r = true <-> factory_matches s f r.
Proof.
  unfold buildFactoryCmprs, factory_matches.
  rewrite and_app, andb_true_iff, block_bounds_spec.
  unfold and_. simpl forallb.
  rewrite !andb_true_iff, String.eqb_eq, Z.eqb_eq, childAddress_in_spec.
  tauto.
Qed.

Lemma buildFactoryCmprs_spec_witness :
  factory_matches Sample.store_two_children
    (mkFactorySource "fac"%string 1 Sample.factory0 None None None)
    (mkRow "fac"%string
       (Sample.log_at "0xb6-0"%string 1 ("0x" ++ Sample.aa20)%string "0xb6"%string 6 "0x"%string 0
          None None "0xt2"%string)
       None None).
Proof.
  apply (proj1 (buildFactoryCmprs_spec Sample.store_two_children
                  (mkFactorySource "fac"%string 1 Sample.factory0 None None None)
                  (mkRow "fac"%string
                     (Sample.log_at "0xb6-0"%string 1 ("0x" ++ Sample.aa20)%string "0xb6"%string 6
                        "0x"%string 0 None None "0xt2"%string)
                     None None))).
  reflexivity.
Defined.

End MatchFacts.

(* ================================================================== *)
(** * Coverage of a factory *)
(* ================================================================== *)

Module FactoryCoverageFacts.
Import Rows SyncStore Properties.

Lemma built_factory_shape c chainId f :
  In f (buildFactoryFragments c chainId) ->
  f = factory_fragment_of chainId c (ff_topic0 f) (ff_topic1 f)
                          (ff_topic2 f) (ff_topic3 f).
Proof.
  unfold buildFactoryFragments. intros H.
  repeat (apply in_flat_map in H; destruct H as [? [_ H]]).
  apply in_map_iff in H. destruct H as [? [<- _]]. reflexivity.
Qed.

Lemma built_factory_chainId c chainId f :
  In f (buildFactoryFragments c chainId) -> ff_chainId f = chainId.
Proof. intros H. apply built_factory_shape in H. now rewrite H. Qed.

Lemma built_factory_id_inj c chainId f g :
  In f (buildFactoryFragments c chainId) ->
  In g (buildFactoryFragments c chainId) ->
  ff_id g = ff_id f -> g = f.
Proof.
  intros Hf Hg. apply built_factory_shape in Hf, Hg.
  rewrite Hf, Hg. simpl. intros H. now inversion H.
Qed.

Lemma factoryJoin_refl f : factoryJoin f f = true.
Proof.
  unfold factoryJoin.
  now rewrite !String.eqb_refl, !FragmentFacts.column_matches_refl.
Qed.

(** ** Upserts into [factories] *)

Lemma in_upsertFactory_self f tbl : In f (upsertFactory f tbl).
Proof.
  unfold upsertFactory.
  destruct (existsb (fun r => factoryId_eqb (ff_id r) (ff_id f)) tbl) eqn:E.
  - apply existsb_exists in E. destruct E as [r [Hr E]].
    apply in_map_iff. exists r. now rewrite E.
  - apply in_or_app. right. now left.
Qed.

Lemma in_upsertFactory_other f g tbl :
  In f tbl -> (ff_id g = ff_id f -> g = f) -> In f (upsertFactory g tbl).
Proof.
  intros Hin Hg. unfold upsertFactory.
  destruct (existsb (fun r => factoryId_eqb (ff_id r) (ff_id g)) tbl).
  - apply in_map_iff. exists f. split; [|exact Hin].
    destruct (factoryId_eqb (ff_id f) (ff_id g)) eqn:E; [|reflexivity].
    apply EqFacts.factoryId_eqb_eq in E. now apply Hg.
  - apply in_or_app. now left.
Qed.

Lemma fold_upsertFactory_in f : forall fragments tbl,
  (forall g, In g fragments -> ff_id g = ff_id f -> g = f) ->
  In f fragments \/ In f tbl ->
  In f (fold_left (fun tbl g => upsertFactory g tbl) fragments tbl).
Proof.
  induction fragments as [|g fragments IH]; intros tbl Hinj Hin; simpl.
  - destruct Hin as [[] | Hin]. exact Hin.
  - apply IH; [intros; apply Hinj; simpl; auto|].
    destruct Hin as [[-> | Hin] | Hin].
    + right. apply in_upsertFactory_self.
    + now left.
    + right. apply in_upsertFactory_other; [exact Hin|]. apply Hinj. now left.
Qed.

(** ** The merge phase *)

Lemma fold_merge_factories : forall fragments s,
  factories (fold_left mergeFactoryFragment fragments s)
  = fold_left (fun tbl f => upsertFactory f tbl) fragments (factories s).
Proof.
  induction fragments as [|f fragments IH]; intros s; simpl; [reflexivity|].
  now rewrite IH.
Qed.

Lemma factory_rows_of_merge_covered n id s f :
  Interval.covered n (factory_rows_of id (mergeFactoryFragment s f))
  <-> Interval.covered n (factory_rows_of id s).
Proof.
  rewrite !MergePhaseFacts.factory_rows_of_table,
    MergePhaseFacts.merge_factory_table.
  apply MergeRowsFacts.rowsOf_mergeId_covered;
    [apply EqFacts.factoryId_eqb_eq | reflexivity | intros ? []; reflexivity].
Qed.

Lemma fold_merge_factory_covered n id : forall fragments s,
  Interval.covered n
    (factory_rows_of id (fold_left mergeFactoryFragment fragments s))
  <-> Interval.covered n (factory_rows_of id s).
Proof.
  induction fragments as [|f fragments IH]; intros s; simpl; [tauto|].
  rewrite IH. apply factory_rows_of_merge_covered.
Qed.

(** ** The select *)

Lemma select_factory_in s chainId fragments i r f :
  In i (factoryLogFilterIntervals s) -> In r (factories s) ->
  ff_id r = fli_factoryId i -> In f fragments ->
  factoryJoin r f = true -> ff_chainId r = chainId ->
  In (ff_id f, interval_of_factory_row i)
     (selectFactoryIntervals s chainId fragments).
Proof.
  intros Hi Hr Hid Hf Hj Hc. unfold selectFactoryIntervals.
  apply in_flat_map. exists i. split; [exact Hi|].
  apply in_flat_map. exists r. split.
  - apply filter_In. split; [exact Hr | now apply EqFacts.factoryId_eqb_eq].
  - apply in_flat_map. exists f. split; [exact Hf|].
    rewrite Hj. apply Z.eqb_eq in Hc. rewrite Hc. now left.
Qed.

(** X13.  After [insertFactoryLogFilterInterval] with the interval
    [[a, e]], [getFactoryLogFilterIntervals] for the same factory and chain
    returns (the factory having a fragment); and when the factory has a
    single fragment, or the interval lists selected for its fragments are
    each already unioned, every block number of [[a, e]] is inside an
    interval of the list it returns. *)
Theorem inserted_factory_interval_covered s chainId factory b ts ls a e :
  let s' := insertFactoryLogFilterInterval s chainId factory b ts ls (a, e) in
  (buildFactoryFragments factory chainId <> [] ->
   exists result,
     snd (getFactoryLogFilterIntervals s' chainId factory) = Some result)
  /\ ((exists f, buildFactoryFragments factory chainId = [f])
      \/ selectedFactoryUnioned s' chainId factory ->
      forall result n,
        snd (getFactoryLogFilterIntervals s' chainId factory) = Some result ->
        a <= n <= e -> Interval.covered n result).
Proof.
  cbv zeta. unfold selectedFactoryUnioned, getFactoryLogFilterIntervals.
  set (fragments := buildFactoryFragments factory chainId).
  set (s' := insertFactoryLogFilterInterval s chainId factory b ts ls (a, e)).
  set (s1 := fold_left mergeFactoryFragment fragments s').
  cbn [fst snd]. split.
  - intros Hne. destruct fragments; [contradiction|]. eexists. reflexivity.
  - intros Hcase result n Hres Hn.
    assert (Hne : fragments <> [])
      by (intros H0; rewrite H0 in Hres; discriminate).
    assert (Hr : result = Interval.intervalIntersectionMany
                            (factoryFragmentIntervals s1 chainId fragments)).
    { destruct fragments; [contradiction | now inversion Hres]. }
    assert (Hall : Forall (Interval.covered n)
                          (factoryFragmentIntervals s1 chainId fragments)).
    { unfold factoryFragmentIntervals.
      rewrite Forall_map, Forall_forall. intros f Hf.
      assert (Hcov : Interval.covered n (factory_rows_of (ff_id f) s1)).
      { apply fold_merge_factory_covered.
        rewrite MergePhaseFacts.factory_rows_of_table.
        apply (MergeRowsFacts.covered_rowsOf _ EqFacts.factoryId_eqb_eq).
        exists (mkFactoryLogFilterInterval (ff_id f) a e).
        split; [|split; [reflexivity | exact Hn]].
        unfold s'.
        rewrite MergePhaseFacts.insertFactoryLogFilterInterval_intervals.
        apply in_or_app. right. apply in_map_iff. exists f. auto. }
      rewrite MergePhaseFacts.factory_rows_of_table in Hcov.
      apply (MergeRowsFacts.covered_rowsOf _ EqFacts.factoryId_eqb_eq) in Hcov.
      destruct Hcov as (i & Hi & Hid & Hin).
      exists (interval_of_factory_row i). split; [|exact Hin].
      apply in_map_iff. exists (ff_id f, interval_of_factory_row i).
      split; [reflexivity|]. apply filter_In. split.
      + apply (select_factory_in s1 chainId fragments i f f); auto.
        * unfold s1. rewrite fold_merge_factories.
          apply fold_upsertFactory_in; [|now left].
          intros g Hg. now apply (built_factory_id_inj factory chainId).
        * apply factoryJoin_refl.
        * now apply (built_factory_chainId factory).
      + apply EqFacts.factoryId_eqb_refl. }
    rewrite Hr. destruct Hcase as [[f Hf] | Hu].
    + rewrite Hf in Hall |- *. unfold factoryFragmentIntervals in *.
      cbn [map] in *. inversion Hall; subst. assumption.
    + apply IntervalFacts.intervalIntersectionMany_complete;
        [exact Hu | | exact Hall].
      unfold factoryFragmentIntervals.
      destruct fragments; [contradiction | discriminate].
Qed.

(** Block 3 after [[20,30]] and then [[0,10]] were inserted for the factory
    at ["0xfac"]. *)
Lemma inserted_factory_interval_covered_witness :
  snd (getFactoryLogFilterIntervals
         (insertFactoryLogFilterInterval
            (insertFactoryLogFilterInterval Rows.empty 1 Sample.factory0
               Sample.block1 [] [] (20, 30))
            1 Sample.factory0 Sample.block1 [] [] (0, 10))
         1 Sample.factory0)
  = Some [(0, 10); (20, 30)]
  /\ Interval.covered 3 [(0, 10); (20, 30)].
Proof.
  split; [reflexivity|].
  apply (proj2 (inserted_factory_interval_covered
                  (insertFactoryLogFilterInterval Rows.empty 1 Sample.factory0
                     Sample.block1 [] [] (20, 30))
                  1 Sample.factory0 Sample.block1 [] [] 0 10)
           (or_introl (ex_intro _ _ eq_refl)) [(0, 10); (20, 30)] 3).
  - reflexivity.
  - lia.
Defined.

End FactoryCoverageFacts.

(* ================================================================== *)
(** * The [Ponder] instance *)
(* ================================================================== *)

Module PonderFacts.
Import Ponder.

Lemma setupPlugins_called {W} (plugins : list (ResolvedPonderPlugin W)) :
  forall w, setupPlugins plugins w
            = fold_left (fun w h => h w) (called setup plugins) w.
Proof.
  induction plugins as [|p plugins IH]; intros w; simpl; [reflexivity|].
  destruct (setup p); simpl; [apply IH | reflexivity].
Qed.

Lemma reloadPlugins_called {W} (plugins : list (ResolvedPonderPlugin W)) :
  forall w, reloadPlugins plugins w
            = fold_left (fun w h => h w) (called reload plugins) w.
Proof.
  induction plugins as [|p plugins IH]; intros w; simpl; [reflexivity|].
  destruct (reload p); simpl; [apply IH | reflexivity].
Qed.

Lemma teardownPlugins_called {W} (plugins : list (ResolvedPonderPlugin W)) :
  forall w, teardownPlugins plugins w
            = fold_left (fun w h => h w) (called teardown plugins) w.
Proof.
  induction plugins as [|p plugins IH]; intros w; simpl; [reflexivity|].
  destruct (teardown p); simpl; [apply IH | reflexivity].
Qed.

Lemma called_stops {W} (hook : ResolvedPonderPlugin W -> option (W -> W))
  front plugin back :
  hook plugin = None ->
  called hook (front ++ plugin :: back) = called hook front.
Proof.
  intros H. induction front as [|p front IH]; simpl.
  - now rewrite H.
  - destruct (hook p); [now rewrite IH | reflexivity].
Qed.

(** X25.  [setupPlugins], [reloadPlugins] and [teardownPlugins] stop at
    the first plugin that lacks the hook ([return], not [continue]): the
    plugins after it are never called, whatever hooks they have, so the
    instance ends as if the list stopped before that plugin. *)
Theorem plugins_after_hookless_skipped {W}
  (front back : list (ResolvedPonderPlugin W)) plugin w :
  (setup plugin = None ->
   setupPlugins (front ++ plugin :: back) w = setupPlugins front w)
  /\ (reload plugin = None ->
      reloadPlugins (front ++ plugin :: back) w = reloadPlugins front w)
  /\ (teardown plugin = None ->
      teardownPlugins (front ++ plugin :: back) w = teardownPlugins front w).
Proof.
  split; [|split]; intros H.
  - now rewrite !setupPlugins_called, called_stops.
  - now rewrite !reloadPlugins_called, called_stops.
  - now rewrite !teardownPlugins_called, called_stops.
Qed.

Lemma plugins_after_hookless_skipped_witness :
  setupPlugins ([PonderSample.counting] ++ PonderSample.hookless
                   :: [PonderSample.counting]) 0
  = setupPlugins [PonderSample.counting] 0.
Proof.
  apply (proj1 (plugins_after_hookless_skipped [PonderSample.counting]
                  [PonderSample.counting] PonderSample.hookless 0)).
  reflexivity.
Defined.

(** While [isHandlingLogs] is set, the calls other than [reloadHandlers]
    leave the flag, the queue and [logsProcessedToTimestamp] as they are. *)
Lemma handling_kept {L} (calls : list (Call L)) : forall st,
  isHandlingLogs st = true ->
  forallb (fun c => negb (reloads c)) calls = true ->
  isHandlingLogs (fold_left run calls st) = true
  /\ handlerQueue (fold_left run calls st) = handlerQueue st
  /\ logsProcessedToTimestamp (fold_left run calls st)
     = logsProcessedToTimestamp st.
Proof.
  induction calls as [|c calls IH]; intros st Hh Hc; [now simpl|].
  simpl in Hc. apply andb_true_iff in Hc. destruct Hc as [Hc Hcs].
  cbn [fold_left].
  assert (Hstep : isHandlingLogs (run st c) = true
                  /\ handlerQueue (run st c) = handlerQueue st
                  /\ logsProcessedToTimestamp (run st c)
                     = logsProcessedToTimestamp st).
  { destruct c as [g| |b]; [| |discriminate]; simpl.
    - unfold handleNewLogs. rewrite Hh.
      destruct (handlerQueue st) eqn:Eq; rewrite ?Eq; auto.
    - auto. }
  destruct Hstep as (H1 & H2 & H3).
  destruct (IH (run st c) H1 Hcs) as (I1 & I2 & I3).
  rewrite I1, I2, I3. auto.
Qed.

(** X26.  When [getLogs] rejects, [handleNewLogs] leaves [isHandlingLogs]
    set.  Until [reloadHandlers] runs, every later [handleNewLogs], whatever
    [getLogs] would resolve to, returns at its guard, also with task starts
    in between: the flag stays set, no log is queued and
    [logsProcessedToTimestamp] stays where it was.  [reloadHandlers] then
    clears the flag, and the next [handleNewLogs] asks [getLogs] again from
    that same timestamp. *)
Theorem handleNewLogs_stuck_until_reload {L} (st : State L) queue getLogs
  (later : list (Call L)) :
  handlerQueue st = Some queue ->
  isHandlingLogs st = false ->
  getLogs (logsProcessedToTimestamp st) = None ->
  forallb (fun c => negb (reloads c)) later = true ->
  let st' := handleNewLogs getLogs st in
  let st'' := fold_left run later st' in
  isHandlingLogs st' = true
  /\ isHandlingLogs st'' = true
  /\ handlerQueue st'' = Some queue
  /\ logsProcessedToTimestamp st'' = logsProcessedToTimestamp st
  /\ (forall handlersRead,
        isHandlingLogs (reloadHandlers handlersRead st'') = false)
  /\ (forall r,
        hasNewLogs r = true ->
        let st3 := handleNewLogs
                     (fun t => if t =? logsProcessedToTimestamp st
                               then Some r else None)
                     (reloadHandlers true st'') in
        handlerQueue st3 = Some (logs r)
        /\ logsProcessedToTimestamp st3 = toTimestamp r
        /\ isHandlingLogs st3 = false).
Proof.
  intros Hq Hh Hg Hlater. cbv zeta.
  assert (E : handleNewLogs getLogs st
              = mkState (Some queue) (logsProcessedToTimestamp st) true
                        (ui st)).
  { unfold handleNewLogs. now rewrite Hq, Hh, Hg. }
  rewrite E.
  destruct (handling_kept later _ (eq_refl : isHandlingLogs
              (mkState (Some queue) (logsProcessedToTimestamp st) true (ui st))
              = true) Hlater) as (H1 & H2 & H3).
  cbn [isHandlingLogs handlerQueue logsProcessedToTimestamp] in H2, H3 |- *.
  split; [reflexivity|]. split; [exact H1|]. split; [exact H2|].
  split; [exact H3|]. split.
  - intros b. unfold reloadHandlers. rewrite H2. reflexivity.
  - intros r Hr. unfold reloadHandlers, handleNewLogs. rewrite H2, H3.
    cbn [handlerQueue isHandlingLogs logsProcessedToTimestamp].
    rewrite Z.eqb_refl, Hr. simpl. auto.
Qed.

Lemma handleNewLogs_stuck_until_reload_witness :
  let st' := handleNewLogs PonderSample.rejects PonderSample.caughtUp in
  let st'' := fold_left run
                [HandleNewLogs (PonderSample.resolves [3]);
                 HandleHandlerTaskStarted;
                 HandleNewLogs (PonderSample.resolves [4])] st' in
  isHandlingLogs st' = true
  /\ isHandlingLogs st'' = true
  /\ handlerQueue st'' = Some [1; 2]
  /\ logsProcessedToTimestamp st'' = 10
  /\ isHandlingLogs (reloadHandlers true st'') = false
  /\ handlerQueue
       (handleNewLogs (PonderSample.resolves [3]) (reloadHandlers true st''))
     = Some [3].
Proof.
  cbv zeta.
  destruct (handleNewLogs_stuck_until_reload PonderSample.caughtUp [1; 2]
              PonderSample.rejects
              [HandleNewLogs (PonderSample.resolves [3]);
               HandleHandlerTaskStarted;
               HandleNewLogs (PonderSample.resolves [4])]
              eq_refl eq_refl eq_refl eq_refl)
    as (H1 & H2 & H3 & H4 & H5 & _).
  split; [exact H1|]. split; [exact H2|]. split; [exact H3|].
  split; [exact H4|]. split; [exact (H5 true) | reflexivity].
Defined.

Lemma started_counts {L} (st : State L) : forall k,
  handlersCurrent (ui (Nat.iter k handleHandlerTaskStarted st))
  = handlersCurrent (ui st) + Z.of_nat k
  /\ handlersTotal (ui (Nat.iter k handleHandlerTaskStarted st))
     = handlersTotal (ui st).
Proof.
  induction k as [|k [IHc IHt]]; [simpl; split; [lia | reflexivity]|].
  rewrite Nat.iter_succ. cbn [handleHandlerTaskStarted ui handlersCurrent
                             handlersTotal].
  rewrite IHc, IHt. split; [lia | reflexivity].
Qed.

Lemma started_status {L} (st : State L) k :
  handlersStatus (ui (Nat.iter (S k) handleHandlerTaskStarted st)) = UP_TO_DATE
  <-> handlersCurrent (ui st) + Z.of_nat (S k) = handlersTotal (ui st).
Proof.
  rewrite Nat.iter_succ.
  destruct (started_counts st k) as [Hc Ht].
  cbn [handleHandlerTaskStarted ui handlersStatus]. rewrite Hc, Ht.
  destruct (_ =? _) eqn:E.
  - apply Z.eqb_eq in E. split; [lia | reflexivity].
  - apply Z.eqb_neq in E. split; [discriminate | lia].
Qed.

(** X27.  When every task queued so far has started
    ([handlersCurrent = handlersTotal]) and [handleNewLogs] gets new logs
    from [getLogs], it queues them in order behind the tasks already there,
    asks for the next logs from [toTimestamp] on, and releases
    [isHandlingLogs]; the status then turns [UP_TO_DATE] at the task start
    that matches the number of those logs and at no other. *)
Theorem handleNewLogs_then_started {L} (st : State L) queue getLogs r k :
  handlerQueue st = Some queue ->
  isHandlingLogs st = false ->
  getLogs (logsProcessedToTimestamp st) = Some r ->
  hasNewLogs r = true ->
  handlersCurrent (ui st) = handlersTotal (ui st) ->
  let st' := handleNewLogs getLogs st in
  handlerQueue st' = Some (queue ++ logs r)
  /\ logsProcessedToTimestamp st' = toTimestamp r
  /\ isHandlingLogs st' = false
  /\ (handlersStatus (ui (Nat.iter (S k) handleHandlerTaskStarted st'))
      = UP_TO_DATE
      <-> S k = List.length (logs r)).
Proof.
  intros Hq Hh Hg Hnew Hcur. cbv zeta.
  rewrite started_status.
  unfold handleNewLogs. rewrite Hq, Hh, Hg, Hnew.
  cbn [negb handlerQueue logsProcessedToTimestamp isHandlingLogs ui
       handlersCurrent handlersTotal].
  repeat split; lia.
Qed.

Lemma handleNewLogs_then_started_witness :
  handlerQueue
    (handleNewLogs (PonderSample.resolves [3; 4]) PonderSample.caughtUp)
  = Some ([1; 2] ++ [3; 4])
  /\ logsProcessedToTimestamp
       (handleNewLogs (PonderSample.resolves [3; 4]) PonderSample.caughtUp)
     = 20
  /\ isHandlingLogs
       (handleNewLogs (PonderSample.resolves [3; 4]) PonderSample.caughtUp)
     = false
  /\ (handlersStatus
        (ui (Nat.iter 2 handleHandlerTaskStarted
               (handleNewLogs (PonderSample.resolves [3; 4])
                              PonderSample.caughtUp)))
      = UP_TO_DATE
      <-> 2%nat = List.length [3; 4]).
Proof.
  apply (handleNewLogs_then_started PonderSample.caughtUp [1; 2]
           (PonderSample.resolves [3; 4]) (mkGetLogsResult true 20 [3; 4]) 1);
    reflexivity.
Defined.

End PonderFacts.

